(** * Module resolution cache of the Svelte language server

    A shallow embedding of
    [packages/language-server/src/plugins/typescript/module-loader.ts]:
    the [ModuleResolutionCache] class and the module loader built by
    [createSvelteModuleLoader] (batch resolution, failed-lookup tracking
    and the invalidation hooks).

    JavaScript strings are modelled as [string]: sequences of code units
    below 256, that is, of Latin-1 characters.  The [Map] inside a [FileMap]
    is a [gmap], the [Set] inside a [FileSet] a [gset].

    [State] holds what the loader itself owns: the resolution cache, the
    failed-lookup records and the invalidation sets; [ModuleLoader] adds
    the type-reference cache.  What the loader only calls into (the
    resolution algorithm of the compiler with its internal cache
    [tsModuleCache], and [svelteSys] with its file-existence cache) is
    behind the oracles of [Env], given anew to every batch. *)

From Stdlib Require Import Ascii String.
From stdpp Require Import base option list strings gmap fin_maps fin_sets.

Local Open Scope stdpp_scope.

(** ** JavaScript string primitives *)

Module JsString.

(** [s.startsWith(p)] *)
Fixpoint startsWith (p s : string) : bool :=
  match p, s with
  | EmptyString, _ => true
  | String a p', String b s' => if decide (a = b) then startsWith p' s' else false
  | String _ _, EmptyString => false
  end.

(** [s.includes(sub)] *)
Fixpoint includes (sub s : string) : bool :=
  startsWith sub s ||
  match s with
  | EmptyString => false
  | String _ s' => includes sub s'
  end.

(** [s.split(sep)] for a non-empty separator: the string is scanned from
    the left, every occurrence of [sep] closes the current piece, and the
    characters of the occurrence are skipped.  [skip] counts the
    characters of a matched separator still to drop, [cur] is the current
    piece in reverse. *)
Fixpoint split_go (sep : string) (skip : nat) (cur : string) (s : string)
  : list string :=
  match s with
  | EmptyString => [String.rev cur]
  | String c s' =>
      match skip with
      | S n => split_go sep n cur s'
      | O =>
          if startsWith sep s
          then String.rev cur :: split_go sep (String.length sep - 1) EmptyString s'
          else split_go sep 0 (String c cur) s'
      end
  end.

Definition split (sep s : string) : list string := split_go sep 0 EmptyString s.

(** [arr.shift() || ''] on the array returned by [split] *)
Definition shiftOrEmpty (l : list string) : string := default "" (head l).

(** the last element, [arr.pop() || ''] *)
Definition popOrEmpty (l : list string) : string := default "" (last l).

(** [s.endsWith(suffix)] *)
Definition endsWith (suffix s : string) : bool :=
  startsWith (String.rev suffix) (String.rev s).

(** [s.slice(0, -n)] *)
Definition dropLast (n : nat) (s : string) : string :=
  String.substring 0 (String.length s - n) s.

(** [String.prototype.toLowerCase] on one code unit below 256: the
    letters [A]-[Z] (65-90) and the Latin-1 capitals U+00C0-U+00DE (192-222)
    other than the multiplication sign U+00D7 (215) move up by 32; every
    other code unit, the sharp s U+00DF (223) among them, is kept. *)
Definition lowerChar (c : ascii) : ascii :=
  let n := nat_of_ascii c in
  if ((65 <=? n)%nat && (n <=? 90)%nat)
     || ((192 <=? n)%nat && (n <=? 222)%nat && negb (n =? 215)%nat)
  then ascii_of_nat (n + 32) else c.

Fixpoint mapChars (f : ascii → ascii) (s : string) : string :=
  match s with
  | EmptyString => EmptyString
  | String c s' => String (f c) (mapChars f s')
  end.

(** [s.toLowerCase()] *)
Definition toLowerCase (s : string) : string := mapChars lowerChar s.

(** [re.test(s)] for a regular expression [/[...]+/] given by its
    character class: some character of [s] is in the class. *)
Fixpoint test (class : ascii → bool) (s : string) : bool :=
  match s with
  | EmptyString => false
  | String c s' => class c || test class s'
  end.

(** [s.replace(re, f)] for a global regular expression [/[...]+/g] given
    by its character class: every maximal run of characters of the class
    is replaced by [f] of the run.  [run] is the current run in reverse. *)
Definition replace_flush (f : string → string) (run : string) : string :=
  match run with
  | EmptyString => EmptyString
  | String _ _ => f (String.rev run)
  end.

Fixpoint replace_go (class : ascii → bool) (f : string → string)
    (run : string) (s : string) : string :=
  match s with
  | EmptyString => replace_flush f run
  | String c s' =>
      if class c
      then replace_go class f (String c run) s'
      else replace_flush f run +:+ String c (replace_go class f EmptyString s')
  end.

Definition replace (class : ascii → bool) (f : string → string) (s : string)
  : string :=
  replace_go class f EmptyString s.

(** [s.replace(/\\/g, '/')]: every backslash becomes a slash. *)
Definition backslashesToSlashes (s : string) : string :=
  mapChars (λ c, if decide (c = "\"%char) then "/"%char else c) s.

End JsString.

Import JsString.

(** ** Helpers imported by the module loader *)

(** The helpers of [packages/language-server/src/utils.ts] that the module
    loader imports.  The text of [utils.ts] is found in the sources after
    the workflow definition of [.github/workflows/CI.yml]; line numbers
    below refer to that file. *)

(** [fileNameLowerCaseRegExp] (line 365),
    [/[^\u0130\u0131\u00DFa-z0-9\\/:\-_\. ]+/g], as the class of the
    characters it matches: everything but the sharp s (223), [a]-[z],
    [0]-[9], backslash, slash, colon, hyphen, underscore, dot and space.
    (The dotted and dotless i, U+0130 and U+0131, are no code units below
    256.) *)
Definition fileNameLowerCaseRegExp (c : ascii) : bool :=
  let n := nat_of_ascii c in
  negb ((n =? 223)%nat
        || ((97 <=? n)%nat && (n <=? 122)%nat)
        || ((48 <=? n)%nat && (n <=? 57)%nat)
        || (n =? 92)%nat || (n =? 47)%nat || (n =? 58)%nat
        || (n =? 45)%nat || (n =? 95)%nat || (n =? 46)%nat
        || (n =? 32)%nat).

(** [toFileNameLowerCase] (lines 371-373): if the expression matches
    somewhere, every run it matches is replaced by its lower case;
    otherwise the string is returned as it is.  ([replace] with a global
    expression starts at index 0 and leaves [lastIndex] at 0, and so does
    a [test] that fails, so the [lastIndex] of the shared expression is 0
    at every call.) *)
Definition toFileNameLowerCase (x : string) : string :=
  if test fileNameLowerCaseRegExp x
  then replace fileNameLowerCaseRegExp toLowerCase x
  else x.

(** [createGetCanonicalFileName] (lines 383-387); [identity] is [id]. *)
Definition createGetCanonicalFileName (useCaseSensitiveFileNames : bool)
  : string → string :=
  if useCaseSensitiveFileNames then id else toFileNameLowerCase.

(** The remaining imports of the module loader, taken as an interface:
    [ts.sys.useCaseSensitiveFileNames] and the path classifiers of
    [./utils], which are not part of the sources at hand.
    [getLastPartOfPath] of [utils.ts] is a field too, so that the
    properties below hold of every implementation of it; the instances of
    [Svelte] fill it with the function of the source. *)
Class PathUtils := {
  useCaseSensitiveFileNames : bool;
  getLastPartOfPath : string → string;
  ensureRealSvelteFilePath : string → string;
  isSvelteFilePath : string → bool;
  isVirtualSvelteFilePath : string → bool;
  (** [tsSystem.useCaseSensitiveFileNames] of the [ts.System] the loader
      is created with *)
  tsSystemCaseSensitive : bool
}.

(** Modelled from the spec: [FileMap] of [../../lib/documents/fileCollection]
    is not part of the sources at hand.  It is a [Map] keyed by file path in
    which every key is case-normalized per the host policy on the way in;
    [forEach] hands out the stored (normalized) keys. *)
Module FileMap.
Section FileMap.
Context {T : Type} (caseSensitive : bool).

Definition get (filePath : string) (m : gmap string T) : option T :=
  m !! createGetCanonicalFileName caseSensitive filePath.

Definition has (filePath : string) (m : gmap string T) : bool :=
  bool_decide (is_Some (m !! createGetCanonicalFileName caseSensitive filePath)).

Definition set (filePath : string) (value : T) (m : gmap string T)
  : gmap string T :=
  <[createGetCanonicalFileName caseSensitive filePath := value]> m.

Definition delete (filePath : string) (m : gmap string T) : gmap string T :=
  base.delete (createGetCanonicalFileName caseSensitive filePath) m.

(** [forEach] with a callback that updates a state [S].  The callbacks
    of this file remove at most the entry they are visiting, so
    visiting the entries present at the start is what the loop does. *)
Definition forEach {S : Type} (callbackfn : T → string → S → S)
    (m : gmap string T) (st : S) : S :=
  foldl (λ st kv, callbackfn kv.2 kv.1 st) st (map_to_list m).
End FileMap.
End FileMap.

(** Modelled from the spec: [FileSet] of [../../lib/documents/fileCollection]
    is not part of the sources at hand.  It is a [Set] of file paths,
    case-normalized per the host policy on the way in. *)
Module FileSet.
Section FileSet.
Context (caseSensitive : bool).

Definition add (filePath : string) (s : gset string) : gset string :=
  {[ createGetCanonicalFileName caseSensitive filePath ]} ∪ s.

Definition has (filePath : string) (s : gset string) : bool :=
  bool_decide (createGetCanonicalFileName caseSensitive filePath ∈ s).

Definition clear (s : gset string) : gset string := ∅.
End FileSet.
End FileSet.

(** ** Resolved modules *)

(** [ts.ResolvedModuleFull], with the fields the loader reads or writes. *)
Record ResolvedModule := {
  resolvedFileName : string;
  extension : string;
  isExternalLibraryImport : option bool
}.

Global Instance ResolvedModule_eq_dec : EqDecision ResolvedModule.
Proof. solve_decision. Defined.

(** ** [class ModuleResolutionCache] *)

Definition CACHE_KEY_SEPARATOR : string := ":::".

Record ModuleResolutionCache := {
  cache : gmap string (option ResolvedModule);
  pendingInvalidations : gset string
}.

Module Cache.
Section Cache.
Context `{PathUtils}.

Definition getCanonicalFileName : string → string :=
  createGetCanonicalFileName useCaseSensitiveFileNames.

Definition new : ModuleResolutionCache :=
  {| cache := ∅; pendingInvalidations := ∅ |}.

Definition getKey (moduleName containingFile : string) : string :=
  containingFile +:+ CACHE_KEY_SEPARATOR +:+ ensureRealSvelteFilePath moduleName.

(** [get]: [undefined] (here [None]) both for a missing key and for a
    key cached as unresolved. *)
Definition get (moduleName containingFile : string)
    (c : ModuleResolutionCache) : option ResolvedModule :=
  default None
    (FileMap.get useCaseSensitiveFileNames (getKey moduleName containingFile) (cache c)).

Definition has (moduleName containingFile : string)
    (c : ModuleResolutionCache) : bool :=
  FileMap.has useCaseSensitiveFileNames (getKey moduleName containingFile) (cache c).

Definition set (moduleName containingFile : string)
    (resolvedModule : option ResolvedModule) (c : ModuleResolutionCache)
  : ModuleResolutionCache :=
  {| cache := FileMap.set useCaseSensitiveFileNames
                (getKey moduleName containingFile) resolvedModule (cache c);
     pendingInvalidations := pendingInvalidations c |}.

(** The callback of the loop in [delete]. *)
Definition delete_visit (resolvedModuleName : string)
    (val : option ResolvedModule) (key : string)
    (c : ModuleResolutionCache) : ModuleResolutionCache :=
  match val with
  | Some m =>
      if decide (getCanonicalFileName (resolvedFileName m) = resolvedModuleName)
      then {| cache := FileMap.delete useCaseSensitiveFileNames key (cache c);
              pendingInvalidations :=
                FileSet.add useCaseSensitiveFileNames
                  (shiftOrEmpty (split CACHE_KEY_SEPARATOR key))
                  (pendingInvalidations c) |}
      else c
  | None => c
  end.

Definition delete (resolvedModuleName : string) (c : ModuleResolutionCache)
  : ModuleResolutionCache :=
  let resolvedModuleName := getCanonicalFileName resolvedModuleName in
  FileMap.forEach (delete_visit resolvedModuleName) (cache c) c.

(** [getLastPartOfPath(canonical path).split('.').shift() || ''] *)
Definition fileNameWithoutEnding (path : string) : string :=
  shiftOrEmpty (split "." (getLastPartOfPath (getCanonicalFileName path))).

(** [const [containingFile, moduleName = ''] = key.split(SEPARATOR)] *)
Definition keyContainingFile (key : string) : string :=
  default "" (split CACHE_KEY_SEPARATOR key !! 0%nat).
Definition keyModuleName (key : string) : string :=
  default "" (split CACHE_KEY_SEPARATOR key !! 1%nat).

Definition deleteUnresolved_visit (stem : string)
    (val : option ResolvedModule) (key : string)
    (c : ModuleResolutionCache) : ModuleResolutionCache :=
  match val with
  | Some _ => c
  | None =>
      if includes stem (keyModuleName key)
      then {| cache := FileMap.delete useCaseSensitiveFileNames key (cache c);
              pendingInvalidations :=
                FileSet.add useCaseSensitiveFileNames (keyContainingFile key)
                  (pendingInvalidations c) |}
      else c
  end.

Definition deleteUnresolvedResolutionsFromCache (path : string)
    (c : ModuleResolutionCache) : ModuleResolutionCache :=
  FileMap.forEach (deleteUnresolved_visit (fileNameWithoutEnding path)) (cache c) c.

(** Both loops have one shape: an entry that satisfies a test on its key
    and value is removed, and a path read from its key is added to the
    pending invalidations. *)
Definition removeWhen (test : string → option ResolvedModule → bool)
    (pathOf : string → string)
    (val : option ResolvedModule) (key : string)
    (c : ModuleResolutionCache) : ModuleResolutionCache :=
  if test key val
  then {| cache := FileMap.delete useCaseSensitiveFileNames key (cache c);
          pendingInvalidations :=
            FileSet.add useCaseSensitiveFileNames (pathOf key)
              (pendingInvalidations c) |}
  else c.

(** The test of [delete]: a defined record resolved to the given path. *)
Definition resolvesTo (resolvedModuleName : string) (key : string)
    (val : option ResolvedModule) : bool :=
  match val with
  | Some m => bool_decide (getCanonicalFileName (resolvedFileName m) = resolvedModuleName)
  | None => false
  end.

(** The test of [deleteUnresolvedResolutionsFromCache]: an unresolved entry
    whose specifier contains the stem. *)
Definition unresolvedMatching (stem : string) (key : string)
    (val : option ResolvedModule) : bool :=
  match val with
  | Some _ => false
  | None => includes stem (keyModuleName key)
  end.

Definition clearPendingInvalidations (c : ModuleResolutionCache)
  : ModuleResolutionCache :=
  {| cache := cache c;
     pendingInvalidations :=
       FileSet.clear (pendingInvalidations c) |}.

Definition oneOfResolvedModuleChanged (path : string)
    (c : ModuleResolutionCache) : bool :=
  FileSet.has useCaseSensitiveFileNames path (pendingInvalidations c).
End Cache.
End Cache.

(** ** The module loader, [createSvelteModuleLoader] *)

(** Identity of a resolution object: one handed out by the host's resolution
    algorithm (which reuses its result objects across calls), or one built
    by the loader with an object spread. *)
Inductive ObjId :=
| HostObject (n : nat)
| SpreadObject (n : nat).

Global Instance ObjId_eq_dec : EqDecision ObjId.
Proof. solve_decision. Defined.

Global Instance ObjId_countable : Countable ObjId.
Proof.
  refine (inj_countable'
    (λ o, match o with HostObject n => inl n | SpreadObject n => inr n end)
    (λ s, match s with inl n => HostObject n | inr n => SpreadObject n end) _).
  by intros [].
Defined.

(** [ts.ResolvedModuleWithFailedLookupLocations & { files?: Set<string> }].
    [files] refers to a [Set] object of the store; a set is named after the
    object whose [files ??= new Set()] created it. *)
Record Resolution := {
  resolvedModule : option ResolvedModule;
  failedLookupLocations : option (list string);
  files : option ObjId
}.

(** What one call of [tsModule.resolveModuleName] returns: which object,
    and the two fields the loader reads from it.  The host is taken not to
    change an object it has handed out. *)
Record HostResolution := {
  hostObject : nat;
  hostResolvedModule : option ResolvedModule;
  hostFailedLookupLocations : option (list string)
}.

(** The collaborators a resolution batch consults.  They depend on the file
    system, on the file-existence cache of [svelteSys] and on compiler
    state (the resolution cache [tsModuleCache] among it), so each batch
    gets its own. *)
Record Env := {
  (** [tsModule.resolveModuleName(name, containingFile, ..., mode)], the
      mode being determined by the import's index in the containing file *)
  tsResolveModuleName : string → string → nat → HostResolution;
  (** [svelteSys.getRealSveltePathIfExists] *)
  getRealSveltePathIfExists : string → string;
  (** [getExtensionFromScriptKind(getSnapshot(fileName).scriptKind)] *)
  snapshotExtension : string → string
}.

Record State := {
  moduleCache : ModuleResolutionCache;
  (** the objects of [resolutionWithFailedLookup], in insertion order *)
  resolutionWithFailedLookup : list ObjId;
  (** fields of the objects that have been tracked *)
  objects : gmap ObjId Resolution;
  (** the [Set<string>] objects behind the [files] fields *)
  fileSets : gmap ObjId (gset string);
  failedLocationInvalidated : gset string;
  pendingFailedLocationCheck : gset string;
  (** number of objects the loader has built so far *)
  nextObject : nat
}.

Module Loader.
Section Loader.
Context `{PathUtils}.

Definition init : State :=
  {| moduleCache := Cache.new;
     resolutionWithFailedLookup := [];
     objects := ∅;
     fileSets := ∅;
     failedLocationInvalidated := ∅;
     pendingFailedLocationCheck := ∅;
     nextObject := 0 |}.

Definition withModuleCache (c : ModuleResolutionCache) (st : State) : State :=
  {| moduleCache := c;
     resolutionWithFailedLookup := resolutionWithFailedLookup st;
     objects := objects st;
     fileSets := fileSets st;
     failedLocationInvalidated := failedLocationInvalidated st;
     pendingFailedLocationCheck := pendingFailedLocationCheck st;
     nextObject := nextObject st |}.

(** The [files] field a host object carries when it is returned. *)
Definition filesOf (o : ObjId) (st : State) : option ObjId :=
  objects st !! o ≫= files.

(** [resolveModuleName]: the object returned, its fields, and the number of
    objects built by the loader afterwards. *)
Definition resolveModuleName (E : Env) (name containingFile : string)
    (index : nat) (st : State) : ObjId * Resolution * nat :=
  let h := tsResolveModuleName E name containingFile index in
  let o := HostObject (hostObject h) in
  let resolvedModuleWithFailedLookup :=
    {| resolvedModule := hostResolvedModule h;
       failedLookupLocations := hostFailedLookupLocations h;
       files := filesOf o st |} in
  match hostResolvedModule h with
  | None => (o, resolvedModuleWithFailedLookup, nextObject st)
  | Some m =>
      if negb (isVirtualSvelteFilePath (resolvedFileName m))
      then (o, resolvedModuleWithFailedLookup, nextObject st)
      else
        let resolvedFileName' := getRealSveltePathIfExists E (resolvedFileName m) in
        if negb (isSvelteFilePath resolvedFileName')
        then (o, resolvedModuleWithFailedLookup, nextObject st)
        else
          let resolvedSvelteModule :=
            {| extension := snapshotExtension E resolvedFileName';
               resolvedFileName := resolvedFileName';
               isExternalLibraryImport := isExternalLibraryImport m |} in
          (SpreadObject (nextObject st),
           {| resolvedModule := Some resolvedSvelteModule;
              failedLookupLocations := hostFailedLookupLocations h;
              files := filesOf o st |},
           S (nextObject st))
  end.

(** [set.add(x)] on the insertion-ordered set of tracked objects *)
Definition trackedAdd (o : ObjId) (l : list ObjId) : list ObjId :=
  if decide (o ∈ l) then l else l ++ [o].

Definition cacheResolutionWithFailedLookup (o : ObjId) (r : Resolution)
    (containingFile : string) (st : State) : State :=
  match failedLookupLocations r with
  | None | Some [] => st
  | Some (_ :: _) =>
      (* resolvedModule.files ??= new Set() *)
      let sid := default o (files r) in
      let sets := match files r with
                  | Some _ => fileSets st
                  | None => <[o := ∅]> (fileSets st)
                  end in
      {| moduleCache := moduleCache st;
         resolutionWithFailedLookup := trackedAdd o (resolutionWithFailedLookup st);
         objects :=
           <[o := {| resolvedModule := resolvedModule r;
                     failedLookupLocations := failedLookupLocations r;
                     files := Some sid |}]> (objects st);
         fileSets := <[sid := {[containingFile]} ∪ default ∅ (sets !! sid)]> sets;
         failedLocationInvalidated := failedLocationInvalidated st;
         pendingFailedLocationCheck := pendingFailedLocationCheck st;
         nextObject := nextObject st |}
  end.

(** The callback of [moduleNames.map] in [resolveModuleNames]. *)
Definition resolveOne (E : Env) (containingFile moduleName : string)
    (index : nat) (st : State) : option ResolvedModule * State :=
  if Cache.has moduleName containingFile (moduleCache st)
  then (Cache.get moduleName containingFile (moduleCache st), st)
  else
    let '(o, r, next) := resolveModuleName E moduleName containingFile index st in
    let st1 :=
      {| moduleCache := moduleCache st;
         resolutionWithFailedLookup := resolutionWithFailedLookup st;
         objects := objects st;
         fileSets := fileSets st;
         failedLocationInvalidated := failedLocationInvalidated st;
         pendingFailedLocationCheck := pendingFailedLocationCheck st;
         nextObject := next |} in
    let st2 := cacheResolutionWithFailedLookup o r containingFile st1 in
    (resolvedModule r,
     withModuleCache
       (Cache.set moduleName containingFile (resolvedModule r) (moduleCache st2)) st2).

Fixpoint resolveModuleNames_from (E : Env) (index : nat)
    (moduleNames : list string) (containingFile : string) (st : State)
  : list (option ResolvedModule) * State :=
  match moduleNames with
  | [] => ([], st)
  | moduleName :: rest =>
      let '(r, st1) := resolveOne E containingFile moduleName index st in
      let '(rs, st2) := resolveModuleNames_from E (S index) rest containingFile st1 in
      (r :: rs, st2)
  end.

Definition resolveModuleNames (E : Env) (moduleNames : list string)
    (containingFile : string) (st : State)
  : list (option ResolvedModule) * State :=
  resolveModuleNames_from E 0 moduleNames containingFile st.

(** The hook [deleteFromModuleCache] (lines 180-183), on the state of the
    loader.  Its first statement, [svelteSys.deleteFromCache(path)], drops
    what [svelteSys] remembers about the existence of [path].  That memory
    belongs to [svelteSys], not to the loader: here it is read only through
    the oracles of an [Env], which every batch brings along anew, so the
    statement changes no component of [State] and the hook's equations of
    state below are equations of these components. *)
Definition deleteFromModuleCache (path : string) (st : State) : State :=
  withModuleCache (Cache.delete path (moduleCache st)) st.

(** The hook [deleteUnresolvedResolutionsFromCache] (lines 184-191), on the
    state of the loader.  [svelteSys.deleteFromCache(path)] is as above;
    [tsModuleCache.clear()] empties the resolution cache of the compiler,
    which lies behind [tsResolveModuleName]; [typeReferenceCache.clear()] is
    part of [TypeReferences.deleteUnresolvedResolutionsFromCache]. *)
Definition deleteUnresolvedResolutionsFromCache (path : string) (st : State)
  : State :=
  {| moduleCache := Cache.deleteUnresolvedResolutionsFromCache path (moduleCache st);
     resolutionWithFailedLookup := resolutionWithFailedLookup st;
     objects := objects st;
     fileSets := fileSets st;
     failedLocationInvalidated := failedLocationInvalidated st;
     pendingFailedLocationCheck :=
       FileSet.add tsSystemCaseSensitive path (pendingFailedLocationCheck st);
     nextObject := nextObject st |}.

Definition mightHaveInvalidatedResolutions (path : string) (st : State) : bool :=
  Cache.oneOfResolvedModuleChanged path (moduleCache st)
  || FileSet.has tsSystemCaseSensitive path (failedLocationInvalidated st).

Definition clearPendingInvalidations (st : State) : State :=
  {| moduleCache := Cache.clearPendingInvalidations (moduleCache st);
     resolutionWithFailedLookup := resolutionWithFailedLookup st;
     objects := objects st;
     fileSets := fileSets st;
     failedLocationInvalidated := FileSet.clear (failedLocationInvalidated st);
     pendingFailedLocationCheck := FileSet.clear (pendingFailedLocationCheck st);
     nextObject := nextObject st |}.

(** Whether the [for ... of] loop over the failed lookup locations reaches
    its [break]. *)
Definition someLocationPending (locations : list string) (st : State) : bool :=
  existsb (λ location,
    FileSet.has tsSystemCaseSensitive location (pendingFailedLocationCheck st))
    locations.

(** The callback of the sweep in [invalidateFailedLocationResolution],
    applied to the tracked object [o]. *)
Definition invalidate_visit (st : State) (o : ObjId) : State :=
  match objects st !! o with
  | Some {| resolvedModule := Some m;
            files := Some sid;
            failedLookupLocations := Some locations |} =>
      if someLocationPending locations st
      then
        {| moduleCache := Cache.delete (resolvedFileName m) (moduleCache st);
           resolutionWithFailedLookup := resolutionWithFailedLookup st;
           objects := objects st;
           fileSets := fileSets st;
           failedLocationInvalidated :=
             foldr (FileSet.add tsSystemCaseSensitive)
               (failedLocationInvalidated st)
               (elements (default ∅ (fileSets st !! sid)));
           pendingFailedLocationCheck := pendingFailedLocationCheck st;
           nextObject := nextObject st |}
      else st
  | _ => st
  end.

Definition invalidateFailedLocationResolution (st : State) : State :=
  let st' := foldl invalidate_visit st (resolutionWithFailedLookup st) in
  {| moduleCache := moduleCache st';
     resolutionWithFailedLookup := resolutionWithFailedLookup st';
     objects := objects st';
     fileSets := fileSets st';
     failedLocationInvalidated := failedLocationInvalidated st';
     pendingFailedLocationCheck := FileSet.clear (pendingFailedLocationCheck st');
     nextObject := nextObject st' |}.

End Loader.
End Loader.

(** ** Calls of the loader's public surface *)

Inductive Call :=
| ResolveModuleNames (E : Env) (moduleNames : list string) (containingFile : string)
| DeleteFromModuleCache (path : string)
| DeleteUnresolvedResolutionsFromCache (path : string)
| ClearPendingInvalidations
| InvalidateFailedLocationResolution.

Section Runs.
Context `{PathUtils}.

Definition step (st : State) (c : Call) : State :=
  match c with
  | ResolveModuleNames E moduleNames containingFile =>
      (Loader.resolveModuleNames E moduleNames containingFile st).2
  | DeleteFromModuleCache path => Loader.deleteFromModuleCache path st
  | DeleteUnresolvedResolutionsFromCache path =>
      Loader.deleteUnresolvedResolutionsFromCache path st
  | ClearPendingInvalidations => Loader.clearPendingInvalidations st
  | InvalidateFailedLocationResolution =>
      Loader.invalidateFailedLocationResolution st
  end.

Definition run (calls : list Call) (st : State) : State := foldl step st calls.

(** The states a loader can be in: those reached from a fresh loader by
    calls of its public surface. *)
Definition reachable (st : State) : Prop := ∃ calls, st = run calls Loader.init.

Definition isClear (c : Call) : bool :=
  match c with ClearPendingInvalidations => true | _ => false end.

(** The key under which the cache stores a pair: [getKey], normalized by
    the [FileMap]. *)
Definition storedKey (moduleName containingFile : string) : string :=
  Cache.getCanonicalFileName (Cache.getKey moduleName containingFile).

(** The stored keys a call may create. *)
Definition queriedKeys (c : Call) : gset string :=
  match c with
  | ResolveModuleNames _ moduleNames containingFile =>
      list_to_set ((λ moduleName, storedKey moduleName containingFile) <$> moduleNames)
  | _ => ∅
  end.

Definition allQueriedKeys (calls : list Call) : gset string :=
  ⋃ (queriedKeys <$> calls).

(** Every key of the map is in normal form, as it is for a map filled
    through [FileMap.set]. *)
Definition keysCanonical (c : ModuleResolutionCache) : Prop :=
  ∀ k, is_Some (cache c !! k) → Cache.getCanonicalFileName k = k.

(** The containing files recorded for a tracked object. *)
Definition owningFiles (o : ObjId) (st : State) : gset string :=
  match objects st !! o with
  | Some {| files := Some sid |} => default ∅ (fileSets st !! sid)
  | _ => ∅
  end.

(** Every tracked object is in the store with a [files] set and a
    non-empty list of failed lookup locations. *)
Definition trackedComplete (st : State) : Prop :=
  ∀ o, o ∈ resolutionWithFailedLookup st →
    ∃ r sid l ls, objects st !! o = Some r ∧ files r = Some sid
               ∧ failedLookupLocations r = Some (l :: ls).

(** The state in which the [i]-th specifier of a batch is looked at: the
    one left by the specifiers before it. *)
Definition stateBefore (E : Env) (moduleNames : list string)
    (containingFile : string) (st : State) (i : nat) : State :=
  (Loader.resolveModuleNames E (take i moduleNames) containingFile st).2.

(** The record [resolveModuleName] builds for a virtual path whose real
    Svelte file exists. *)
Definition resolvedSvelteModule (E : Env) (m : ResolvedModule) : ResolvedModule :=
  {| resolvedFileName := getRealSveltePathIfExists E (resolvedFileName m);
     extension := snapshotExtension E (getRealSveltePathIfExists E (resolvedFileName m));
     isExternalLibraryImport := isExternalLibraryImport m |}.

(** The outcome of a fresh resolution, read off the host's answer: the
    host's record, or its remapped copy when the record names a virtual
    path whose real Svelte file exists. *)
Definition freshOutcome (E : Env) (moduleName containingFile : string)
    (index : nat) : option ResolvedModule :=
  match hostResolvedModule (tsResolveModuleName E moduleName containingFile index) with
  | None => None
  | Some m =>
      if isVirtualSvelteFilePath (resolvedFileName m)
         && isSvelteFilePath (getRealSveltePathIfExists E (resolvedFileName m))
      then Some (resolvedSvelteModule E m)
      else Some m
  end.

(** [c'] is [c] with some entries removed and some pending
    invalidations added. *)
Definition shrinks (c c' : ModuleResolutionCache) : Prop :=
  (∀ k v, cache c' !! k = Some v → cache c !! k = Some v)
  ∧ pendingInvalidations c ⊆ pendingInvalidations c'.

(** The loader's invariant. *)
Definition wellFormed (st : State) : Prop :=
  keysCanonical (moduleCache st) ∧ trackedComplete st.

(** The sweep leaves the tracked objects, their stores and the pending
    failed-location set alone, only removes cache entries and only adds
    invalidations. *)
Record sweepFrame (st st' : State) : Prop := {
  sweep_tracked : resolutionWithFailedLookup st' = resolutionWithFailedLookup st;
  sweep_objects : objects st' = objects st;
  sweep_fileSets : fileSets st' = fileSets st;
  sweep_pending : pendingFailedLocationCheck st' = pendingFailedLocationCheck st;
  sweep_cache : shrinks (moduleCache st) (moduleCache st');
  sweep_invalidated : failedLocationInvalidated st ⊆ failedLocationInvalidated st'
}.

End Runs.

(** A path that can be read back from a key: the first separator of
    [path ++ separator ++ rest] is the one that was appended. *)
Definition separatorFree (path : string) : bool :=
  negb (includes CACHE_KEY_SEPARATOR (path +:+ "::")).

(** ** The Svelte instance of the imported helpers *)

Module Svelte.

(** [getLastPartOfPath] of [utils.ts] (lines 126-128 of
    [.github/workflows/CI.yml], where the text of [utils.ts] is found):
    [path.replace(/\\/g, '/').split('/').pop() || ''] *)
Definition getLastPartOfPath (path : string) : string :=
  popOrEmpty (split "/" (backslashesToSlashes path)).

(** Modelled from the spec: [isVirtualSvelteFilePath] of [./utils] is not
    part of the sources at hand; a virtual path is a Svelte file address
    disguised with a native extension. *)
Definition isVirtualSvelteFilePath (filePath : string) : bool :=
  endsWith ".d.svelte.ts" filePath.

(** Modelled from the spec: [isSvelteFilePath] of [./utils] is not part of
    the sources at hand; it recognizes the non-native extension. *)
Definition isSvelteFilePath (filePath : string) : bool :=
  endsWith ".svelte" filePath.

(** Modelled from the spec: [toRealSvelteFilePath] of [./utils] is not part
    of the sources at hand; it substitutes the non-native extension for
    the native-looking one. *)
Definition toRealSvelteFilePath (filePath : string) : string :=
  dropLast 11 filePath +:+ "svelte".

(** Modelled from the spec: [ensureRealSvelteFilePath] of [./utils] is not
    part of the sources at hand; it applies the virtual-extension
    normalization and leaves every other path unchanged. *)
Definition ensureRealSvelteFilePath (filePath : string) : string :=
  if isVirtualSvelteFilePath filePath then toRealSvelteFilePath filePath
  else filePath.

(** A host with case-sensitive file names. *)
Definition caseSensitive : PathUtils :=
  Build_PathUtils true getLastPartOfPath ensureRealSvelteFilePath
    isSvelteFilePath isVirtualSvelteFilePath true.

(** A host with case-insensitive file names. *)
Definition caseInsensitive : PathUtils :=
  Build_PathUtils false getLastPartOfPath ensureRealSvelteFilePath
    isSvelteFilePath isVirtualSvelteFilePath false.

End Svelte.

(** ** Scenarios *)

(** Hosts and file systems used to run the loader on concrete inputs, on a
    case-sensitive system. *)
Module Scenario.

Definition moduleAt (fileName : string) : ResolvedModule :=
  {| resolvedFileName := fileName;
     extension := ".ts";
     isExternalLibraryImport := None |}.

(** A host that finds every package under [node_modules], after probing a
    sibling file of the project root in vain. *)
Definition packageHost : Env :=
  {| tsResolveModuleName := λ name containingFile index,
       {| hostObject := index;
          hostResolvedModule :=
            Some (moduleAt ("/proj/node_modules/" +:+ name +:+ "/index.d.ts"));
          hostFailedLookupLocations := Some ["/proj/" +:+ name +:+ ".ts"] |};
     getRealSveltePathIfExists := id;
     snapshotExtension := λ _, ".ts" |}.

(** A host that finds nothing, after probing a file and a directory index. *)
Definition unresolvedHost : Env :=
  {| tsResolveModuleName := λ name containingFile index,
       {| hostObject := index;
          hostResolvedModule := None;
          hostFailedLookupLocations :=
            Some ["/proj/Widget.ts"; "/proj/Widget/index.ts"] |};
     getRealSveltePathIfExists := id;
     snapshotExtension := λ _, ".ts" |}.

(** A host that resolves to the virtual companion of [/proj/Foo.svelte];
    [realExists] tells whether the Svelte file is on disk. *)
Definition virtualHost (realExists : bool) : Env :=
  {| tsResolveModuleName := λ name containingFile index,
       {| hostObject := index;
          hostResolvedModule := Some (moduleAt "/proj/Foo.d.svelte.ts");
          hostFailedLookupLocations := None |};
     getRealSveltePathIfExists :=
       if realExists then Svelte.toRealSvelteFilePath else id;
     snapshotExtension := λ _, ".js" |}.

(** A host that resolves every import to the virtual companion of
    [/proj/Foo.svelte], which is on disk, after probing
    [/proj/Foo.svelte.ts] in vain; it hands out one result object. *)
Definition svelteHost : Env :=
  {| tsResolveModuleName := λ name containingFile index,
       {| hostObject := 0;
          hostResolvedModule := Some (moduleAt "/proj/Foo.d.svelte.ts");
          hostFailedLookupLocations := Some ["/proj/Foo.svelte.ts"] |};
     getRealSveltePathIfExists := Svelte.toRealSvelteFilePath;
     snapshotExtension := λ _, ".js" |}.

End Scenario.

(** ** Resolution modes and type-reference directives *)

(** [ts.ResolutionMode] without [undefined]: [ts.ModuleKind.CommonJS] and
    [ts.ModuleKind.ESNext]. *)
Inductive ResolutionMode :=
| CommonJS
| ESNext.

Global Instance ResolutionMode_eq_dec : EqDecision ResolutionMode.
Proof. solve_decision. Defined.

(** [ts.SourceFile], with the field the loader reads. *)
Record SourceFile := {
  impliedNodeFormat : option ResolutionMode
}.

(** [ts.FileReference], with the fields a resolution could depend on. *)
Record FileReference := {
  fileName : string;
  resolutionMode : option ResolutionMode
}.

(** [T extends ts.FileReference | string] *)
Inductive TypeDirective :=
| DirectiveName (name : string)
| DirectiveReference (reference : FileReference).

Definition getTypeReferenceResolutionName (entry : TypeDirective) : string :=
  match entry with
  | DirectiveReference reference => toFileNameLowerCase (fileName reference)
  | DirectiveName name => name
  end.

(** [class ImpliedNodeFormatResolver]; the two functions of the TypeScript
    API it calls are arguments. *)
Module ImpliedNodeFormatResolver.
Section ImpliedNodeFormatResolver.
Context `{PathUtils} {CompilerOptions : Type}.
Context (getModeForResolutionAtIndex :
           SourceFile → nat → CompilerOptions → option ResolutionMode).
Context (getModeForFileReference :
           string → option ResolutionMode → option ResolutionMode).

Definition resolve (importPath : string) (importIdxInFile : nat)
    (sourceFile : option SourceFile) (compilerOptions : CompilerOptions)
  : option ResolutionMode :=
  if isSvelteFilePath importPath
  then None
  else
    match sourceFile with
    | Some sf => getModeForResolutionAtIndex sf importIdxInFile compilerOptions
    | None => None
    end.

Definition resolveForTypeReference (entry : string)
    (sourceFile : option SourceFile) : option ResolutionMode :=
  match sourceFile with
  | Some sf => getModeForFileReference entry (impliedNodeFormat sf)
  | None => None
  end.

End ImpliedNodeFormatResolver.
End ImpliedNodeFormatResolver.

(** The arguments of [resolveModuleNames] and the collaborators that stay
    the same for every specifier of a batch. *)
Record ModuleHost {CompilerOptions : Type} := {
  (** [tsModule.resolveModuleName(name, containingFile, ..., mode)] *)
  hostResolveWithMode : string → string → option ResolutionMode → HostResolution;
  (** [ts.getModeForResolutionAtIndex] *)
  modeForResolutionAtIndex :
    SourceFile → nat → CompilerOptions → option ResolutionMode;
  hostRealSveltePathIfExists : string → string;
  hostSnapshotExtension : string → string;
  (** [options] *)
  batchOptions : CompilerOptions;
  (** [redirectedReference?.commandLine.options] *)
  redirectedOptions : option CompilerOptions;
  containingSourceFile : option SourceFile
}.
Arguments ModuleHost : clear implicits.

(** The host call of [resolveModuleName], with the mode worked out by
    [impliedNodeFormatResolver.resolve] from the import's index. *)
Definition moduleEnv `{PathUtils} {CompilerOptions : Type}
    (h : ModuleHost CompilerOptions) : Env :=
  {| tsResolveModuleName := λ name containingFile index,
       hostResolveWithMode h name containingFile
         (ImpliedNodeFormatResolver.resolve (modeForResolutionAtIndex h)
            name index (containingSourceFile h)
            (default (batchOptions h) (redirectedOptions h)));
     getRealSveltePathIfExists := hostRealSveltePathIfExists h;
     snapshotExtension := hostSnapshotExtension h |}.

(** [ts.ResolvedTypeReferenceDirectiveWithFailedLookupLocations] *)
Record TypeReferenceResolution := {
  resolvedTypeReferenceDirective : option string;
  typeFailedLookupLocations : list string
}.

(** What a batch of type-reference directives consults. *)
Record TypeEnv := {
  (** [ts.resolveTypeReferenceDirective(entry, containingFile, ..., mode)] *)
  tsResolveTypeReferenceDirective :
    string → string → option ResolutionMode → TypeReferenceResolution;
  (** [ts.getModeForFileReference] *)
  tsGetModeForFileReference :
    string → option ResolutionMode → option ResolutionMode
}.

(** [`${mode}`]: the number of the module kind, or [undefined]. *)
Definition modeText (mode : option ResolutionMode) : string :=
  match mode with
  | Some CommonJS => "1"
  | Some ESNext => "99"
  | None => "undefined"
  end.

(** [`${entry}|${mode}`] *)
Definition typeReferenceKey (entry : string) (mode : option ResolutionMode)
  : string :=
  entry +:+ "|" +:+ modeText mode.

(** The loader with its type-reference cache, a plain [Map]. *)
Record ModuleLoader := {
  loaderState : State;
  typeReferenceCache : gmap string TypeReferenceResolution
}.

Module TypeReferences.
Section TypeReferences.
Context `{PathUtils}.

(** The key under which a directive is cached. *)
Definition keyOf (TE : TypeEnv) (sourceFile : option SourceFile)
    (typeDirectiveName : TypeDirective) : string :=
  typeReferenceKey (getTypeReferenceResolutionName typeDirectiveName)
    (ImpliedNodeFormatResolver.resolveForTypeReference
       (tsGetModeForFileReference TE)
       (getTypeReferenceResolutionName typeDirectiveName) sourceFile).

(** The callback of [typeDirectiveNames.map]. *)
Definition resolveOne (TE : TypeEnv) (containingFile : string)
    (sourceFile : option SourceFile) (typeDirectiveName : TypeDirective)
    (c : gmap string TypeReferenceResolution)
  : TypeReferenceResolution * gmap string TypeReferenceResolution :=
  let entry := getTypeReferenceResolutionName typeDirectiveName in
  let mode :=
    ImpliedNodeFormatResolver.resolveForTypeReference
      (tsGetModeForFileReference TE) entry sourceFile in
  let key := typeReferenceKey entry mode in
  match c !! key with
  | Some result => (result, c)
  | None =>
      let result := tsResolveTypeReferenceDirective TE entry containingFile mode in
      (result, <[key := result]> c)
  end.

Fixpoint resolveAll (TE : TypeEnv) (typeDirectiveNames : list TypeDirective)
    (containingFile : string) (sourceFile : option SourceFile)
    (c : gmap string TypeReferenceResolution)
  : list TypeReferenceResolution * gmap string TypeReferenceResolution :=
  match typeDirectiveNames with
  | [] => ([], c)
  | typeDirectiveName :: rest =>
      let '(r, c1) := resolveOne TE containingFile sourceFile typeDirectiveName c in
      let '(rs, c2) := resolveAll TE rest containingFile sourceFile c1 in
      (r :: rs, c2)
  end.

Definition resolveTypeReferenceDirectiveReferences (TE : TypeEnv)
    (typeDirectiveNames : list TypeDirective) (containingFile : string)
    (sourceFile : option SourceFile) (ml : ModuleLoader)
  : list TypeReferenceResolution * ModuleLoader :=
  let '(rs, c) :=
    resolveAll TE typeDirectiveNames containingFile sourceFile
      (typeReferenceCache ml) in
  (rs, {| loaderState := loaderState ml; typeReferenceCache := c |}).

(** The hooks of the returned object, on the loader as a whole. *)
Definition deleteFromModuleCache (path : string) (ml : ModuleLoader)
  : ModuleLoader :=
  {| loaderState := Loader.deleteFromModuleCache path (loaderState ml);
     typeReferenceCache := typeReferenceCache ml |}.

Definition deleteUnresolvedResolutionsFromCache (path : string)
    (ml : ModuleLoader) : ModuleLoader :=
  {| loaderState := Loader.deleteUnresolvedResolutionsFromCache path (loaderState ml);
     typeReferenceCache := ∅ |}.

Definition clearPendingInvalidations (ml : ModuleLoader) : ModuleLoader :=
  {| loaderState := Loader.clearPendingInvalidations (loaderState ml);
     typeReferenceCache := typeReferenceCache ml |}.

Definition invalidateFailedLocationResolution (ml : ModuleLoader)
  : ModuleLoader :=
  {| loaderState := Loader.invalidateFailedLocationResolution (loaderState ml);
     typeReferenceCache := typeReferenceCache ml |}.

End TypeReferences.
End TypeReferences.

(** ** Sharing of [files] sets *)

Section Sharing.
Context `{PathUtils}.

(** Every [files] field refers to the set of an object that owns its own
    set, and every object built by the loader is numbered below the
    counter. *)
Definition setsOwned (st : State) : Prop :=
  (∀ o r sid, objects st !! o = Some r → files r = Some sid →
     ∃ r', objects st !! sid = Some r' ∧ files r' = Some sid)
  ∧ (∀ n r, objects st !! SpreadObject n = Some r → n < nextObject st).

(** Every specifier of the batch is cached. *)
Definition allCached (moduleNames : list string) (containingFile : string)
    (st : State) : Prop :=
  ∀ moduleName, moduleName ∈ moduleNames →
    Cache.has moduleName containingFile (moduleCache st) = true.

End Sharing.

(** Hosts for batches with resolution modes and for type-reference
    directives, on a case-sensitive system. *)
Module ModeScenario.

(** A host whose answer depends on the mode it is asked with: ES modules
    resolve to the [esm] build of a package. *)
Definition modeHost (sourceFile : option SourceFile) : ModuleHost unit :=
  {| hostResolveWithMode := λ name containingFile mode,
       {| hostObject := 0;
          hostResolvedModule :=
            Some (Scenario.moduleAt
                    (match mode with
                     | Some ESNext => "/proj/esm/" +:+ name
                     | _ => "/proj/cjs/" +:+ name
                     end));
          hostFailedLookupLocations := None |};
     modeForResolutionAtIndex := λ sf index options, impliedNodeFormat sf;
     hostRealSveltePathIfExists := id;
     hostSnapshotExtension := λ _, ".ts";
     batchOptions := tt;
     redirectedOptions := None;
     containingSourceFile := sourceFile |}.

(** A host that finds every type package under [root]; the mode of a
    reference given by name is the format of the containing file. *)
Definition typesHost (root : string) : TypeEnv :=
  {| tsResolveTypeReferenceDirective := λ entry containingFile mode,
       {| resolvedTypeReferenceDirective :=
            Some (root +:+ "/node_modules/@types/" +:+ entry +:+ "/index.d.ts");
          typeFailedLookupLocations := [] |};
     tsGetModeForFileReference := λ entry format, format |}.

Definition emptyLoader `{PathUtils} : ModuleLoader :=
  {| loaderState := Loader.init; typeReferenceCache := ∅ |}.

End ModeScenario.

(** * Properties *)

Abbreviation canon := Cache.getCanonicalFileName.
Abbreviation canonTs := (createGetCanonicalFileName tsSystemCaseSensitive).

(** ** Strings *)

Section StringFacts.

Lemma append_cons (c : ascii) (s t : string) :
  String c s +:+ t = String c (s +:+ t).
Proof. reflexivity. Qed.

Lemma append_empty_r (s : string) : s +:+ "" = s.
Proof. induction s as [|c s IH]; [done|]. by rewrite append_cons, IH. Qed.

Lemma rev_app_append (s t u : string) :
  String.rev_app s t +:+ u = String.rev_app s (t +:+ u).
Proof. revert t. induction s as [|c s IH]; intros t; simpl; [done|]. by rewrite IH. Qed.

Lemma includes_empty (s : string) : includes "" s = true.
Proof. by destruct s. Qed.

(** Dropping a matched separator: the scan resumes right after it. *)
Lemma split_go_separator (cur rest : string) :
  split_go CACHE_KEY_SEPARATOR 0 cur (CACHE_KEY_SEPARATOR +:+ rest)
  = String.rev cur :: split_go CACHE_KEY_SEPARATOR 0 "" rest.
Proof. by destruct rest. Qed.

Lemma separatorFree_cons (c : ascii) (path rest : string) :
  separatorFree (String c path) = true →
  startsWith CACHE_KEY_SEPARATOR (String c path +:+ CACHE_KEY_SEPARATOR +:+ rest) = false
  ∧ separatorFree path = true.
Proof.
  unfold separatorFree. rewrite !negb_true_iff, append_cons.
  intros Hinc. simpl in Hinc. apply orb_false_iff in Hinc as [Hst Hrest].
  split; [|exact Hrest].
  destruct path as [|d [|e path]]; rewrite ?append_cons in *; simpl in *;
    repeat case_decide; simplify_eq; done.
Qed.

(** A separator-free first component is read back by [split]. *)
Lemma split_go_separatorFree (path cur rest : string) :
  separatorFree path = true →
  split_go CACHE_KEY_SEPARATOR 0 cur (path +:+ CACHE_KEY_SEPARATOR +:+ rest)
  = (String.rev cur +:+ path) :: split CACHE_KEY_SEPARATOR rest.
Proof.
  revert cur. induction path as [|c path IH]; intros cur Hfree.
  - rewrite append_empty_r. apply split_go_separator.
  - apply (separatorFree_cons _ _ rest) in Hfree as [Hst Hfree].
    rewrite append_cons in *.
    change (split_go CACHE_KEY_SEPARATOR 0 cur
              (String c (path +:+ CACHE_KEY_SEPARATOR +:+ rest)))
      with (if startsWith CACHE_KEY_SEPARATOR
                  (String c (path +:+ CACHE_KEY_SEPARATOR +:+ rest))
            then String.rev cur
                 :: split_go CACHE_KEY_SEPARATOR 2 ""
                      (path +:+ CACHE_KEY_SEPARATOR +:+ rest)
            else split_go CACHE_KEY_SEPARATOR 0 (String c cur)
                   (path +:+ CACHE_KEY_SEPARATOR +:+ rest)).
    rewrite Hst, (IH _ Hfree). f_equal.
    change (String.rev (String c cur)) with (String.rev_app cur (String c "")).
    unfold String.rev. by rewrite !rev_app_append.
Qed.

Lemma split_separatorFree (path rest : string) :
  separatorFree path = true →
  split CACHE_KEY_SEPARATOR (path +:+ CACHE_KEY_SEPARATOR +:+ rest)
  = path :: split CACHE_KEY_SEPARATOR rest.
Proof. intros Hfree. unfold split at 1. by rewrite split_go_separatorFree. Qed.

(** *** Case normalization *)

Lemma lowerChar_colon (c : ascii) : lowerChar c = ":"%char ↔ c = ":"%char.
Proof.
  destruct c as [[] [] [] [] [] [] [] []]; vm_compute; split; congruence.
Qed.

Lemma lowerChar_idemp (c : ascii) : lowerChar (lowerChar c) = lowerChar c.
Proof. by destruct c as [[] [] [] [] [] [] [] []]. Qed.

Lemma mapChars_append (f : ascii → ascii) (s t : string) :
  mapChars f (s +:+ t) = mapChars f s +:+ mapChars f t.
Proof.
  induction s as [|c s IH]; [done|]. rewrite !append_cons. simpl.
  by rewrite append_cons, IH.
Qed.

(** Characters outside the class of [fileNameLowerCaseRegExp] are their
    own lower case. *)
Lemma lowerChar_unmatched (c : ascii) :
  fileNameLowerCaseRegExp c = false → lowerChar c = c.
Proof. by destruct c as [[] [] [] [] [] [] [] []]. Qed.

Lemma toLowerCase_unmatched (s : string) :
  test fileNameLowerCaseRegExp s = false → toLowerCase s = s.
Proof.
  unfold toLowerCase. induction s as [|c s IH]; [done|]. simpl.
  intros [Hc Hs]%orb_false_iff. by rewrite (lowerChar_unmatched _ Hc), (IH Hs).
Qed.

Lemma replace_flush_toLowerCase (run : string) :
  replace_flush toLowerCase run = toLowerCase (String.rev run).
Proof. by destruct run. Qed.

Lemma rev_cons (c : ascii) (run : string) :
  String.rev (String c run) = String.rev run +:+ String c "".
Proof. unfold String.rev. simpl. by rewrite rev_app_append. Qed.

Lemma append_snoc (u v : string) (c : ascii) :
  (u +:+ String c "") +:+ v = u +:+ String c v.
Proof. induction u as [|d u IH]; [done|]. by rewrite !append_cons, IH. Qed.

Lemma replace_go_toLowerCase (run s : string) :
  replace_go fileNameLowerCaseRegExp toLowerCase run s
  = toLowerCase (String.rev run) +:+ toLowerCase s.
Proof.
  revert run. induction s as [|c s IH]; intros run; cbn [replace_go].
  - by rewrite replace_flush_toLowerCase, append_empty_r.
  - destruct (fileNameLowerCaseRegExp c) eqn:Hc.
    + rewrite IH, rev_cons. unfold toLowerCase.
      rewrite mapChars_append. cbn [mapChars]. by rewrite append_snoc.
    + rewrite replace_flush_toLowerCase, IH. unfold toLowerCase. simpl.
      by rewrite (lowerChar_unmatched _ Hc).
Qed.

(** On code units below 256, [toFileNameLowerCase] lower-cases character
    by character. *)
Lemma toFileNameLowerCase_toLowerCase (s : string) :
  toFileNameLowerCase s = toLowerCase s.
Proof.
  unfold toFileNameLowerCase.
  destruct (test fileNameLowerCaseRegExp s) eqn:Htest.
  - unfold replace. by rewrite replace_go_toLowerCase.
  - by rewrite toLowerCase_unmatched.
Qed.

Lemma toFileNameLowerCase_cons (c : ascii) (s : string) :
  toFileNameLowerCase (String c s) = String (lowerChar c) (toFileNameLowerCase s).
Proof. by rewrite !toFileNameLowerCase_toLowerCase. Qed.

Lemma toFileNameLowerCase_append (s t : string) :
  toFileNameLowerCase (s +:+ t) = toFileNameLowerCase s +:+ toFileNameLowerCase t.
Proof. rewrite !toFileNameLowerCase_toLowerCase. apply mapChars_append. Qed.

Lemma toFileNameLowerCase_idemp (s : string) :
  toFileNameLowerCase (toFileNameLowerCase s) = toFileNameLowerCase s.
Proof.
  rewrite !toFileNameLowerCase_toLowerCase. unfold toLowerCase.
  induction s as [|c s IH]; [done|]. simpl. by rewrite lowerChar_idemp, IH.
Qed.

Lemma startsWith_separator_lower (s : string) :
  startsWith CACHE_KEY_SEPARATOR (toFileNameLowerCase s)
  = startsWith CACHE_KEY_SEPARATOR s.
Proof.
  rewrite toFileNameLowerCase_toLowerCase. unfold toLowerCase.
  destruct s as [|a [|b [|c s]]]; simpl; try done;
    repeat case_decide; try done;
    repeat match goal with
    | H : ":"%char = lowerChar _ |- _ =>
        symmetry in H; apply (proj1 (lowerChar_colon _)) in H
    | H : ":"%char ≠ lowerChar ?c |- _ =>
        assert (c ≠ ":"%char)
          by (intros ?; apply H; symmetry; by apply (proj2 (lowerChar_colon _)));
        clear H
    end; congruence.
Qed.

Lemma createGetCanonicalFileName_idemp (b : bool) (s : string) :
  createGetCanonicalFileName b (createGetCanonicalFileName b s)
  = createGetCanonicalFileName b s.
Proof. destruct b; [done|]. apply toFileNameLowerCase_idemp. Qed.

Lemma createGetCanonicalFileName_append (b : bool) (s t : string) :
  createGetCanonicalFileName b (s +:+ t)
  = createGetCanonicalFileName b s +:+ createGetCanonicalFileName b t.
Proof. destruct b; [done|]. apply toFileNameLowerCase_append. Qed.

Lemma createGetCanonicalFileName_separator (b : bool) :
  createGetCanonicalFileName b CACHE_KEY_SEPARATOR = CACHE_KEY_SEPARATOR.
Proof. by destruct b. Qed.

End StringFacts.

(** ** The resolution cache *)

Section CacheFacts.
Context `{PathUtils}.


Lemma canon_idemp (s : string) : canon (canon s) = canon s.
Proof. apply createGetCanonicalFileName_idemp. Qed.

Lemma foldl_pointwise {A B : Type} (f g : A → B → A) (l : list B) (a : A) :
  (∀ a b, f a b = g a b) → foldl f a l = foldl g a l.
Proof.
  intros Hfg. revert a. induction l as [|b l IH]; intros a; [done|].
  simpl. by rewrite Hfg, IH.
Qed.

Lemma delete_visit_removeWhen (name : string) (val : option ResolvedModule)
    (key : string) (c : ModuleResolutionCache) :
  Cache.delete_visit name val key c
  = Cache.removeWhen (Cache.resolvesTo name)
      (λ key, shiftOrEmpty (split CACHE_KEY_SEPARATOR key)) val key c.
Proof.
  unfold Cache.delete_visit, Cache.removeWhen, Cache.resolvesTo.
  destruct val as [m|]; [|done]. by case_decide; case_bool_decide.
Qed.

Lemma deleteUnresolved_visit_removeWhen (stem : string)
    (val : option ResolvedModule) (key : string) (c : ModuleResolutionCache) :
  Cache.deleteUnresolved_visit stem val key c
  = Cache.removeWhen (Cache.unresolvedMatching stem) Cache.keyContainingFile val key c.
Proof.
  unfold Cache.deleteUnresolved_visit, Cache.removeWhen, Cache.unresolvedMatching.
  by destruct val.
Qed.

Section RemoveWhen.
Variables (test : string → option ResolvedModule → bool) (pathOf : string → string).

Let visit (c : ModuleResolutionCache) (kv : string * option ResolvedModule) :=
  Cache.removeWhen test pathOf kv.2 kv.1 c.

Lemma removeWhen_fold_None l c k :
  cache c !! k = None → cache (foldl visit c l) !! k = None.
Proof.
  revert c. induction l as [|[k' v'] l IH]; intros c Hk; [done|].
  simpl. apply IH. unfold visit, Cache.removeWhen. simpl.
  destruct (test k' v'); [|done]. simpl. unfold FileMap.delete.
  by apply lookup_delete_None; right.
Qed.

Lemma removeWhen_fold_keep l c k :
  (∀ k' v', (k', v') ∈ l → canon k' = k') →
  (∀ v, (k, v) ∈ l → test k v = false) →
  cache (foldl visit c l) !! k = cache c !! k.
Proof.
  revert c. induction l as [|[k' v'] l IH]; intros c Hcanon Hkeep; [done|].
  simpl. rewrite IH.
  - unfold visit, Cache.removeWhen. simpl.
    destruct (test k' v') eqn:Htest; [|done]. simpl. unfold FileMap.delete.
    fold canon. rewrite (Hcanon k' v') by left.
    apply lookup_delete_ne. intros ->. rewrite Hkeep in Htest; [done|left].
  - intros ???. eapply Hcanon. by right.
  - intros ??. apply Hkeep. by right.
Qed.

Lemma removeWhen_fold_gone l c k v :
  (∀ k' v', (k', v') ∈ l → canon k' = k') →
  (k, v) ∈ l → test k v = true →
  cache (foldl visit c l) !! k = None.
Proof.
  revert c. induction l as [|[k' v'] l IH]; intros c Hcanon Hin Htest.
  { by apply elem_of_nil in Hin. }
  apply elem_of_cons in Hin as [[= <- <-]|Hin].
  - simpl. apply removeWhen_fold_None. unfold visit, Cache.removeWhen. simpl.
    rewrite Htest. simpl. unfold FileMap.delete. fold canon.
    rewrite (Hcanon k v) by left. apply lookup_delete_eq.
  - simpl. apply IH; [|done..]. intros ???. eapply Hcanon. by right.
Qed.

Lemma removeWhen_fold_pending l c x :
  x ∈ pendingInvalidations (foldl visit c l)
  ↔ x ∈ pendingInvalidations c
    ∨ ∃ k v, (k, v) ∈ l ∧ test k v = true ∧ x = canon (pathOf k).
Proof.
  revert c. induction l as [|[k' v'] l IH]; intros c.
  { simpl. split; [by left|]. intros [|(?&?&[]%elem_of_nil&_)]; done. }
  simpl. rewrite IH. unfold visit, Cache.removeWhen. simpl.
  destruct (test k' v') eqn:Htest; simpl.
  - unfold FileSet.add. fold canon. rewrite elem_of_union, elem_of_singleton.
    split.
    + intros [[->|?]|(k&v&?&?&?)]; [right|by left|right].
      * exists k', v'. split; [left|done].
      * exists k, v. split; [by right|done].
    + intros [?|(k&v&[[= -> ->]|?]%elem_of_cons&?&?)];
        [by left; right|by left; left|right; by exists k, v].
  - split.
    + intros [?|(k&v&?&?&?)]; [by left|right].
      exists k, v. split; [by right|done].
    + intros [?|(k&v&[[= -> ->]|?]%elem_of_cons&?&?)];
        [by left|congruence|right; by exists k, v].
Qed.

(** What a removal loop leaves in the map. *)
Lemma forEach_removeWhen_lookup c k :
  keysCanonical c →
  cache (FileMap.forEach (Cache.removeWhen test pathOf) (cache c) c) !! k
  = match cache c !! k with
    | Some v => if test k v then None else Some v
    | None => None
    end.
Proof.
  intros Hcanon. unfold FileMap.forEach.
  assert (∀ k' v', (k', v') ∈ map_to_list (cache c) → canon k' = k') as Hl.
  { intros k' v' Hin%elem_of_map_to_list. apply Hcanon. by eexists. }
  destruct (cache c !! k) as [v|] eqn:Hk.
  - destruct (test k v) eqn:Htest.
    + apply (removeWhen_fold_gone _ _ k v); [done| |done].
      by apply elem_of_map_to_list.
    + rewrite (removeWhen_fold_keep _ _ k); [done..|].
      intros v' Hin%elem_of_map_to_list. congruence.
  - by apply removeWhen_fold_None.
Qed.

(** What a removal loop adds to the pending invalidations. *)
Lemma forEach_removeWhen_pending c x :
  x ∈ pendingInvalidations (FileMap.forEach (Cache.removeWhen test pathOf) (cache c) c)
  ↔ x ∈ pendingInvalidations c
    ∨ ∃ k v, cache c !! k = Some v ∧ test k v = true ∧ x = canon (pathOf k).
Proof.
  unfold FileMap.forEach.
  etrans; [apply removeWhen_fold_pending|].
  by setoid_rewrite elem_of_map_to_list.
Qed.

End RemoveWhen.

Lemma delete_forEach (name : string) (c : ModuleResolutionCache) :
  Cache.delete name c
  = FileMap.forEach (Cache.removeWhen (Cache.resolvesTo (canon name))
      (λ key, shiftOrEmpty (split CACHE_KEY_SEPARATOR key))) (cache c) c.
Proof.
  unfold Cache.delete, FileMap.forEach. apply foldl_pointwise.
  intros st kv. apply delete_visit_removeWhen.
Qed.

Lemma deleteUnresolved_forEach (path : string) (c : ModuleResolutionCache) :
  Cache.deleteUnresolvedResolutionsFromCache path c
  = FileMap.forEach
      (Cache.removeWhen (Cache.unresolvedMatching (Cache.fileNameWithoutEnding path))
         Cache.keyContainingFile) (cache c) c.
Proof.
  unfold Cache.deleteUnresolvedResolutionsFromCache, FileMap.forEach.
  apply foldl_pointwise. intros st kv. apply deleteUnresolved_visit_removeWhen.
Qed.

End CacheFacts.

(** ** Invariants of the loader *)

Section Invariants.
Context `{PathUtils}.



Lemma shrinks_refl c : shrinks c c.
Proof. by split. Qed.

Lemma shrinks_trans c1 c2 c3 : shrinks c1 c2 → shrinks c2 c3 → shrinks c1 c3.
Proof. intros [H1 H2] [H3 H4]. split; [by auto|set_solver]. Qed.

Lemma shrinks_keysCanonical c c' : shrinks c c' → keysCanonical c → keysCanonical c'.
Proof. intros [Hsub _] Hc k [v Hk]. apply Hc. exists v. by apply Hsub. Qed.

Lemma forEach_removeWhen_shrinks test pathOf c :
  keysCanonical c →
  shrinks c (FileMap.forEach (Cache.removeWhen test pathOf) (cache c) c).
Proof.
  intros Hc. split.
  - intros k v. rewrite forEach_removeWhen_lookup by done.
    destruct (cache c !! k) as [v'|]; [|done]. by destruct (test k v').
  - intros x Hx. apply forEach_removeWhen_pending. by left.
Qed.

Lemma delete_shrinks name c : keysCanonical c → shrinks c (Cache.delete name c).
Proof. rewrite delete_forEach. apply forEach_removeWhen_shrinks. Qed.

Lemma deleteUnresolved_shrinks path c :
  keysCanonical c → shrinks c (Cache.deleteUnresolvedResolutionsFromCache path c).
Proof. rewrite deleteUnresolved_forEach. apply forEach_removeWhen_shrinks. Qed.

Lemma keysCanonical_new : keysCanonical Cache.new.
Proof. intros k [v Hk]. simpl in Hk. by rewrite lookup_empty in Hk. Qed.

Lemma keysCanonical_set moduleName containingFile r c :
  keysCanonical c → keysCanonical (Cache.set moduleName containingFile r c).
Proof.
  intros Hc k [v Hk]. unfold Cache.set, FileMap.set in Hk. simpl in Hk.
  apply lookup_insert_Some in Hk as [[<- _]|[_ Hk]].
  - apply createGetCanonicalFileName_idemp.
  - apply Hc. by eexists.
Qed.


Lemma wellFormed_init : wellFormed Loader.init.
Proof.
  split; [apply keysCanonical_new|]. intros o Ho. by apply elem_of_nil in Ho.
Qed.

Lemma elem_of_trackedAdd o o' l :
  o' ∈ Loader.trackedAdd o l ↔ o' = o ∨ o' ∈ l.
Proof.
  unfold Loader.trackedAdd. case_decide.
  - split; [by right|]. by intros [->|].
  - rewrite elem_of_app, list_elem_of_singleton. tauto.
Qed.

Lemma trackedComplete_cacheResolution o r containingFile st :
  trackedComplete st →
  trackedComplete (Loader.cacheResolutionWithFailedLookup o r containingFile st).
Proof.
  intros Hst. unfold Loader.cacheResolutionWithFailedLookup.
  destruct (failedLookupLocations r) as [[|l ls]|] eqn:Hlocs; [done| |done].
  intros o' Ho'. simpl in *. apply elem_of_trackedAdd in Ho' as [->|Ho'].
  - eexists _, _, l, ls. rewrite lookup_insert_eq. done.
  - destruct (decide (o' = o)) as [->|Hne].
    + eexists _, _, l, ls. rewrite lookup_insert_eq. done.
    + rewrite lookup_insert_ne by done. by apply Hst.
Qed.

Lemma cacheResolution_moduleCache o r containingFile st :
  moduleCache (Loader.cacheResolutionWithFailedLookup o r containingFile st)
  = moduleCache st.
Proof.
  unfold Loader.cacheResolutionWithFailedLookup.
  by destruct (failedLookupLocations r) as [[|]|].
Qed.

Lemma wellFormed_resolveOne E containingFile moduleName index st :
  wellFormed st →
  wellFormed (Loader.resolveOne E containingFile moduleName index st).2.
Proof.
  intros [Hc Ht]. unfold Loader.resolveOne.
  destruct (Cache.has _ _ _); [done|].
  destruct (Loader.resolveModuleName _ _ _ _ _) as [[o r] next].
  split; simpl.
  - apply keysCanonical_set. by rewrite cacheResolution_moduleCache.
  - intros o' Ho'.
    by apply (trackedComplete_cacheResolution o r containingFile
                {| moduleCache := moduleCache st;
                   resolutionWithFailedLookup := resolutionWithFailedLookup st;
                   objects := objects st;
                   fileSets := fileSets st;
                   failedLocationInvalidated := failedLocationInvalidated st;
                   pendingFailedLocationCheck := pendingFailedLocationCheck st;
                   nextObject := next |}).
Qed.

Lemma wellFormed_resolveModuleNames_from E index moduleNames containingFile st :
  wellFormed st →
  wellFormed (Loader.resolveModuleNames_from E index moduleNames containingFile st).2.
Proof.
  revert index st. induction moduleNames as [|moduleName rest IH];
    intros index st Hst; [done|].
  simpl.
  pose proof (wellFormed_resolveOne E containingFile moduleName index st Hst) as H1.
  destruct (Loader.resolveOne _ _ _ _ _) as [r st1].
  specialize (IH (S index) st1 H1).
  by destruct (Loader.resolveModuleNames_from _ _ _ _ _) as [rs st2].
Qed.


Lemma elem_of_foldr_add (b : bool) (l : list string) (s : gset string) x :
  x ∈ foldr (FileSet.add b) s l
  ↔ x ∈ s ∨ ∃ f, f ∈ l ∧ x = createGetCanonicalFileName b f.
Proof.
  induction l as [|f l IH]; simpl.
  - split; [by left|]. intros [|(?&[]%elem_of_nil&_)]; done.
  - unfold FileSet.add at 1. rewrite elem_of_union, elem_of_singleton, IH.
    split.
    + intros [->|[?|(f'&?&?)]]; [right|by left|right].
      * exists f. split; [left|done].
      * exists f'. split; [by right|done].
    + intros [?|(f'&[->|?]%elem_of_cons&?)];
        [by right; left|by left|right; right; by exists f'].
Qed.

Lemma sweepFrame_refl st : sweepFrame st st.
Proof. split; first [done | apply shrinks_refl]. Qed.

Lemma sweepFrame_trans st1 st2 st3 :
  sweepFrame st1 st2 → sweepFrame st2 st3 → sweepFrame st1 st3.
Proof.
  intros H12 H23. split.
  - rewrite (sweep_tracked _ _ H23). apply H12.
  - rewrite (sweep_objects _ _ H23). apply H12.
  - rewrite (sweep_fileSets _ _ H23). apply H12.
  - rewrite (sweep_pending _ _ H23). apply H12.
  - eapply shrinks_trans; [apply H12|apply H23].
  - etrans; [apply H12|apply H23].
Qed.

Lemma invalidate_visit_frame st o :
  keysCanonical (moduleCache st) → sweepFrame st (Loader.invalidate_visit st o).
Proof.
  intros Hc. unfold Loader.invalidate_visit.
  destruct (objects st !! o) as [[[m|] [locations|] [sid|]]|];
    try apply sweepFrame_refl.
  destruct (Loader.someLocationPending _ _); [|apply sweepFrame_refl].
  split; simpl; try done.
  - by apply delete_shrinks.
  - intros x Hx. apply elem_of_foldr_add. by left.
Qed.

Lemma sweep_frame l st :
  keysCanonical (moduleCache st) →
  sweepFrame st (foldl Loader.invalidate_visit st l).
Proof.
  revert st. induction l as [|o l IH]; intros st Hc; [apply sweepFrame_refl|].
  simpl. pose proof (invalidate_visit_frame st o Hc) as Hf.
  eapply sweepFrame_trans; [exact Hf|]. apply IH.
  eapply shrinks_keysCanonical; [apply Hf|done].
Qed.

Lemma wellFormed_step st c : wellFormed st → wellFormed (step st c).
Proof.
  intros Hst. destruct c as [E names cf|path|path| |]; simpl.
  - by apply wellFormed_resolveModuleNames_from.
  - destruct Hst as [Hc Ht]. split; [|exact Ht].
    eapply shrinks_keysCanonical; [by apply delete_shrinks|done].
  - destruct Hst as [Hc Ht]. split; [|exact Ht].
    eapply shrinks_keysCanonical; [by apply deleteUnresolved_shrinks|done].
  - by destruct Hst.
  - destruct Hst as [Hc Ht].
    pose proof (sweep_frame (resolutionWithFailedLookup st) st Hc) as Hf.
    split.
    + eapply shrinks_keysCanonical; [apply Hf|done].
    + intros o Ho. simpl in *.
      rewrite (sweep_tracked _ _ Hf) in Ho. rewrite (sweep_objects _ _ Hf).
      by apply Ht.
Qed.

Lemma wellFormed_run calls st : wellFormed st → wellFormed (run calls st).
Proof.
  revert st. induction calls as [|c calls IH]; intros st Hst; [done|].
  simpl. apply IH. by apply wellFormed_step.
Qed.

Lemma reachable_wellFormed st : reachable st → wellFormed st.
Proof. intros [calls ->]. apply wellFormed_run, wellFormed_init. Qed.

End Invariants.

(** ** Keys and their components *)

Section KeyFacts.
Context `{PathUtils}.

Lemma includes_separator_lower (s : string) :
  includes CACHE_KEY_SEPARATOR (toFileNameLowerCase s)
  = includes CACHE_KEY_SEPARATOR s.
Proof.
  induction s as [|c s IH]; [done|].
  rewrite toFileNameLowerCase_cons. cbn [includes].
  rewrite <- toFileNameLowerCase_cons.
  by rewrite startsWith_separator_lower, IH.
Qed.

Lemma separatorFree_canonical (b : bool) (path : string) :
  separatorFree (createGetCanonicalFileName b path) = separatorFree path.
Proof.
  destruct b; [done|]. unfold separatorFree. simpl. f_equal.
  change "::" with (toFileNameLowerCase "::") at 1.
  by rewrite <- toFileNameLowerCase_append, includes_separator_lower.
Qed.

Lemma split_go_no_separator (cur s : string) :
  includes CACHE_KEY_SEPARATOR s = false →
  split_go CACHE_KEY_SEPARATOR 0 cur s = [String.rev cur +:+ s].
Proof.
  revert cur. induction s as [|c s IH]; intros cur Hs.
  - simpl. by rewrite append_empty_r.
  - cbn [includes] in Hs. apply orb_false_iff in Hs as [Hst Hs].
    cbn [split_go]. rewrite Hst, (IH _ Hs). f_equal.
    change (String.rev (String c cur)) with (String.rev_app cur (String c "")).
    unfold String.rev. by rewrite !rev_app_append.
Qed.

Lemma split_no_separator (s : string) :
  includes CACHE_KEY_SEPARATOR s = false → split CACHE_KEY_SEPARATOR s = [s].
Proof. intros Hs. unfold split. by rewrite split_go_no_separator. Qed.

Lemma storedKey_unfold (moduleName containingFile : string) :
  storedKey moduleName containingFile
  = canon containingFile +:+ CACHE_KEY_SEPARATOR
      +:+ canon (ensureRealSvelteFilePath moduleName).
Proof.
  unfold storedKey, Cache.getKey, Cache.getCanonicalFileName.
  by rewrite !createGetCanonicalFileName_append,
    createGetCanonicalFileName_separator.
Qed.

(** For a separator-free containing file, the key is read back into the
    normalized containing file and what [split] makes of the normalized
    specifier. *)
Lemma storedKey_split (moduleName containingFile : string) :
  separatorFree containingFile = true →
  split CACHE_KEY_SEPARATOR (storedKey moduleName containingFile)
  = canon containingFile
    :: split CACHE_KEY_SEPARATOR (canon (ensureRealSvelteFilePath moduleName)).
Proof.
  intros Hfree. rewrite storedKey_unfold. apply split_separatorFree.
  unfold Cache.getCanonicalFileName. by rewrite separatorFree_canonical.
Qed.

Lemma storedKey_containingFile (moduleName containingFile : string) :
  separatorFree containingFile = true →
  Cache.keyContainingFile (storedKey moduleName containingFile)
  = canon containingFile
  ∧ shiftOrEmpty (split CACHE_KEY_SEPARATOR (storedKey moduleName containingFile))
    = canon containingFile.
Proof.
  intros Hfree. unfold Cache.keyContainingFile, shiftOrEmpty.
  by rewrite storedKey_split.
Qed.

Lemma storedKey_moduleName (moduleName containingFile : string) :
  separatorFree containingFile = true →
  includes CACHE_KEY_SEPARATOR (ensureRealSvelteFilePath moduleName) = false →
  Cache.keyModuleName (storedKey moduleName containingFile)
  = canon (ensureRealSvelteFilePath moduleName).
Proof.
  intros Hfree Hspec. unfold Cache.keyModuleName.
  rewrite storedKey_split by done. simpl.
  rewrite split_no_separator; [done|].
  unfold Cache.getCanonicalFileName.
  destruct useCaseSensitiveFileNames; [done|]. simpl.
  by rewrite includes_separator_lower.
Qed.

Lemma has_lookup moduleName containingFile c :
  Cache.has moduleName containingFile c = true
  ↔ is_Some (cache c !! storedKey moduleName containingFile).
Proof. unfold Cache.has, FileMap.has. by rewrite bool_decide_eq_true. Qed.

Lemma has_lookup_false moduleName containingFile c :
  Cache.has moduleName containingFile c = false
  ↔ cache c !! storedKey moduleName containingFile = None.
Proof.
  unfold Cache.has, FileMap.has.
  by rewrite bool_decide_eq_false, eq_None_not_Some.
Qed.

Lemma get_lookup moduleName containingFile c :
  Cache.get moduleName containingFile c
  = default None (cache c !! storedKey moduleName containingFile).
Proof. done. Qed.

Lemma oneOfResolvedModuleChanged_elem path c :
  Cache.oneOfResolvedModuleChanged path c = true
  ↔ canon path ∈ pendingInvalidations c.
Proof.
  unfold Cache.oneOfResolvedModuleChanged, FileSet.has.
  by rewrite bool_decide_eq_true.
Qed.

Lemma mightHave_elem path st :
  Loader.mightHaveInvalidatedResolutions path st = true
  ↔ canon path ∈ pendingInvalidations (moduleCache st)
    ∨ canonTs path ∈ failedLocationInvalidated st.
Proof.
  unfold Loader.mightHaveInvalidatedResolutions.
  rewrite orb_true_iff, oneOfResolvedModuleChanged_elem.
  unfold FileSet.has. by rewrite bool_decide_eq_true.
Qed.

(** Both loops read the containing file off a key in the same way. *)
Lemma keyContainingFile_shift (key : string) :
  shiftOrEmpty (split CACHE_KEY_SEPARATOR key) = Cache.keyContainingFile key.
Proof. unfold shiftOrEmpty, Cache.keyContainingFile. by rewrite head_lookup. Qed.

(** What [delete] leaves in the map and adds to the pending invalidations. *)
Lemma delete_lookup name c k :
  keysCanonical c →
  cache (Cache.delete name c) !! k
  = match cache c !! k with
    | Some v => if Cache.resolvesTo (canon name) k v then None else Some v
    | None => None
    end.
Proof. intros Hc. rewrite delete_forEach. by apply forEach_removeWhen_lookup. Qed.

Lemma delete_pending name c x :
  x ∈ pendingInvalidations (Cache.delete name c)
  ↔ x ∈ pendingInvalidations c
    ∨ ∃ k m, cache c !! k = Some (Some m)
           ∧ canon (resolvedFileName m) = canon name
           ∧ x = canon (Cache.keyContainingFile k).
Proof.
  rewrite delete_forEach, forEach_removeWhen_pending. split.
  - intros [?|(k&[m|]&Hk&Htest&->)]; [by left| |done].
    right. exists k, m. rewrite keyContainingFile_shift.
    by apply bool_decide_eq_true in Htest.
  - intros [?|(k&m&Hk&Hm&->)]; [by left|right].
    exists k, (Some m). rewrite keyContainingFile_shift. split_and!; [done| |done].
    by apply bool_decide_eq_true.
Qed.

Lemma deleteUnresolved_lookup path c k :
  keysCanonical c →
  cache (Cache.deleteUnresolvedResolutionsFromCache path c) !! k
  = match cache c !! k with
    | Some v =>
        if Cache.unresolvedMatching (Cache.fileNameWithoutEnding path) k v
        then None else Some v
    | None => None
    end.
Proof.
  intros Hc. rewrite deleteUnresolved_forEach.
  by apply forEach_removeWhen_lookup.
Qed.

Lemma deleteUnresolved_pending path c x :
  x ∈ pendingInvalidations (Cache.deleteUnresolvedResolutionsFromCache path c)
  ↔ x ∈ pendingInvalidations c
    ∨ ∃ k, cache c !! k = Some None
         ∧ includes (Cache.fileNameWithoutEnding path) (Cache.keyModuleName k) = true
         ∧ x = canon (Cache.keyContainingFile k).
Proof.
  rewrite deleteUnresolved_forEach, forEach_removeWhen_pending. split.
  - intros [?|(k&[m|]&Hk&Htest&->)]; [by left|done|].
    right. by exists k.
  - intros [?|(k&Hk&Hm&->)]; [by left|right]. by exists k, None.
Qed.

End KeyFacts.

(** ** The cache key *)

Section CacheKey.
Context `{PathUtils}.

Lemma getKey_split (moduleName containingFile : string) :
  separatorFree containingFile = true →
  split CACHE_KEY_SEPARATOR (Cache.getKey moduleName containingFile)
  = containingFile
    :: split CACHE_KEY_SEPARATOR (ensureRealSvelteFilePath moduleName).
Proof. apply split_separatorFree. Qed.

(** C3, amended.  [getKey] is injective, up to the normalization of the
    specifier, on the pairs whose containing file is separator-free (it
    contains no separator and does not end in a colon); so is the key
    stored by the [FileMap], up to case normalization of both components.
    The key function itself neither case-normalizes the containing file
    nor checks that the separator is absent. *)
Theorem getKey_injective_separatorFree (m1 c1 m2 c2 : string) :
  separatorFree c1 = true → separatorFree c2 = true →
  (Cache.getKey m1 c1 = Cache.getKey m2 c2 →
     c1 = c2 ∧ ensureRealSvelteFilePath m1 = ensureRealSvelteFilePath m2)
  ∧ (storedKey m1 c1 = storedKey m2 c2 →
     canon c1 = canon c2
     ∧ canon (ensureRealSvelteFilePath m1) = canon (ensureRealSvelteFilePath m2)).
Proof.
  intros H1 H2. split.
  - intros Heq. assert (c1 = c2) as ->.
    { pose proof (getKey_split m1 c1 H1) as Hs1.
      pose proof (getKey_split m2 c2 H2) as Hs2.
      rewrite Heq, Hs2 in Hs1. congruence. }
    split; [done|]. unfold Cache.getKey in Heq.
    by do 2 apply String.app_inj in Heq.
  - intros Heq. assert (canon c1 = canon c2) as Hc.
    { pose proof (storedKey_split m1 c1 H1) as Hs1.
      pose proof (storedKey_split m2 c2 H2) as Hs2.
      rewrite Heq, Hs2 in Hs1. congruence. }
    split; [done|]. rewrite !storedKey_unfold, Hc in Heq.
    by do 2 apply String.app_inj in Heq.
Qed.

End CacheKey.

(** Two specifiers that differ only in the virtual extension share a key
    of a separator-free containing file. *)
Lemma getKey_injective_separatorFree_witness :
  separatorFree "/proj/a.ts" = true
  ∧ ((@Cache.getKey Svelte.caseSensitive "./Foo.d.svelte.ts" "/proj/a.ts"
      = @Cache.getKey Svelte.caseSensitive "./Foo.svelte" "/proj/a.ts" →
      "/proj/a.ts" = "/proj/a.ts"
      ∧ Svelte.ensureRealSvelteFilePath "./Foo.d.svelte.ts"
        = Svelte.ensureRealSvelteFilePath "./Foo.svelte")
     ∧ (@storedKey Svelte.caseSensitive "./Foo.d.svelte.ts" "/proj/a.ts"
        = @storedKey Svelte.caseSensitive "./Foo.svelte" "/proj/a.ts" →
        @Cache.getCanonicalFileName Svelte.caseSensitive "/proj/a.ts"
        = @Cache.getCanonicalFileName Svelte.caseSensitive "/proj/a.ts"
        ∧ @Cache.getCanonicalFileName Svelte.caseSensitive
            (Svelte.ensureRealSvelteFilePath "./Foo.d.svelte.ts")
          = @Cache.getCanonicalFileName Svelte.caseSensitive
              (Svelte.ensureRealSvelteFilePath "./Foo.svelte"))).
Proof.
  split; [reflexivity|].
  apply (@getKey_injective_separatorFree Svelte.caseSensitive
           "./Foo.d.svelte.ts" "/proj/a.ts" "./Foo.svelte" "/proj/a.ts");
    reflexivity.
Defined.

(** C3 as stated fails: the separator may occur in a containing file or in
    a specifier, and then two pairs that differ in both components (also
    after normalization) get one key.  In the second collision no
    component even contains the separator. *)
Lemma getKey_not_injective :
  ¬ (∀ m1 c1 m2 c2 : string,
       @Cache.getKey Svelte.caseSensitive m1 c1
       = @Cache.getKey Svelte.caseSensitive m2 c2 →
       c1 = c2 ∧ Svelte.ensureRealSvelteFilePath m1
                 = Svelte.ensureRealSvelteFilePath m2)
  ∧ @Cache.getKey Svelte.caseSensitive "./c" "/proj/a:::b.ts"
    = @Cache.getKey Svelte.caseSensitive "b.ts:::./c" "/proj/a"
  ∧ @Cache.getKey Svelte.caseSensitive "b" "/proj/a:"
    = @Cache.getKey Svelte.caseSensitive ":b" "/proj/a"
  ∧ includes CACHE_KEY_SEPARATOR "/proj/a:" = false
  ∧ includes CACHE_KEY_SEPARATOR ":b" = false.
Proof.
  split_and!; try reflexivity.
  intros Hinj.
  destruct (Hinj "./c" "/proj/a:::b.ts" "b.ts:::./c" "/proj/a" eq_refl) as [Hc _].
  discriminate Hc.
Qed.

(** ** Invalidation by resolved path: [deleteFromModuleCache] *)

Section DeleteFacts.
Context `{PathUtils}.

Lemma resolveOne_invalidations E containingFile moduleName index st :
  pendingInvalidations (moduleCache (Loader.resolveOne E containingFile moduleName index st).2)
  = pendingInvalidations (moduleCache st)
  ∧ failedLocationInvalidated (Loader.resolveOne E containingFile moduleName index st).2
    = failedLocationInvalidated st
  ∧ pendingFailedLocationCheck (Loader.resolveOne E containingFile moduleName index st).2
    = pendingFailedLocationCheck st.
Proof.
  unfold Loader.resolveOne. destruct (Cache.has _ _ _); [done|].
  destruct (Loader.resolveModuleName _ _ _ _ _) as [[o r] next]. simpl.
  unfold Loader.cacheResolutionWithFailedLookup.
  by destruct (failedLookupLocations r) as [[|]|].
Qed.

Lemma resolveModuleNames_from_invalidations E index moduleNames containingFile st :
  pendingInvalidations
    (moduleCache (Loader.resolveModuleNames_from E index moduleNames containingFile st).2)
  = pendingInvalidations (moduleCache st)
  ∧ failedLocationInvalidated
      (Loader.resolveModuleNames_from E index moduleNames containingFile st).2
    = failedLocationInvalidated st
  ∧ pendingFailedLocationCheck
      (Loader.resolveModuleNames_from E index moduleNames containingFile st).2
    = pendingFailedLocationCheck st.
Proof.
  revert index st. induction moduleNames as [|moduleName rest IH];
    intros index st; [done|].
  simpl.
  pose proof (resolveOne_invalidations E containingFile moduleName index st) as H1.
  destruct (Loader.resolveOne _ _ _ _ _) as [r st1].
  specialize (IH (S index) st1).
  destruct (Loader.resolveModuleNames_from _ _ _ _ _) as [rs st2].
  simpl in *. destruct H1 as (?&?&?), IH as (?&?&?). split_and!; congruence.
Qed.

(** Apart from [clearPendingInvalidations], no call takes an invalidation
    back. *)
Lemma step_invalidations_grow st c :
  wellFormed st → isClear c = false →
  pendingInvalidations (moduleCache st) ⊆ pendingInvalidations (moduleCache (step st c))
  ∧ failedLocationInvalidated st ⊆ failedLocationInvalidated (step st c).
Proof.
  intros [Hc _] Hclear. destruct c as [E names cf|path|path| |]; try done.
  - unfold step, Loader.resolveModuleNames.
    destruct (resolveModuleNames_from_invalidations E 0 names cf st) as (->&->&_).
    done.
  - simpl. split; [|done]. by apply delete_shrinks.
  - simpl. split; [|done]. by apply deleteUnresolved_shrinks.
  - simpl. pose proof (sweep_frame (resolutionWithFailedLookup st) st Hc) as Hf.
    split; [apply Hf|apply Hf].
Qed.

Lemma run_invalidations_grow calls st :
  wellFormed st → forallb (λ c, negb (isClear c)) calls = true →
  pendingInvalidations (moduleCache st) ⊆ pendingInvalidations (moduleCache (run calls st))
  ∧ failedLocationInvalidated st ⊆ failedLocationInvalidated (run calls st).
Proof.
  revert st. induction calls as [|c calls IH]; intros st Hst Hcalls; [done|].
  simpl in Hcalls. apply andb_true_iff in Hcalls as [Hc Hcalls].
  apply negb_true_iff in Hc.
  destruct (step_invalidations_grow st c Hst Hc) as [H1 H2].
  destruct (IH (step st c) (wellFormed_step _ _ Hst) Hcalls) as [H3 H4].
  split; simpl; (etrans; [eassumption|eassumption]).
Qed.

Lemma mightHave_run calls path st :
  wellFormed st → forallb (λ c, negb (isClear c)) calls = true →
  Loader.mightHaveInvalidatedResolutions path st = true →
  Loader.mightHaveInvalidatedResolutions path (run calls st) = true.
Proof.
  intros Hst Hcalls. rewrite !mightHave_elem.
  destruct (run_invalidations_grow calls st Hst Hcalls) as [H1 H2].
  intros [Hp|Hf]; [left; by apply H1|right; by apply H2].
Qed.

(** C5, amended.  In a reachable state, let the cache hold, for a pair
    whose containing file is separator-free, a defined record whose
    resolved path equals [path] after case normalization.
    [deleteFromModuleCache path] removes the entry, so that [has] no longer
    finds the pair, and adds the containing file to the pending
    invalidations; [mightHaveInvalidatedResolutions] then answers true for
    the containing file after any further calls other than
    [clearPendingInvalidations], and false for every path right after
    [clearPendingInvalidations] (last two conjuncts).
    Whatever the containing file, the entry is removed and what is added
    to the pending invalidations is the part of its key before the first
    separator (first three conjuncts); for a containing file that is not
    separator-free this is not the containing file. *)
Theorem delete_invalidates_containing_file
    (st : State) (path key : string) (m : ResolvedModule) :
  reachable st →
  cache (moduleCache st) !! key = Some (Some m) →
  canon (resolvedFileName m) = canon path →
  cache (moduleCache (Loader.deleteFromModuleCache path st)) !! key = None
  ∧ canon (Cache.keyContainingFile key)
    ∈ pendingInvalidations (moduleCache (Loader.deleteFromModuleCache path st))
  ∧ (∀ calls, forallb (λ c, negb (isClear c)) calls = true →
       Loader.mightHaveInvalidatedResolutions (Cache.keyContainingFile key)
         (run calls (Loader.deleteFromModuleCache path st)) = true)
  ∧ (∀ calls p,
       Loader.mightHaveInvalidatedResolutions p
         (Loader.clearPendingInvalidations
            (run calls (Loader.deleteFromModuleCache path st))) = false)
  ∧ (∀ moduleName containingFile,
       key = storedKey moduleName containingFile →
       separatorFree containingFile = true →
       Cache.has moduleName containingFile
         (moduleCache (Loader.deleteFromModuleCache path st)) = false
       ∧ ∀ calls, forallb (λ c, negb (isClear c)) calls = true →
           Loader.mightHaveInvalidatedResolutions containingFile
             (run calls (Loader.deleteFromModuleCache path st)) = true).
Proof.
  intros Hreach Hkey Hm.
  pose proof (reachable_wellFormed st Hreach) as Hwf.
  pose proof (wellFormed_step st (DeleteFromModuleCache path) Hwf) as Hwf'.
  destruct Hwf as [Hc Ht]. simpl in Hwf'.
  assert (cache (moduleCache (Loader.deleteFromModuleCache path st)) !! key = None)
    as Hgone.
  { simpl. rewrite delete_lookup, Hkey by done. simpl.
    by rewrite bool_decide_true. }
  assert (canon (Cache.keyContainingFile key)
          ∈ pendingInvalidations (moduleCache (Loader.deleteFromModuleCache path st)))
    as Hpending.
  { simpl. apply delete_pending. right. by exists key, m. }
  assert (∀ calls, forallb (λ c, negb (isClear c)) calls = true →
       Loader.mightHaveInvalidatedResolutions (Cache.keyContainingFile key)
         (run calls (Loader.deleteFromModuleCache path st)) = true) as Hmight.
  { intros calls Hcalls. apply mightHave_run; [done..|].
    apply mightHave_elem. by left. }
  split_and!; try done.
  intros moduleName containingFile -> Hfree. split.
  - by apply has_lookup_false.
  - intros calls Hcalls. apply mightHave_run; [done..|].
    apply mightHave_elem. left.
    destruct (storedKey_containingFile moduleName containingFile Hfree) as [Hcf _].
    by rewrite Hcf, canon_idemp in Hpending.
Qed.

(** C9.  In a reachable state [deleteFromModuleCache] leaves every entry
    cached as unresolved in place; an entry it removes holds a defined
    record resolved to the given path, and a path it adds to the pending
    invalidations is the containing file of such an entry. *)
Theorem delete_keeps_unresolved (st : State) (path : string) :
  reachable st →
  (∀ key, cache (moduleCache st) !! key = Some None →
     cache (moduleCache (Loader.deleteFromModuleCache path st)) !! key = Some None)
  ∧ (∀ key v, cache (moduleCache st) !! key = Some v →
       cache (moduleCache (Loader.deleteFromModuleCache path st)) !! key = None →
       ∃ m, v = Some m ∧ canon (resolvedFileName m) = canon path)
  ∧ (∀ x, x ∈ pendingInvalidations (moduleCache (Loader.deleteFromModuleCache path st)) →
       x ∈ pendingInvalidations (moduleCache st)
       ∨ ∃ key m, cache (moduleCache st) !! key = Some (Some m)
                ∧ canon (resolvedFileName m) = canon path
                ∧ x = canon (Cache.keyContainingFile key)).
Proof.
  intros Hreach. destruct (reachable_wellFormed st Hreach) as [Hc _].
  split_and!.
  - intros key Hkey. simpl. by rewrite delete_lookup, Hkey.
  - intros key v Hkey. simpl. rewrite delete_lookup, Hkey by done.
    destruct v as [m|]; simpl; [|done]. case_bool_decide; [|done].
    intros _. by exists m.
  - intros x Hx. simpl in Hx. by apply delete_pending in Hx.
Qed.

End DeleteFacts.

(** ** Invalidation of unresolved entries: [deleteUnresolvedResolutionsFromCache] *)

Section DeleteUnresolvedFacts.
Context `{PathUtils}.

(** The first piece of [s.split('.')] is the part of [s] before its first
    dot. *)
Lemma split_dot_head (cur s : string) :
  ∃ pre, head (split_go "." 0 cur s) = Some (String.rev cur +:+ pre)
       ∧ includes "." pre = false
       ∧ (s = pre ∨ ∃ rest, s = pre +:+ "." +:+ rest).
Proof.
  revert cur. induction s as [|c s IH]; intros cur.
  - exists "". simpl. rewrite append_empty_r. by auto.
  - cbn [split_go startsWith]. case_decide as Hc.
    + subst c. exists "". simpl. rewrite append_empty_r.
      split_and!; [done..|]. right. by exists s.
    + destruct (IH (String c cur)) as (pre&Hhead&Hpre&Hs).
      exists (String c pre). split_and!.
      * rewrite Hhead. f_equal.
        change (String.rev (String c cur)) with (String.rev_app cur (String c "")).
        unfold String.rev. by rewrite !rev_app_append.
      * cbn [includes startsWith]. by rewrite decide_False, Hpre.
      * destruct Hs as [->|[rest ->]]; [by left|right]. by exists rest.
Qed.

Lemma fileNameWithoutEnding_before_dot (path : string) :
  includes "." (Cache.fileNameWithoutEnding path) = false
  ∧ (getLastPartOfPath (canon path) = Cache.fileNameWithoutEnding path
     ∨ ∃ rest, getLastPartOfPath (canon path)
               = Cache.fileNameWithoutEnding path +:+ "." +:+ rest).
Proof.
  unfold Cache.fileNameWithoutEnding, shiftOrEmpty, split.
  destruct (split_dot_head "" (getLastPartOfPath (canon path)))
    as (pre&->&Hpre&Hs).
  done.
Qed.

Lemma fileNameWithoutEnding_dot_first (path : string) :
  startsWith "." (getLastPartOfPath (canon path)) = true →
  Cache.fileNameWithoutEnding path = "".
Proof.
  unfold Cache.fileNameWithoutEnding, shiftOrEmpty, split.
  destruct (getLastPartOfPath (canon path)) as [|c s]; [done|].
  cbn [split_go]. by intros ->.
Qed.

(** C6, amended.  In a reachable state, with [stem] the stem computed from
    the changed path, consider the entries stored for pairs whose containing
    file is separator-free and whose specifier, after the virtual-extension
    normalization, contains no separator.  Among these,
    [deleteUnresolvedResolutionsFromCache] removes exactly the ones cached
    as unresolved whose specifier, normalized for the virtual extension
    and for case, contains [stem], and reports
    the containing file of each (last conjunct); all resolved entries stay
    (third conjunct).
    Whatever the pair, what decides is the key: an unresolved entry is
    removed exactly when the second piece of its key, split at the
    separator, contains [stem]; the first piece of the key of each removed
    entry is added to the pending invalidations and nothing else is; all
    other entries stay as they are (first five conjuncts).  For a pair
    outside the class above these pieces are not its specifier and its
    containing file. *)
Theorem deleteUnresolved_removes_matching (st : State) (path : string) :
  reachable st →
  (∀ key, cache (moduleCache st) !! key = Some None →
     includes (Cache.fileNameWithoutEnding path) (Cache.keyModuleName key) = true →
     cache (moduleCache (Loader.deleteUnresolvedResolutionsFromCache path st)) !! key
     = None
     ∧ canon (Cache.keyContainingFile key)
       ∈ pendingInvalidations
           (moduleCache (Loader.deleteUnresolvedResolutionsFromCache path st)))
  ∧ (∀ key, cache (moduleCache st) !! key = Some None →
       includes (Cache.fileNameWithoutEnding path) (Cache.keyModuleName key) = false →
       cache (moduleCache (Loader.deleteUnresolvedResolutionsFromCache path st)) !! key
       = Some None)
  ∧ (∀ key m, cache (moduleCache st) !! key = Some (Some m) →
       cache (moduleCache (Loader.deleteUnresolvedResolutionsFromCache path st)) !! key
       = Some (Some m))
  ∧ (∀ key, cache (moduleCache st) !! key = None →
       cache (moduleCache (Loader.deleteUnresolvedResolutionsFromCache path st)) !! key
       = None)
  ∧ (∀ x, x ∈ pendingInvalidations
               (moduleCache (Loader.deleteUnresolvedResolutionsFromCache path st))
       ↔ x ∈ pendingInvalidations (moduleCache st)
         ∨ ∃ key, cache (moduleCache st) !! key = Some None
                ∧ includes (Cache.fileNameWithoutEnding path)
                    (Cache.keyModuleName key) = true
                ∧ x = canon (Cache.keyContainingFile key))
  ∧ (∀ moduleName containingFile,
       separatorFree containingFile = true →
       includes CACHE_KEY_SEPARATOR (ensureRealSvelteFilePath moduleName) = false →
       cache (moduleCache st) !! storedKey moduleName containingFile = Some None →
       Cache.has moduleName containingFile
         (moduleCache (Loader.deleteUnresolvedResolutionsFromCache path st))
       = negb (includes (Cache.fileNameWithoutEnding path)
                 (canon (ensureRealSvelteFilePath moduleName)))
       ∧ (includes (Cache.fileNameWithoutEnding path)
            (canon (ensureRealSvelteFilePath moduleName)) = true →
          Loader.mightHaveInvalidatedResolutions containingFile
            (Loader.deleteUnresolvedResolutionsFromCache path st) = true)).
Proof.
  intros Hreach. destruct (reachable_wellFormed st Hreach) as [Hc _].
  assert (∀ key, cache (moduleCache st) !! key = Some None →
     includes (Cache.fileNameWithoutEnding path) (Cache.keyModuleName key) = true →
     cache (moduleCache (Loader.deleteUnresolvedResolutionsFromCache path st)) !! key
     = None
     ∧ canon (Cache.keyContainingFile key)
       ∈ pendingInvalidations
           (moduleCache (Loader.deleteUnresolvedResolutionsFromCache path st)))
    as Hremoved.
  { intros key Hkey Hinc. simpl. split.
    - rewrite deleteUnresolved_lookup, Hkey by done. simpl. by rewrite Hinc.
    - apply deleteUnresolved_pending. right. by exists key. }
  assert (∀ key, cache (moduleCache st) !! key = Some None →
       includes (Cache.fileNameWithoutEnding path) (Cache.keyModuleName key) = false →
       cache (moduleCache (Loader.deleteUnresolvedResolutionsFromCache path st)) !! key
       = Some None) as Hkept.
  { intros key Hkey Hinc. simpl.
    rewrite deleteUnresolved_lookup, Hkey by done. simpl. by rewrite Hinc. }
  split_and!; try done.
  - intros key m Hkey. simpl. by rewrite deleteUnresolved_lookup, Hkey.
  - intros key Hkey. simpl. by rewrite deleteUnresolved_lookup, Hkey.
  - intros x. simpl. apply deleteUnresolved_pending.
  - intros moduleName containingFile Hfree Hspec Hkey.
    pose proof (storedKey_moduleName moduleName containingFile Hfree Hspec) as Hm.
    destruct (storedKey_containingFile moduleName containingFile Hfree) as [Hcf _].
    specialize (Hremoved _ Hkey). specialize (Hkept _ Hkey).
    rewrite Hm in Hremoved, Hkept. rewrite Hcf, canon_idemp in Hremoved.
    destruct (includes _ (canon _)).
    + destruct Hremoved as [Hgone Hpending]; [done|]. split.
      * by apply has_lookup_false.
      * intros _. apply mightHave_elem. by left.
    + split; [|done]. apply has_lookup. rewrite Hkept; by eauto.
Qed.

(** C10.  The stem is the part of the last path segment before its first
    dot.  When the last segment begins with a dot the stem is empty, every
    specifier contains it, and in a reachable state the call removes every
    entry cached as unresolved. *)
Theorem deleteUnresolved_dot_file (st : State) (path : string) :
  reachable st →
  includes "." (Cache.fileNameWithoutEnding path) = false
  ∧ (getLastPartOfPath (canon path) = Cache.fileNameWithoutEnding path
     ∨ ∃ rest, getLastPartOfPath (canon path)
               = Cache.fileNameWithoutEnding path +:+ "." +:+ rest)
  ∧ (startsWith "." (getLastPartOfPath (canon path)) = true →
     Cache.fileNameWithoutEnding path = ""
     ∧ (∀ specifier, includes (Cache.fileNameWithoutEnding path) specifier = true)
     ∧ ∀ key, cache (moduleCache st) !! key = Some None →
         cache (moduleCache (Loader.deleteUnresolvedResolutionsFromCache path st)) !! key
         = None).
Proof.
  intros Hreach. destruct (reachable_wellFormed st Hreach) as [Hc _].
  destruct (fileNameWithoutEnding_before_dot path) as [Hdot Hseg].
  split_and!; [done..|].
  intros Hstart. pose proof (fileNameWithoutEnding_dot_first path Hstart) as Hstem.
  split_and!; [done| |].
  - intros specifier. rewrite Hstem. apply includes_empty.
  - intros key Hkey. simpl.
    rewrite deleteUnresolved_lookup, Hkey by done. simpl.
    by rewrite Hstem, includes_empty.
Qed.

End DeleteUnresolvedFacts.

(** ** Batch resolution: [resolveModuleNames] *)

Section ResolveFacts.
Context `{PathUtils}.

Lemma resolveOne_hit E containingFile moduleName index st :
  Cache.has moduleName containingFile (moduleCache st) = true →
  Loader.resolveOne E containingFile moduleName index st
  = (Cache.get moduleName containingFile (moduleCache st), st).
Proof. intros Hhas. unfold Loader.resolveOne. by rewrite Hhas. Qed.

(** On a miss the outcome of [resolveModuleName] is returned and stored
    under the key of the pair. *)
Lemma resolveOne_miss E containingFile moduleName index st :
  Cache.has moduleName containingFile (moduleCache st) = false →
  (Loader.resolveOne E containingFile moduleName index st).1
  = resolvedModule (Loader.resolveModuleName E moduleName containingFile index st).1.2
  ∧ cache (moduleCache (Loader.resolveOne E containingFile moduleName index st).2)
    = <[storedKey moduleName containingFile :=
          resolvedModule (Loader.resolveModuleName E moduleName containingFile index st).1.2]>
        (cache (moduleCache st)).
Proof.
  intros Hhas. unfold Loader.resolveOne. rewrite Hhas.
  destruct (Loader.resolveModuleName _ _ _ _ _) as [[o r] next]. simpl.
  by rewrite cacheResolution_moduleCache.
Qed.

(** What [resolveModuleName] returns as the resolved module, in terms of
    the host's answer. *)
Lemma resolveModuleName_resolved E moduleName containingFile index st :
  resolvedModule (Loader.resolveModuleName E moduleName containingFile index st).1.2
  = freshOutcome E moduleName containingFile index.
Proof.
  unfold Loader.resolveModuleName, freshOutcome.
  destruct (hostResolvedModule _) as [m|] eqn:Hm; [|by simpl].
  destruct (isVirtualSvelteFilePath _); simpl; [|done].
  by destruct (isSvelteFilePath _).
Qed.

(** The value returned for a specifier is the one the cache holds for it
    afterwards. *)
Lemma resolveOne_cached E containingFile moduleName index st :
  cache (moduleCache (Loader.resolveOne E containingFile moduleName index st).2)
    !! storedKey moduleName containingFile
  = Some (Loader.resolveOne E containingFile moduleName index st).1.
Proof.
  destruct (Cache.has moduleName containingFile (moduleCache st)) eqn:Hhas.
  - rewrite resolveOne_hit by done. simpl. rewrite get_lookup.
    apply has_lookup in Hhas as [v ->]. done.
  - destruct (resolveOne_miss E containingFile moduleName index st Hhas) as [-> ->].
    apply lookup_insert_eq.
Qed.

(** Resolution never overwrites or removes an entry. *)
Lemma resolveOne_keeps E containingFile moduleName index st k v :
  cache (moduleCache st) !! k = Some v →
  cache (moduleCache (Loader.resolveOne E containingFile moduleName index st).2) !! k
  = Some v.
Proof.
  intros Hk.
  destruct (Cache.has moduleName containingFile (moduleCache st)) eqn:Hhas.
  - by rewrite resolveOne_hit.
  - destruct (resolveOne_miss E containingFile moduleName index st Hhas) as [_ ->].
    apply has_lookup_false in Hhas. rewrite lookup_insert_ne; [done|congruence].
Qed.

Lemma resolveModuleNames_from_keeps E index moduleNames containingFile st k v :
  cache (moduleCache st) !! k = Some v →
  cache (moduleCache
    (Loader.resolveModuleNames_from E index moduleNames containingFile st).2) !! k
  = Some v.
Proof.
  revert index st. induction moduleNames as [|moduleName rest IH];
    intros index st Hk; [done|].
  simpl.
  pose proof (resolveOne_keeps E containingFile moduleName index st k v Hk) as H1.
  destruct (Loader.resolveOne _ _ _ _ _) as [r st1].
  specialize (IH (S index) st1 H1).
  by destruct (Loader.resolveModuleNames_from _ _ _ _ _) as [rs st2].
Qed.

Lemma resolveModuleNames_from_app E index l1 l2 containingFile st :
  Loader.resolveModuleNames_from E index (l1 ++ l2) containingFile st
  = ((Loader.resolveModuleNames_from E index l1 containingFile st).1
     ++ (Loader.resolveModuleNames_from E (index + length l1) l2 containingFile
           (Loader.resolveModuleNames_from E index l1 containingFile st).2).1,
     (Loader.resolveModuleNames_from E (index + length l1) l2 containingFile
        (Loader.resolveModuleNames_from E index l1 containingFile st).2).2).
Proof.
  revert index st. induction l1 as [|moduleName l1 IH]; intros index st.
  - simpl. rewrite Nat.add_0_r. by destruct (Loader.resolveModuleNames_from _ _ _ _ _).
  - simpl. destruct (Loader.resolveOne _ _ _ _ _) as [r st1].
    rewrite IH. replace (S index + length l1) with (index + S (length l1)) by lia.
    destruct (Loader.resolveModuleNames_from E (S index) l1 containingFile st1)
      as [rs1 st2].
    simpl. by destruct (Loader.resolveModuleNames_from _ _ _ _ _).
Qed.

Lemma resolveModuleNames_from_length E index moduleNames containingFile st :
  length (Loader.resolveModuleNames_from E index moduleNames containingFile st).1
  = length moduleNames.
Proof.
  revert index st. induction moduleNames as [|moduleName rest IH];
    intros index st; [done|].
  simpl. destruct (Loader.resolveOne _ _ _ _ _) as [r st1].
  specialize (IH (S index) st1).
  destruct (Loader.resolveModuleNames_from _ _ _ _ _) as [rs st2].
  simpl in *. by rewrite IH.
Qed.

(** A batch, cut at its [i]-th specifier. *)
Lemma resolveModuleNames_cut E moduleNames containingFile st i moduleName :
  moduleNames !! i = Some moduleName →
  (Loader.resolveModuleNames E moduleNames containingFile st).1 !! i
  = Some (Loader.resolveOne E containingFile moduleName i
            (stateBefore E moduleNames containingFile st i)).1
  ∧ (Loader.resolveModuleNames E moduleNames containingFile st).2
    = (Loader.resolveModuleNames_from E (S i) (drop (S i) moduleNames) containingFile
         (Loader.resolveOne E containingFile moduleName i
            (stateBefore E moduleNames containingFile st i)).2).2.
Proof.
  intros Hi. unfold stateBefore, Loader.resolveModuleNames.
  pose proof (take_drop_middle _ _ _ Hi) as Hsplit.
  pose proof (lookup_lt_Some _ _ _ Hi) as Hlt.
  rewrite <- Hsplit at 1 3.
  rewrite resolveModuleNames_from_app. simpl.
  rewrite length_take_le by lia.
  pose proof (resolveModuleNames_from_length E 0 (take i moduleNames)
                containingFile st) as Hlen.
  rewrite length_take_le in Hlen by lia.
  destruct (Loader.resolveModuleNames_from E 0 (take i moduleNames) containingFile st)
    as [rs0 st0].
  simpl in *.
  destruct (Loader.resolveOne _ _ _ _ _) as [r st1].
  destruct (Loader.resolveModuleNames_from _ _ _ _ _) as [rs st2]. simpl.
  split; [|done].
  rewrite lookup_app_r by lia. by rewrite Hlen, Nat.sub_diag.
Qed.

(** The [i]-th result of a batch is what the callback yields for the
    [i]-th specifier, and the value the cache holds for it afterwards. *)
Lemma resolveModuleNames_lookup E moduleNames containingFile st i moduleName :
  moduleNames !! i = Some moduleName →
  (Loader.resolveModuleNames E moduleNames containingFile st).1 !! i
  = Some (Loader.resolveOne E containingFile moduleName i
            (stateBefore E moduleNames containingFile st i)).1
  ∧ (Loader.resolveModuleNames E moduleNames containingFile st).1 !! i
    = Some (Cache.get moduleName containingFile
              (moduleCache (Loader.resolveModuleNames E moduleNames containingFile st).2))
  ∧ Cache.has moduleName containingFile
      (moduleCache (Loader.resolveModuleNames E moduleNames containingFile st).2)
    = true.
Proof.
  intros Hi.
  destruct (resolveModuleNames_cut E moduleNames containingFile st i moduleName Hi)
    as [Hres Hst].
  pose proof (resolveOne_cached E containingFile moduleName i
                (stateBefore E moduleNames containingFile st i)) as Hcached.
  eapply resolveModuleNames_from_keeps in Hcached. rewrite <- Hst in Hcached.
  split_and!.
  - done.
  - by rewrite Hres, get_lookup, Hcached.
  - apply has_lookup. by rewrite Hcached.
Qed.

(** C8.  [resolveModuleNames] returns one outcome per specifier, in the
    order of the input: the [i]-th element is what the callback yields for
    the [i]-th specifier, that is the cached value when the specifier is
    cached at that point and the fresh resolution of the [i]-th specifier
    otherwise; it is the value the cache holds for that specifier after
    the batch, and for a specifier already cached before the batch it is
    the value cached then. *)
Theorem resolveModuleNames_positional
    (E : Env) (moduleNames : list string) (containingFile : string) (st : State) :
  length (Loader.resolveModuleNames E moduleNames containingFile st).1
  = length moduleNames
  ∧ ∀ i moduleName, moduleNames !! i = Some moduleName →
      (Loader.resolveModuleNames E moduleNames containingFile st).1 !! i
      = Some (Loader.resolveOne E containingFile moduleName i
                (stateBefore E moduleNames containingFile st i)).1
      ∧ (Loader.resolveModuleNames E moduleNames containingFile st).1 !! i
        = Some (Cache.get moduleName containingFile
                  (moduleCache (Loader.resolveModuleNames E moduleNames containingFile st).2))
      ∧ Cache.has moduleName containingFile
          (moduleCache (Loader.resolveModuleNames E moduleNames containingFile st).2)
        = true
      ∧ (Cache.has moduleName containingFile (moduleCache st) = true →
         (Loader.resolveModuleNames E moduleNames containingFile st).1 !! i
         = Some (Cache.get moduleName containingFile (moduleCache st)))
      ∧ (Cache.has moduleName containingFile
           (moduleCache (stateBefore E moduleNames containingFile st i)) = true →
         (Loader.resolveModuleNames E moduleNames containingFile st).1 !! i
         = Some (Cache.get moduleName containingFile
                   (moduleCache (stateBefore E moduleNames containingFile st i))))
      ∧ (Cache.has moduleName containingFile
           (moduleCache (stateBefore E moduleNames containingFile st i)) = false →
         (Loader.resolveModuleNames E moduleNames containingFile st).1 !! i
         = Some (freshOutcome E moduleName containingFile i)).
Proof.
  split; [apply resolveModuleNames_from_length|].
  intros i moduleName Hi.
  destruct (resolveModuleNames_lookup E moduleNames containingFile st i moduleName Hi)
    as (Hres&Hget&Hhas).
  split_and!; try done.
  - intros Hbefore. apply has_lookup in Hbefore as [v Hv].
    rewrite get_lookup, Hv. simpl.
    pose proof (resolveModuleNames_from_keeps E 0 moduleNames containingFile st _ _ Hv)
      as Hv'.
    fold (Loader.resolveModuleNames E moduleNames containingFile st) in Hv'.
    rewrite Hget, get_lookup, Hv'. done.
  - intros Hhit. by rewrite Hres, resolveOne_hit.
  - intros Hmiss. rewrite Hres.
    destruct (resolveOne_miss E containingFile moduleName i _ Hmiss) as [-> _].
    by rewrite resolveModuleName_resolved.
Qed.

End ResolveFacts.

(** ** Outcomes of a resolution *)

Section OutcomeFacts.
Context `{PathUtils}.

Lemma resolveOne_dom E containingFile moduleName index st k :
  is_Some (cache (moduleCache (Loader.resolveOne E containingFile moduleName index st).2) !! k) →
  is_Some (cache (moduleCache st) !! k) ∨ k = storedKey moduleName containingFile.
Proof.
  destruct (Cache.has moduleName containingFile (moduleCache st)) eqn:Hhas.
  - rewrite resolveOne_hit by done. by left.
  - destruct (resolveOne_miss E containingFile moduleName index st Hhas) as [_ ->].
    rewrite lookup_insert_is_Some. intros [->|[_ ?]]; by auto.
Qed.

Lemma resolveModuleNames_from_dom E index moduleNames containingFile st k :
  is_Some (cache (moduleCache
    (Loader.resolveModuleNames_from E index moduleNames containingFile st).2) !! k) →
  is_Some (cache (moduleCache st) !! k)
  ∨ k ∈ (λ moduleName, storedKey moduleName containingFile) <$> moduleNames.
Proof.
  revert index st. induction moduleNames as [|moduleName rest IH];
    intros index st; [by left|].
  simpl.
  pose proof (resolveOne_dom E containingFile moduleName index st k) as H1.
  destruct (Loader.resolveOne _ _ _ _ _) as [r st1].
  specialize (IH (S index) st1).
  destruct (Loader.resolveModuleNames_from _ _ _ _ _) as [rs st2].
  simpl in *. intros Hk. destruct (IH Hk) as [Hk1|Hin].
  - destruct (H1 Hk1) as [Hk0 | ->]; [by left|right; left].
  - right. by right.
Qed.

Lemma step_dom st c k :
  wellFormed st →
  is_Some (cache (moduleCache (step st c)) !! k) →
  is_Some (cache (moduleCache st) !! k) ∨ k ∈ queriedKeys c.
Proof.
  intros [Hc _]. destruct c as [E names cf|path|path| |].
  - unfold step, Loader.resolveModuleNames. intros Hk.
    apply resolveModuleNames_from_dom in Hk as [?|Hin]; [by left|right].
    simpl. by apply elem_of_list_to_set.
  - simpl. intros [v Hk]. left. exists v.
    by apply (delete_shrinks path _ Hc).
  - simpl. intros [v Hk]. left. exists v.
    by apply (deleteUnresolved_shrinks path _ Hc).
  - simpl. by left.
  - simpl. intros [v Hk]. left. exists v.
    by apply (sweep_frame (resolutionWithFailedLookup st) st Hc).
Qed.

(** Only keys that were asked for are ever in the cache. *)
Lemma run_dom calls st k :
  wellFormed st →
  is_Some (cache (moduleCache (run calls st)) !! k) →
  is_Some (cache (moduleCache st) !! k) ∨ k ∈ allQueriedKeys calls.
Proof.
  revert st. induction calls as [|c calls IH]; intros st Hst Hk; [by left|].
  simpl in Hk. unfold allQueriedKeys. simpl. rewrite elem_of_union.
  destruct (IH _ (wellFormed_step st c Hst) Hk) as [Hk'|?]; [|by auto].
  destruct (step_dom st c k Hst Hk'); by auto.
Qed.

(** C7.  When the [i]-th specifier of a batch is not cached and the host
    reports it as unresolved, the batch returns the unresolved sentinel at
    position [i], and afterwards [has] is true and [get] returns the
    sentinel for the pair.  For a pair whose key was never asked for, [has]
    is false (and [get] returns the sentinel as well): [has] tells the two
    apart. *)
Theorem unresolved_outcome_is_cached
    (E : Env) (moduleNames : list string) (containingFile : string) (st : State)
    (i : nat) (moduleName : string) :
  moduleNames !! i = Some moduleName →
  Cache.has moduleName containingFile
    (moduleCache (stateBefore E moduleNames containingFile st i)) = false →
  hostResolvedModule (tsResolveModuleName E moduleName containingFile i) = None →
  ((Loader.resolveModuleNames E moduleNames containingFile st).1 !! i = Some None
   ∧ Cache.has moduleName containingFile
       (moduleCache (Loader.resolveModuleNames E moduleNames containingFile st).2)
     = true
   ∧ Cache.get moduleName containingFile
       (moduleCache (Loader.resolveModuleNames E moduleNames containingFile st).2)
     = None)
  ∧ (∀ calls moduleName' containingFile',
       storedKey moduleName' containingFile' ∉ allQueriedKeys calls →
       Cache.has moduleName' containingFile' (moduleCache (run calls Loader.init))
       = false
       ∧ Cache.get moduleName' containingFile' (moduleCache (run calls Loader.init))
         = None).
Proof.
  intros Hi Hmiss Hhost. split.
  - destruct (resolveModuleNames_lookup E moduleNames containingFile st i moduleName Hi)
      as (Hres&Hget&Hhas).
    destruct (resolveOne_miss E containingFile moduleName i _ Hmiss) as [Hone _].
    rewrite resolveModuleName_resolved in Hone. unfold freshOutcome in Hone.
    rewrite Hhost in Hone.
    rewrite Hone in Hres. split_and!; [done..|]. congruence.
  - intros calls moduleName' containingFile' Hnot.
    assert (cache (moduleCache (run calls Loader.init))
              !! storedKey moduleName' containingFile' = None) as Hnone.
    { apply eq_None_not_Some. intros Hk.
      apply run_dom in Hk as [[v Hv]|?]; [|done|apply wellFormed_init].
      simpl in Hv. by rewrite lookup_empty in Hv. }
    split; [by apply has_lookup_false|]. by rewrite get_lookup, Hnone.
Qed.

(** C2, amended.  When the [i]-th specifier of a batch is not cached and
    the host resolves it to a virtual path, the record returned and cached
    carries the path given by [getRealSveltePathIfExists] if that is a
    Svelte file (the real counterpart exists); if it is not, the host's
    record, virtual path included, is returned and cached unchanged. *)
Theorem virtual_path_remapped_when_real_exists
    (E : Env) (moduleNames : list string) (containingFile : string) (st : State)
    (i : nat) (moduleName : string) (m : ResolvedModule) :
  moduleNames !! i = Some moduleName →
  Cache.has moduleName containingFile
    (moduleCache (stateBefore E moduleNames containingFile st i)) = false →
  hostResolvedModule (tsResolveModuleName E moduleName containingFile i) = Some m →
  isVirtualSvelteFilePath (resolvedFileName m) = true →
  (isSvelteFilePath (getRealSveltePathIfExists E (resolvedFileName m)) = true →
     (Loader.resolveModuleNames E moduleNames containingFile st).1 !! i
     = Some (Some (resolvedSvelteModule E m))
     ∧ Cache.get moduleName containingFile
         (moduleCache (Loader.resolveModuleNames E moduleNames containingFile st).2)
       = Some (resolvedSvelteModule E m)
     ∧ resolvedFileName (resolvedSvelteModule E m)
       = getRealSveltePathIfExists E (resolvedFileName m)
     ∧ isSvelteFilePath (resolvedFileName (resolvedSvelteModule E m)) = true)
  ∧ (isSvelteFilePath (getRealSveltePathIfExists E (resolvedFileName m)) = false →
     (Loader.resolveModuleNames E moduleNames containingFile st).1 !! i
     = Some (Some m)
     ∧ Cache.get moduleName containingFile
         (moduleCache (Loader.resolveModuleNames E moduleNames containingFile st).2)
       = Some m).
Proof.
  intros Hi Hmiss Hhost Hvirtual.
  destruct (resolveModuleNames_lookup E moduleNames containingFile st i moduleName Hi)
    as (Hres&Hget&_).
  destruct (resolveOne_miss E containingFile moduleName i _ Hmiss) as [Hone _].
  rewrite resolveModuleName_resolved in Hone. unfold freshOutcome in Hone.
  rewrite Hhost, Hvirtual in Hone. simpl in Hone.
  rewrite Hone in Hres. split; intros Hreal; rewrite Hreal in Hres.
  - split_and!; [done| |done..]. congruence.
  - split; [done|congruence].
Qed.

End OutcomeFacts.

(** ** The failed-lookup sweep: [invalidateFailedLocationResolution] *)

Section SweepFacts.
Context `{PathUtils}.

Lemma someLocationPending_true locations st :
  Loader.someLocationPending locations st = true
  ↔ ∃ location, location ∈ locations
      ∧ FileSet.has tsSystemCaseSensitive location (pendingFailedLocationCheck st) = true.
Proof.
  unfold Loader.someLocationPending. rewrite existsb_exists.
  by setoid_rewrite list_elem_of_In.
Qed.

Lemma someLocationPending_frame locations st st' :
  pendingFailedLocationCheck st' = pendingFailedLocationCheck st →
  Loader.someLocationPending locations st' = Loader.someLocationPending locations st.
Proof. unfold Loader.someLocationPending. by intros ->. Qed.

(** The visit of a record that meets the guards and has a pending failed
    location: no entry resolved to its path is left, and its owning files
    are invalidated. *)
Lemma invalidate_visit_hit st o r m sid locations :
  keysCanonical (moduleCache st) →
  objects st !! o = Some r → resolvedModule r = Some m → files r = Some sid →
  failedLookupLocations r = Some locations →
  Loader.someLocationPending locations st = true →
  (∀ k m', cache (moduleCache (Loader.invalidate_visit st o)) !! k = Some (Some m') →
     canon (resolvedFileName m') ≠ canon (resolvedFileName m))
  ∧ (∀ f, f ∈ default ∅ (fileSets st !! sid) →
       canonTs f ∈ failedLocationInvalidated (Loader.invalidate_visit st o)).
Proof.
  intros Hc Ho Hm Hsid Hlocs Hpending. unfold Loader.invalidate_visit.
  rewrite Ho. destruct r as [rm rl rf]. simpl in *. subst rm rl rf.
  rewrite Hpending. simpl. split.
  - intros k m'. rewrite delete_lookup by done.
    destruct (cache (moduleCache st) !! k) as [[m''|]|]; simpl; [|done..].
    case_bool_decide; [done|]. congruence.
  - intros f Hf. apply elem_of_foldr_add. right. exists f.
    split; [|done]. by apply elem_of_elements.
Qed.

Lemma sweep_invalidates l st o r m sid locations :
  keysCanonical (moduleCache st) → o ∈ l →
  objects st !! o = Some r → resolvedModule r = Some m → files r = Some sid →
  failedLookupLocations r = Some locations →
  Loader.someLocationPending locations st = true →
  (∀ k m', cache (moduleCache (foldl Loader.invalidate_visit st l)) !! k = Some (Some m') →
     canon (resolvedFileName m') ≠ canon (resolvedFileName m))
  ∧ (∀ f, f ∈ default ∅ (fileSets st !! sid) →
       canonTs f ∈ failedLocationInvalidated (foldl Loader.invalidate_visit st l)).
Proof.
  revert st. induction l as [|a l IH]; intros st Hc Hin Ho Hm Hsid Hlocs Hpending.
  { by apply elem_of_nil in Hin. }
  simpl. pose proof (invalidate_visit_frame st a Hc) as Hf.
  pose proof (shrinks_keysCanonical _ _ (sweep_cache _ _ Hf) Hc) as Hc1.
  apply elem_of_cons in Hin as [->|Hin].
  - destruct (invalidate_visit_hit st a r m sid locations) as [Hgone Hfiles];
      [done..|].
    pose proof (sweep_frame l _ Hc1) as Hrest. split.
    + intros k m' Hk. apply (Hgone k). by apply Hrest.
    + intros f Hfin. apply Hrest. by apply Hfiles.
  - rewrite <- (sweep_fileSets _ _ Hf). apply IH; try done.
    + by rewrite (sweep_objects _ _ Hf).
    + by rewrite (someLocationPending_frame _ _ _ (sweep_pending _ _ Hf)).
Qed.

(** An entry removed by the sweep was resolved to the path of a tracked
    record that meets the guards and has a pending failed location. *)
Lemma sweep_removed l st k v :
  keysCanonical (moduleCache st) →
  cache (moduleCache st) !! k = Some v →
  cache (moduleCache (foldl Loader.invalidate_visit st l)) !! k = None →
  ∃ o r m m' locations,
    o ∈ l ∧ objects st !! o = Some r ∧ resolvedModule r = Some m
    ∧ failedLookupLocations r = Some locations
    ∧ Loader.someLocationPending locations st = true
    ∧ v = Some m' ∧ canon (resolvedFileName m') = canon (resolvedFileName m).
Proof.
  revert st. induction l as [|a l IH]; intros st Hc Hk Hgone.
  { simpl in Hgone. congruence. }
  simpl in Hgone. pose proof (invalidate_visit_frame st a Hc) as Hf.
  pose proof (shrinks_keysCanonical _ _ (sweep_cache _ _ Hf) Hc) as Hc1.
  destruct (cache (moduleCache (Loader.invalidate_visit st a)) !! k) as [v'|] eqn:Hk1.
  - assert (v' = v) as ->.
    { apply (sweep_cache _ _ Hf) in Hk1. congruence. }
    destruct (IH _ Hc1 Hk1 Hgone) as (o&r&m&m'&locations&Hin&Ho&Hm&Hl&Hp&Hv&Hpath).
    exists o, r, m, m', locations. split_and!; try done.
    + by right.
    + by rewrite <- (sweep_objects _ _ Hf).
    + by rewrite <- (someLocationPending_frame _ _ _ (sweep_pending _ _ Hf)).
  - clear Hgone IH. unfold Loader.invalidate_visit in Hk1.
    destruct (objects st !! a) as [[[m|] [locations|] [sid|]]|] eqn:Ha;
      try congruence.
    destruct (Loader.someLocationPending locations st) eqn:Hp; [|congruence].
    simpl in Hk1. rewrite delete_lookup, Hk in Hk1 by done.
    destruct v as [m'|]; simpl in Hk1; [|done].
    case_bool_decide; [|done].
    exists a, {| resolvedModule := Some m; failedLookupLocations := Some locations;
                 files := Some sid |}, m, m', locations.
    split_and!; try done. left.
Qed.

(** C4.  In a reachable state the sweep visits every tracked record.  For
    each record with a defined resolved module, one of whose failed lookup
    locations is pending a failed-location check, no cache entry resolved to
    the record's path is left and every owning containing file is reported
    by [mightHaveInvalidatedResolutions].  The pending failed-location set
    is empty afterwards.  Nothing else is removed from the cache, and
    nothing is added to it. *)
Theorem invalidateFailedLocationResolution_sweeps (st : State) :
  reachable st →
  (∀ o r m locations location,
     o ∈ resolutionWithFailedLookup st → objects st !! o = Some r →
     resolvedModule r = Some m → failedLookupLocations r = Some locations →
     location ∈ locations →
     FileSet.has tsSystemCaseSensitive location (pendingFailedLocationCheck st) = true →
     (∀ key m',
        cache (moduleCache (Loader.invalidateFailedLocationResolution st)) !! key
        = Some (Some m') →
        canon (resolvedFileName m') ≠ canon (resolvedFileName m))
     ∧ (∀ file, file ∈ owningFiles o st →
          Loader.mightHaveInvalidatedResolutions file
            (Loader.invalidateFailedLocationResolution st) = true))
  ∧ pendingFailedLocationCheck (Loader.invalidateFailedLocationResolution st) = ∅
  ∧ (∀ key v, cache (moduleCache st) !! key = Some v →
       cache (moduleCache (Loader.invalidateFailedLocationResolution st)) !! key = None →
       ∃ o r m m' locations location,
         o ∈ resolutionWithFailedLookup st ∧ objects st !! o = Some r
         ∧ resolvedModule r = Some m ∧ failedLookupLocations r = Some locations
         ∧ location ∈ locations
         ∧ FileSet.has tsSystemCaseSensitive location (pendingFailedLocationCheck st)
           = true
         ∧ v = Some m' ∧ canon (resolvedFileName m') = canon (resolvedFileName m))
  ∧ (∀ key v,
       cache (moduleCache (Loader.invalidateFailedLocationResolution st)) !! key = Some v →
       cache (moduleCache st) !! key = Some v).
Proof.
  intros Hreach. destruct (reachable_wellFormed st Hreach) as [Hc Ht].
  split_and!.
  - intros o r m locations location Hin Ho Hm Hlocs Hloc Hhas.
    destruct (Ht o Hin) as (r'&sid&l&ls&Ho'&Hsid&_).
    assert (r' = r) as -> by congruence.
    destruct (sweep_invalidates (resolutionWithFailedLookup st) st o r m sid locations)
      as [Hgone Hfiles]; try done.
    { apply someLocationPending_true. by exists location. }
    split; [exact Hgone|].
    intros file Hfile. apply mightHave_elem. right. simpl. apply Hfiles.
    unfold owningFiles in Hfile. rewrite Ho in Hfile.
    destruct r as [rm rl rf]. simpl in *. by subst rf.
  - done.
  - intros key v Hk Hgone. simpl in Hgone.
    destruct (sweep_removed _ st key v Hc Hk Hgone)
      as (o&r&m&m'&locations&Hin&Ho&Hm&Hl&Hp&Hv&Hpath).
    apply someLocationPending_true in Hp as (location&Hloc&Hhas).
    by exists o, r, m, m', locations, location.
  - intros key v Hk. simpl in Hk.
    by apply (sweep_frame (resolutionWithFailedLookup st) st Hc).
Qed.

End SweepFacts.

(** ** Retroactive invalidation through a failed lookup location *)

Section FailedLocationFacts.
Context `{PathUtils}.

Lemma resolveModuleName_locations E moduleName containingFile index st :
  failedLookupLocations (Loader.resolveModuleName E moduleName containingFile index st).1.2
  = hostFailedLookupLocations (tsResolveModuleName E moduleName containingFile index).
Proof.
  unfold Loader.resolveModuleName.
  destruct (hostResolvedModule _) as [m|]; [|done].
  destruct (isVirtualSvelteFilePath _); simpl; [|done].
  by destruct (isSvelteFilePath _).
Qed.

(** A fresh resolution that walked failed locations is tracked, with the
    containing file among its owning files. *)
Lemma cacheResolution_tracks o r containingFile st l ls :
  failedLookupLocations r = Some (l :: ls) →
  o ∈ resolutionWithFailedLookup
        (Loader.cacheResolutionWithFailedLookup o r containingFile st)
  ∧ ∃ sid,
      objects (Loader.cacheResolutionWithFailedLookup o r containingFile st) !! o
      = Some {| resolvedModule := resolvedModule r;
                failedLookupLocations := Some (l :: ls);
                files := Some sid |}
      ∧ containingFile
        ∈ default ∅
            (fileSets (Loader.cacheResolutionWithFailedLookup o r containingFile st)
               !! sid).
Proof.
  intros Hlocs. unfold Loader.cacheResolutionWithFailedLookup. rewrite Hlocs.
  simpl. split; [apply elem_of_trackedAdd; by left|].
  exists (default o (files r)). rewrite !lookup_insert_eq. simpl.
  split; [done|]. set_solver.
Qed.

Lemma resolveOne_tracks E containingFile moduleName index st l ls :
  Cache.has moduleName containingFile (moduleCache st) = false →
  hostFailedLookupLocations (tsResolveModuleName E moduleName containingFile index)
  = Some (l :: ls) →
  ∃ o sid,
    o ∈ resolutionWithFailedLookup
          (Loader.resolveOne E containingFile moduleName index st).2
    ∧ objects (Loader.resolveOne E containingFile moduleName index st).2 !! o
      = Some {| resolvedModule :=
                  (Loader.resolveOne E containingFile moduleName index st).1;
                failedLookupLocations := Some (l :: ls);
                files := Some sid |}
    ∧ containingFile
      ∈ default ∅
          (fileSets (Loader.resolveOne E containingFile moduleName index st).2 !! sid).
Proof.
  intros Hmiss Hlocs.
  pose proof (resolveModuleName_locations E moduleName containingFile index st) as Hl.
  rewrite Hlocs in Hl. unfold Loader.resolveOne. rewrite Hmiss.
  destruct (Loader.resolveModuleName _ _ _ _ _) as [[o r] next]. simpl in *.
  destruct (cacheResolution_tracks o r containingFile
    {| moduleCache := moduleCache st;
       resolutionWithFailedLookup := resolutionWithFailedLookup st;
       objects := objects st;
       fileSets := fileSets st;
       failedLocationInvalidated := failedLocationInvalidated st;
       pendingFailedLocationCheck := pendingFailedLocationCheck st;
       nextObject := next |} l ls Hl) as (Hin&sid&Ho&Hcf).
  by exists o, sid.
Qed.

Lemma resolveModuleNames_singleton E moduleName containingFile st :
  Loader.resolveModuleNames E [moduleName] containingFile st
  = ([(Loader.resolveOne E containingFile moduleName 0 st).1],
     (Loader.resolveOne E containingFile moduleName 0 st).2).
Proof.
  unfold Loader.resolveModuleNames. simpl.
  by destruct (Loader.resolveOne _ _ _ _ _).
Qed.

(** C1, amended.  Let a specifier that is not cached be resolved from a
    containing file in a reachable state, the host reporting that it probed
    the location [location] in vain; let [location] then be marked pending
    by [deleteUnresolvedResolutionsFromCache] and
    [invalidateFailedLocationResolution] be run.
    - If the resolution produced a resolved module, the cache entry of the
      pair survives the marking, is evicted by the sweep, and the containing
      file is reported by [mightHaveInvalidatedResolutions].
    - If it produced none, the sweep skips its record.  When the specifier
      of the stored key contains the stem of [location] (and the containing
      file is separator-free) the marking itself evicts the entry and the
      containing file is reported; when it does not, the entry is still
      cached afterwards. *)
Theorem failed_location_invalidation
    (E : Env) (moduleName containingFile : string) (st : State)
    (location : string) (locations : list string) :
  reachable st →
  Cache.has moduleName containingFile (moduleCache st) = false →
  hostFailedLookupLocations (tsResolveModuleName E moduleName containingFile 0)
  = Some locations →
  location ∈ locations →
  (∀ m, hostResolvedModule (tsResolveModuleName E moduleName containingFile 0) = Some m →
     Cache.has moduleName containingFile
       (moduleCache
          (run [ResolveModuleNames E [moduleName] containingFile;
                DeleteUnresolvedResolutionsFromCache location] st)) = true
     ∧ Cache.has moduleName containingFile
         (moduleCache
            (run [ResolveModuleNames E [moduleName] containingFile;
                  DeleteUnresolvedResolutionsFromCache location;
                  InvalidateFailedLocationResolution] st)) = false
     ∧ Loader.mightHaveInvalidatedResolutions containingFile
         (run [ResolveModuleNames E [moduleName] containingFile;
               DeleteUnresolvedResolutionsFromCache location;
               InvalidateFailedLocationResolution] st) = true)
  ∧ (hostResolvedModule (tsResolveModuleName E moduleName containingFile 0) = None →
     (includes (Cache.fileNameWithoutEnding location)
        (Cache.keyModuleName (storedKey moduleName containingFile)) = true →
      separatorFree containingFile = true →
      Cache.has moduleName containingFile
        (moduleCache
           (run [ResolveModuleNames E [moduleName] containingFile;
                 DeleteUnresolvedResolutionsFromCache location] st)) = false
      ∧ Cache.has moduleName containingFile
          (moduleCache
             (run [ResolveModuleNames E [moduleName] containingFile;
                   DeleteUnresolvedResolutionsFromCache location;
                   InvalidateFailedLocationResolution] st)) = false
      ∧ Loader.mightHaveInvalidatedResolutions containingFile
          (run [ResolveModuleNames E [moduleName] containingFile;
                DeleteUnresolvedResolutionsFromCache location;
                InvalidateFailedLocationResolution] st) = true)
     ∧ (includes (Cache.fileNameWithoutEnding location)
          (Cache.keyModuleName (storedKey moduleName containingFile)) = false →
        Cache.has moduleName containingFile
          (moduleCache
             (run [ResolveModuleNames E [moduleName] containingFile;
                   DeleteUnresolvedResolutionsFromCache location;
                   InvalidateFailedLocationResolution] st)) = true)).
Proof.
  intros Hreach Hmiss Hlocs Hloc.
  pose proof (reachable_wellFormed st Hreach) as Hwf.
  set (c1 := ResolveModuleNames E [moduleName] containingFile).
  set (c2 := DeleteUnresolvedResolutionsFromCache location).
  set (c3 := InvalidateFailedLocationResolution).
  change (run [c1; c2] st) with (step (step st c1) c2).
  change (run [c1; c2; c3] st) with (step (step (step st c1) c2) c3).
  pose proof (wellFormed_step st c1 Hwf) as Hwf1.
  assert (step st c1 = (Loader.resolveOne E containingFile moduleName 0 st).2) as Hs1.
  { unfold c1, step. by rewrite resolveModuleNames_singleton. }
  pose proof (resolveOne_cached E containingFile moduleName 0 st) as Hcached.
  destruct (resolveOne_miss E containingFile moduleName 0 st Hmiss) as [Hone _].
  rewrite resolveModuleName_resolved in Hone. unfold freshOutcome in Hone.
  destruct locations as [|l ls]; [by apply elem_of_nil in Hloc|].
  destruct (resolveOne_tracks E containingFile moduleName 0 st l ls Hmiss Hlocs)
    as (o&sid&Hin&Ho&Hcf).
  rewrite <- Hs1 in Hcached, Hin, Ho, Hcf.
  remember (Loader.resolveOne E containingFile moduleName 0 st).1 as outcome
    eqn:Houtcome.
  remember (step st c1) as st1 eqn:Hst1. clear Hs1 Hst1 Houtcome.
  pose proof (wellFormed_step st1 c2 Hwf1) as Hwf2.
  destruct Hwf1 as [Hc1 Ht1]. destruct Hwf2 as [Hc2 Ht2].
  pose proof (sweep_frame (resolutionWithFailedLookup (step st1 c2)) _ Hc2)
    as Hsweep.
  split.
  - (* the resolution produced a module *)
    intros m0 Hhost. rewrite Hhost in Hone.
    set (m := if isVirtualSvelteFilePath (resolvedFileName m0)
                 && isSvelteFilePath (getRealSveltePathIfExists E (resolvedFileName m0))
              then resolvedSvelteModule E m0 else m0).
    assert (outcome = Some m) as ->.
    { rewrite Hone. unfold m. by destruct (_ && _). }
    assert (cache (moduleCache (step st1 c2))
              !! storedKey moduleName containingFile = Some (Some m)) as Hkept.
    { simpl. by rewrite deleteUnresolved_lookup, Hcached. }
    destruct (sweep_invalidates (resolutionWithFailedLookup (step st1 c2))
                (step st1 c2) o _ m sid (l :: ls) Hc2 Hin Ho eq_refl eq_refl
                eq_refl) as [Hgone Hfiles].
    { apply someLocationPending_true. exists location. split; [done|].
      simpl. unfold FileSet.has, FileSet.add. apply bool_decide_eq_true.
      apply elem_of_union. left. by apply elem_of_singleton. }
    split_and!.
    + apply has_lookup. by rewrite Hkept.
    + apply has_lookup_false. apply eq_None_not_Some. intros [v Hv].
      pose proof Hv as Hv'. apply Hsweep in Hv'.
      rewrite Hkept in Hv'. injection Hv' as <-.
      by apply (Hgone _ _ Hv).
    + apply mightHave_elem. right. by apply Hfiles.
  - (* the resolution produced none *)
    intros Hhost. rewrite Hhost in Hone. subst outcome.
    split.
    + intros Hstem Hfree.
      assert (cache (moduleCache (step st1 c2))
                !! storedKey moduleName containingFile = None) as Hgone.
      { simpl. rewrite deleteUnresolved_lookup, Hcached by done. simpl.
        by rewrite Hstem. }
      assert (canon containingFile
              ∈ pendingInvalidations (moduleCache (step st1 c2))) as Hp.
      { simpl. apply deleteUnresolved_pending. right.
        exists (storedKey moduleName containingFile). split_and!; [done..|].
        destruct (storedKey_containingFile moduleName containingFile Hfree) as [-> _].
        by rewrite canon_idemp. }
      split_and!.
      * by apply has_lookup_false.
      * apply has_lookup_false. apply eq_None_not_Some. intros [v Hv].
        apply Hsweep in Hv. congruence.
      * apply mightHave_elem. left. by apply Hsweep.
    + intros Hstem.
      assert (cache (moduleCache (step st1 c2))
                !! storedKey moduleName containingFile = Some None) as Hkept.
      { simpl. rewrite deleteUnresolved_lookup, Hcached by done. simpl.
        by rewrite Hstem. }
      apply has_lookup.
      destruct (cache (moduleCache (step (step st1 c2) c3))
                  !! storedKey moduleName containingFile) as [v|] eqn:Hv;
        [by eexists|].
      destruct (sweep_removed _ _ _ _ Hc2 Hkept Hv)
        as (?&?&?&?&?&?&?&?&?&?&?&?). done.
Qed.

End FailedLocationFacts.

(** ** The theorems at work on concrete runs *)

Section Examples.
#[local] Existing Instance Svelte.caseSensitive.
Import Scenario.

(** A package resolved after a failed probe of [/proj/Widget.ts]: creating
    that file evicts the entry and reports the importing file. *)
Lemma failed_location_invalidation_witness :
  reachable Loader.init
  ∧ Cache.has "Widget" "/proj/a.ts" (moduleCache Loader.init) = false
  ∧ hostFailedLookupLocations (tsResolveModuleName packageHost "Widget" "/proj/a.ts" 0)
    = Some ["/proj/Widget.ts"]
  ∧ "/proj/Widget.ts" ∈ ["/proj/Widget.ts"]
  ∧ Cache.has "Widget" "/proj/a.ts"
      (moduleCache
         (run [ResolveModuleNames packageHost ["Widget"] "/proj/a.ts";
               DeleteUnresolvedResolutionsFromCache "/proj/Widget.ts";
               InvalidateFailedLocationResolution] Loader.init)) = false
  ∧ Loader.mightHaveInvalidatedResolutions "/proj/a.ts"
      (run [ResolveModuleNames packageHost ["Widget"] "/proj/a.ts";
            DeleteUnresolvedResolutionsFromCache "/proj/Widget.ts";
            InvalidateFailedLocationResolution] Loader.init) = true.
Proof.
  assert (reachable Loader.init) as Hreach by (by exists []).
  assert ("/proj/Widget.ts" ∈ ["/proj/Widget.ts"]) as Hloc by left.
  split_and!; [done|reflexivity|reflexivity|done|..];
    destruct (failed_location_invalidation packageHost "Widget" "/proj/a.ts"
                Loader.init "/proj/Widget.ts" ["/proj/Widget.ts"]
                Hreach eq_refl eq_refl Hloc) as [Hresolved _];
    destruct (Hresolved _ eq_refl) as (_&Hgone&Hmight); assumption.
Defined.

(** C1 as stated fails.  [./Widget] is resolved from [/proj/a.ts] and not
    found, the host having probed [/proj/Widget/index.ts]; that location is
    marked pending and the sweep is run: the entry of the pair is still
    cached and the containing file is not reported. *)
Lemma failed_resolution_not_invalidated :
  hostResolvedModule (tsResolveModuleName unresolvedHost "./Widget" "/proj/a.ts" 0)
  = None
  ∧ hostFailedLookupLocations (tsResolveModuleName unresolvedHost "./Widget" "/proj/a.ts" 0)
    = Some ["/proj/Widget.ts"; "/proj/Widget/index.ts"]
  ∧ Cache.has "./Widget" "/proj/a.ts"
      (moduleCache
         (run [ResolveModuleNames unresolvedHost ["./Widget"] "/proj/a.ts";
               DeleteUnresolvedResolutionsFromCache "/proj/Widget/index.ts";
               InvalidateFailedLocationResolution] Loader.init)) = true
  ∧ Loader.mightHaveInvalidatedResolutions "/proj/a.ts"
      (run [ResolveModuleNames unresolvedHost ["./Widget"] "/proj/a.ts";
            DeleteUnresolvedResolutionsFromCache "/proj/Widget/index.ts";
            InvalidateFailedLocationResolution] Loader.init) = false.
Proof. split_and!; vm_compute; reflexivity. Qed.

(** The virtual companion of an existing Svelte file is remapped. *)
Lemma virtual_path_remapped_when_real_exists_witness :
  ["./Foo.svelte"] !! 0%nat = Some "./Foo.svelte"
  ∧ Cache.has "./Foo.svelte" "/proj/a.ts"
      (moduleCache (stateBefore (virtualHost true) ["./Foo.svelte"] "/proj/a.ts"
                      Loader.init 0)) = false
  ∧ hostResolvedModule (tsResolveModuleName (virtualHost true) "./Foo.svelte" "/proj/a.ts" 0)
    = Some (moduleAt "/proj/Foo.d.svelte.ts")
  ∧ isVirtualSvelteFilePath "/proj/Foo.d.svelte.ts" = true
  ∧ isSvelteFilePath
      (getRealSveltePathIfExists (virtualHost true) "/proj/Foo.d.svelte.ts") = true
  ∧ (Loader.resolveModuleNames (virtualHost true) ["./Foo.svelte"] "/proj/a.ts"
       Loader.init).1 !! 0%nat
    = Some (Some {| resolvedFileName := "/proj/Foo.svelte";
                    extension := ".js";
                    isExternalLibraryImport := None |}).
Proof.
  assert (isVirtualSvelteFilePath (resolvedFileName (moduleAt "/proj/Foo.d.svelte.ts"))
          = true) as Hvirtual by (vm_compute; reflexivity).
  assert (isSvelteFilePath
            (getRealSveltePathIfExists (virtualHost true)
               (resolvedFileName (moduleAt "/proj/Foo.d.svelte.ts"))) = true)
    as Hexists by (vm_compute; reflexivity).
  split_and!; [reflexivity|reflexivity|reflexivity|exact Hvirtual|exact Hexists|].
  destruct (virtual_path_remapped_when_real_exists (virtualHost true)
              ["./Foo.svelte"] "/proj/a.ts" Loader.init 0 "./Foo.svelte"
              (moduleAt "/proj/Foo.d.svelte.ts") eq_refl eq_refl eq_refl Hvirtual)
    as [Hreal _].
  destruct (Hreal Hexists) as [Hres _]. exact Hres.
Defined.

(** C2 as stated fails.  The host resolves to [/proj/Foo.d.svelte.ts], a
    virtual path, while no [/proj/Foo.svelte] exists: the record returned
    and cached carries the virtual path. *)
Lemma virtual_path_returned_when_real_missing :
  (Loader.resolveModuleNames (virtualHost false) ["./Foo.svelte"] "/proj/a.ts"
     Loader.init).1
  = [Some (moduleAt "/proj/Foo.d.svelte.ts")]
  ∧ Cache.get "./Foo.svelte" "/proj/a.ts"
      (moduleCache
         (Loader.resolveModuleNames (virtualHost false) ["./Foo.svelte"] "/proj/a.ts"
            Loader.init).2)
    = Some (moduleAt "/proj/Foo.d.svelte.ts")
  ∧ isVirtualSvelteFilePath (resolvedFileName (moduleAt "/proj/Foo.d.svelte.ts"))
    = true.
Proof. split_and!; vm_compute; reflexivity. Qed.

(** A record tracked for [/proj/a.ts] whose failed location is pending. *)
Lemma invalidateFailedLocationResolution_sweeps_witness :
  reachable
    (run [ResolveModuleNames packageHost ["Widget"] "/proj/a.ts";
          DeleteUnresolvedResolutionsFromCache "/proj/Widget.ts"] Loader.init)
  ∧ Loader.mightHaveInvalidatedResolutions "/proj/a.ts"
      (Loader.invalidateFailedLocationResolution
         (run [ResolveModuleNames packageHost ["Widget"] "/proj/a.ts";
               DeleteUnresolvedResolutionsFromCache "/proj/Widget.ts"] Loader.init))
    = true
  ∧ pendingFailedLocationCheck
      (Loader.invalidateFailedLocationResolution
         (run [ResolveModuleNames packageHost ["Widget"] "/proj/a.ts";
               DeleteUnresolvedResolutionsFromCache "/proj/Widget.ts"] Loader.init))
    = ∅.
Proof.
  assert (reachable
    (run [ResolveModuleNames packageHost ["Widget"] "/proj/a.ts";
          DeleteUnresolvedResolutionsFromCache "/proj/Widget.ts"] Loader.init))
    as Hreach by (by eexists).
  destruct (invalidateFailedLocationResolution_sweeps _ Hreach)
    as (Hsweep&Hdrained&_).
  split_and!; [done| |done].
  destruct (Hsweep (HostObject 0)
              {| resolvedModule :=
                   Some (moduleAt "/proj/node_modules/Widget/index.d.ts");
                 failedLookupLocations := Some ["/proj/Widget.ts"];
                 files := Some (HostObject 0) |}
              (moduleAt "/proj/node_modules/Widget/index.d.ts")
              ["/proj/Widget.ts"] "/proj/Widget.ts") as [_ Hfiles];
    [by left|reflexivity|reflexivity|reflexivity|by left|reflexivity|].
  apply Hfiles. vm_compute. reflexivity.
Defined.

(** Deleting the file a package resolved to. *)
Lemma delete_invalidates_containing_file_witness :
  reachable (run [ResolveModuleNames packageHost ["Widget"] "/proj/a.ts"] Loader.init)
  ∧ cache (moduleCache
             (run [ResolveModuleNames packageHost ["Widget"] "/proj/a.ts"] Loader.init))
      !! "/proj/a.ts:::Widget"
    = Some (Some (moduleAt "/proj/node_modules/Widget/index.d.ts"))
  ∧ canon (resolvedFileName (moduleAt "/proj/node_modules/Widget/index.d.ts"))
    = canon "/proj/node_modules/Widget/index.d.ts"
  ∧ Cache.has "Widget" "/proj/a.ts"
      (moduleCache
         (Loader.deleteFromModuleCache "/proj/node_modules/Widget/index.d.ts"
            (run [ResolveModuleNames packageHost ["Widget"] "/proj/a.ts"] Loader.init)))
    = false
  ∧ Loader.mightHaveInvalidatedResolutions "/proj/a.ts"
      (run [ResolveModuleNames packageHost ["Other"] "/proj/b.ts"]
         (Loader.deleteFromModuleCache "/proj/node_modules/Widget/index.d.ts"
            (run [ResolveModuleNames packageHost ["Widget"] "/proj/a.ts"] Loader.init)))
    = true.
Proof.
  assert (reachable
    (run [ResolveModuleNames packageHost ["Widget"] "/proj/a.ts"] Loader.init))
    as Hreach by (by eexists).
  destruct (delete_invalidates_containing_file _
              "/proj/node_modules/Widget/index.d.ts" "/proj/a.ts:::Widget"
              (moduleAt "/proj/node_modules/Widget/index.d.ts")
              Hreach eq_refl eq_refl) as (_&_&_&_&Hpair).
  destruct (Hpair "Widget" "/proj/a.ts" eq_refl eq_refl) as [Hgone Hmight].
  split_and!; [done|reflexivity|reflexivity|exact Hgone|].
  exact (Hmight [ResolveModuleNames packageHost ["Other"] "/proj/b.ts"] eq_refl).
Defined.

(** C5 as stated fails.  [Widget] is resolved from [/proj/a:::b/x.ts], a
    file in a directory whose name contains the separator, and the file it
    resolved to is deleted: the entry is removed, but the file reported is
    [/proj/a], and [mightHaveInvalidatedResolutions] answers false for the
    containing file. *)
Lemma delete_misses_containing_file :
  Cache.get "Widget" "/proj/a:::b/x.ts"
    (moduleCache
       (run [ResolveModuleNames packageHost ["Widget"] "/proj/a:::b/x.ts"]
          Loader.init))
  = Some (moduleAt "/proj/node_modules/Widget/index.d.ts")
  ∧ Cache.has "Widget" "/proj/a:::b/x.ts"
      (moduleCache
         (run [ResolveModuleNames packageHost ["Widget"] "/proj/a:::b/x.ts";
               DeleteFromModuleCache "/proj/node_modules/Widget/index.d.ts"]
            Loader.init)) = false
  ∧ Loader.mightHaveInvalidatedResolutions "/proj/a:::b/x.ts"
      (run [ResolveModuleNames packageHost ["Widget"] "/proj/a:::b/x.ts";
            DeleteFromModuleCache "/proj/node_modules/Widget/index.d.ts"]
         Loader.init) = false
  ∧ Loader.mightHaveInvalidatedResolutions "/proj/a"
      (run [ResolveModuleNames packageHost ["Widget"] "/proj/a:::b/x.ts";
            DeleteFromModuleCache "/proj/node_modules/Widget/index.d.ts"]
         Loader.init) = true.
Proof. split_and!; vm_compute; reflexivity. Qed.

(** C6 as stated fails, both ways.  The unresolved specifier [./x:::y]
    contains the stem [y] of [/proj/y.ts], yet its entry is kept: the code
    reads [./x] as the specifier.  The unresolved specifier [./Bar],
    imported from [/proj/Foo:::x/a.ts], does not contain the stem [x] of
    [/proj/x.ts], yet its entry is removed: the code reads [x/a.ts] as the
    specifier; and it is [/proj/Foo] that is reported, not the containing
    file. *)
Lemma deleteUnresolved_misreads_separator :
  Cache.fileNameWithoutEnding "/proj/y.ts" = "y"
  ∧ includes "y" "./x:::y" = true
  ∧ cache (moduleCache
             (run [ResolveModuleNames unresolvedHost ["./x:::y"] "/proj/a.ts"]
                Loader.init))
      !! storedKey "./x:::y" "/proj/a.ts"
    = Some None
  ∧ cache (moduleCache
             (run [ResolveModuleNames unresolvedHost ["./x:::y"] "/proj/a.ts";
                   DeleteUnresolvedResolutionsFromCache "/proj/y.ts"]
                Loader.init))
      !! storedKey "./x:::y" "/proj/a.ts"
    = Some None
  ∧ Cache.fileNameWithoutEnding "/proj/x.ts" = "x"
  ∧ includes "x" "./Bar" = false
  ∧ cache (moduleCache
             (run [ResolveModuleNames unresolvedHost ["./Bar"] "/proj/Foo:::x/a.ts"]
                Loader.init))
      !! storedKey "./Bar" "/proj/Foo:::x/a.ts"
    = Some None
  ∧ cache (moduleCache
             (run [ResolveModuleNames unresolvedHost ["./Bar"] "/proj/Foo:::x/a.ts";
                   DeleteUnresolvedResolutionsFromCache "/proj/x.ts"]
                Loader.init))
      !! storedKey "./Bar" "/proj/Foo:::x/a.ts"
    = None
  ∧ Loader.mightHaveInvalidatedResolutions "/proj/Foo:::x/a.ts"
      (run [ResolveModuleNames unresolvedHost ["./Bar"] "/proj/Foo:::x/a.ts";
            DeleteUnresolvedResolutionsFromCache "/proj/x.ts"]
         Loader.init) = false
  ∧ Loader.mightHaveInvalidatedResolutions "/proj/Foo"
      (run [ResolveModuleNames unresolvedHost ["./Bar"] "/proj/Foo:::x/a.ts";
            DeleteUnresolvedResolutionsFromCache "/proj/x.ts"]
         Loader.init) = true.
Proof. split_and!; vm_compute; reflexivity. Qed.

(** The example of the specification: [./Foo] and [./Bar] are cached as
    unresolved, and [/proj/Foo.svelte] is created. *)
Lemma deleteUnresolved_removes_matching_witness :
  reachable
    (run [ResolveModuleNames unresolvedHost ["./Foo"; "./Bar"] "/proj/a.ts"] Loader.init)
  ∧ Cache.fileNameWithoutEnding "/proj/Foo.svelte" = "Foo"
  ∧ Cache.has "./Foo" "/proj/a.ts"
      (moduleCache
         (Loader.deleteUnresolvedResolutionsFromCache "/proj/Foo.svelte"
            (run [ResolveModuleNames unresolvedHost ["./Foo"; "./Bar"] "/proj/a.ts"]
               Loader.init)))
    = negb (includes "Foo" "./Foo")
  ∧ Cache.has "./Bar" "/proj/a.ts"
      (moduleCache
         (Loader.deleteUnresolvedResolutionsFromCache "/proj/Foo.svelte"
            (run [ResolveModuleNames unresolvedHost ["./Foo"; "./Bar"] "/proj/a.ts"]
               Loader.init)))
    = negb (includes "Foo" "./Bar")
  ∧ Loader.mightHaveInvalidatedResolutions "/proj/a.ts"
      (Loader.deleteUnresolvedResolutionsFromCache "/proj/Foo.svelte"
         (run [ResolveModuleNames unresolvedHost ["./Foo"; "./Bar"] "/proj/a.ts"]
            Loader.init))
    = true.
Proof.
  assert (reachable
    (run [ResolveModuleNames unresolvedHost ["./Foo"; "./Bar"] "/proj/a.ts"] Loader.init))
    as Hreach by (by eexists).
  destruct (deleteUnresolved_removes_matching _ "/proj/Foo.svelte" Hreach)
    as (_&_&_&_&_&Hpair).
  destruct (Hpair "./Foo" "/proj/a.ts" eq_refl eq_refl eq_refl) as [HFoo Hmight].
  destruct (Hpair "./Bar" "/proj/a.ts" eq_refl eq_refl eq_refl) as [HBar _].
  split_and!; [done|reflexivity|exact HFoo|exact HBar|exact (Hmight eq_refl)].
Defined.

(** A dot file is created: every unresolved entry goes. *)
Lemma deleteUnresolved_dot_file_witness :
  reachable
    (run [ResolveModuleNames unresolvedHost ["./Foo"; "./Bar"] "/proj/a.ts"] Loader.init)
  ∧ startsWith "."
      (getLastPartOfPath (canon "/proj/.gitignore")) = true
  ∧ Cache.fileNameWithoutEnding "/proj/.gitignore" = ""
  ∧ cache (moduleCache
             (Loader.deleteUnresolvedResolutionsFromCache "/proj/.gitignore"
                (run [ResolveModuleNames unresolvedHost ["./Foo"; "./Bar"] "/proj/a.ts"]
                   Loader.init)))
      !! "/proj/a.ts:::./Bar"
    = None.
Proof.
  assert (reachable
    (run [ResolveModuleNames unresolvedHost ["./Foo"; "./Bar"] "/proj/a.ts"] Loader.init))
    as Hreach by (by eexists).
  destruct (deleteUnresolved_dot_file _ "/proj/.gitignore" Hreach) as (_&_&Hdot).
  destruct (Hdot eq_refl) as (Hstem&_&Hall).
  split_and!; [done|reflexivity|exact Hstem|].
  apply Hall. reflexivity.
Defined.

(** An unresolved entry outlives the deletion of an unrelated file. *)
Lemma delete_keeps_unresolved_witness :
  reachable
    (run [ResolveModuleNames unresolvedHost ["./Foo"] "/proj/a.ts"] Loader.init)
  ∧ cache (moduleCache
             (Loader.deleteFromModuleCache "/proj/Foo.ts"
                (run [ResolveModuleNames unresolvedHost ["./Foo"] "/proj/a.ts"]
                   Loader.init)))
      !! "/proj/a.ts:::./Foo"
    = Some None.
Proof.
  assert (reachable
    (run [ResolveModuleNames unresolvedHost ["./Foo"] "/proj/a.ts"] Loader.init))
    as Hreach by (by eexists).
  destruct (delete_keeps_unresolved _ "/proj/Foo.ts" Hreach) as (Hkeep&_&_).
  split; [done|]. apply Hkeep. reflexivity.
Defined.

(** [./Foo] is not found; [./Bar] was never asked for. *)
Lemma unresolved_outcome_is_cached_witness :
  ["./Foo"] !! 0%nat = Some "./Foo"
  ∧ Cache.has "./Foo" "/proj/a.ts"
      (moduleCache (stateBefore unresolvedHost ["./Foo"] "/proj/a.ts" Loader.init 0))
    = false
  ∧ hostResolvedModule (tsResolveModuleName unresolvedHost "./Foo" "/proj/a.ts" 0) = None
  ∧ Cache.has "./Foo" "/proj/a.ts"
      (moduleCache
         (Loader.resolveModuleNames unresolvedHost ["./Foo"] "/proj/a.ts" Loader.init).2)
    = true
  ∧ Cache.get "./Foo" "/proj/a.ts"
      (moduleCache
         (Loader.resolveModuleNames unresolvedHost ["./Foo"] "/proj/a.ts" Loader.init).2)
    = None
  ∧ Cache.has "./Bar" "/proj/a.ts"
      (moduleCache
         (run [ResolveModuleNames unresolvedHost ["./Foo"] "/proj/a.ts"] Loader.init))
    = false.
Proof.
  destruct (unresolved_outcome_is_cached unresolvedHost ["./Foo"] "/proj/a.ts"
              Loader.init 0 "./Foo" eq_refl eq_refl eq_refl)
    as [(_&Hhas&Hget) Hnever].
  split_and!; [reflexivity..|exact Hhas|exact Hget|].
  apply (Hnever [ResolveModuleNames unresolvedHost ["./Foo"] "/proj/a.ts"]).
  vm_compute. intros Hin. discriminate Hin.
Defined.

(** A batch of three in which the middle specifier is a cache hit. *)
Lemma resolveModuleNames_positional_witness :
  length (Loader.resolveModuleNames packageHost ["a"; "b"; "c"] "/proj/a.ts"
            (run [ResolveModuleNames unresolvedHost ["b"] "/proj/a.ts"] Loader.init)).1
  = 3%nat
  ∧ (Loader.resolveModuleNames packageHost ["a"; "b"; "c"] "/proj/a.ts"
       (run [ResolveModuleNames unresolvedHost ["b"] "/proj/a.ts"] Loader.init)).1
      !! 1%nat
    = Some (Cache.get "b" "/proj/a.ts"
              (moduleCache
                 (run [ResolveModuleNames unresolvedHost ["b"] "/proj/a.ts"] Loader.init)))
  ∧ (Loader.resolveModuleNames packageHost ["a"; "b"; "c"] "/proj/a.ts"
       (run [ResolveModuleNames unresolvedHost ["b"] "/proj/a.ts"] Loader.init)).1
      !! 2%nat
    = Some (freshOutcome packageHost "c" "/proj/a.ts" 2).
Proof.
  destruct (resolveModuleNames_positional packageHost ["a"; "b"; "c"] "/proj/a.ts"
              (run [ResolveModuleNames unresolvedHost ["b"] "/proj/a.ts"] Loader.init))
    as [Hlen Hpos].
  destruct (Hpos 1%nat "b" eq_refl) as (_&_&_&Hhit&_).
  destruct (Hpos 2%nat "c" eq_refl) as (_&_&_&_&_&Hfresh).
  split_and!; [exact Hlen|exact (Hhit eq_refl)|exact (Hfresh eq_refl)].
Defined.

(** On a host with case-insensitive file names the stem and the stored
    specifier are both lower-cased: creating [/proj/FOO.svelte] removes the
    unresolved entry of [./Foo]. *)
Example deleteUnresolved_case_insensitive :
  @Cache.fileNameWithoutEnding Svelte.caseInsensitive "/proj/FOO.svelte" = "foo"
  ∧ @Cache.has Svelte.caseInsensitive "./Foo" "/proj/a.ts"
      (moduleCache
         (@run Svelte.caseInsensitive
            [ResolveModuleNames unresolvedHost ["./Foo"] "/proj/a.ts"] Loader.init))
    = true
  ∧ @Cache.has Svelte.caseInsensitive "./Foo" "/proj/a.ts"
      (moduleCache
         (@run Svelte.caseInsensitive
            [ResolveModuleNames unresolvedHost ["./Foo"] "/proj/a.ts";
             DeleteUnresolvedResolutionsFromCache "/proj/FOO.svelte"] Loader.init))
    = false.
Proof. split_and!; vm_compute; reflexivity. Qed.

End Examples.

(** ** Further properties of the resolution cache and of batches *)

Section CacheRoundTrip.
Context `{PathUtils}.

(** X1.  [set] followed by [has] and [get] on the same pair gives [true]
    and the value written; a second [set] on the pair overwrites the first;
    pairs stored under another key and the pending invalidations are not
    affected. *)
Theorem cache_set_round_trip
    (moduleName containingFile : string) (r r' : option ResolvedModule)
    (c : ModuleResolutionCache) :
  Cache.has moduleName containingFile (Cache.set moduleName containingFile r c) = true
  ∧ Cache.get moduleName containingFile (Cache.set moduleName containingFile r c) = r
  ∧ Cache.set moduleName containingFile r' (Cache.set moduleName containingFile r c)
    = Cache.set moduleName containingFile r' c
  ∧ pendingInvalidations (Cache.set moduleName containingFile r c)
    = pendingInvalidations c
  ∧ (∀ moduleName' containingFile',
       storedKey moduleName' containingFile' ≠ storedKey moduleName containingFile →
       Cache.has moduleName' containingFile' (Cache.set moduleName containingFile r c)
       = Cache.has moduleName' containingFile' c
       ∧ Cache.get moduleName' containingFile' (Cache.set moduleName containingFile r c)
         = Cache.get moduleName' containingFile' c).
Proof.
  split_and!.
  - apply has_lookup. simpl. unfold FileMap.set. fold (storedKey moduleName containingFile).
    rewrite lookup_insert_eq. by eexists.
  - rewrite get_lookup. simpl. unfold FileMap.set.
    fold (storedKey moduleName containingFile). by rewrite lookup_insert_eq.
  - unfold Cache.set, FileMap.set. simpl. by rewrite insert_insert_eq.
  - done.
  - intros moduleName' containingFile' Hne.
    assert (cache (Cache.set moduleName containingFile r c)
              !! storedKey moduleName' containingFile'
            = cache c !! storedKey moduleName' containingFile') as Hlook.
    { simpl. unfold FileMap.set. fold (storedKey moduleName containingFile).
      by rewrite lookup_insert_ne. }
    split.
    + unfold storedKey, Cache.getCanonicalFileName in Hlook.
      unfold Cache.has, FileMap.has. by rewrite Hlook.
    + by rewrite !get_lookup, Hlook.
Qed.

Lemma resolveModuleNames_from_all_cached E index moduleNames containingFile st :
  allCached moduleNames containingFile st →
  Loader.resolveModuleNames_from E index moduleNames containingFile st
  = ((λ moduleName, Cache.get moduleName containingFile (moduleCache st))
       <$> moduleNames, st).
Proof.
  revert index. induction moduleNames as [|moduleName rest IH]; intros index Hall;
    [done|].
  simpl. rewrite resolveOne_hit by (apply Hall; left).
  rewrite IH; [done|]. intros name Hin. apply Hall. by right.
Qed.

(** X2.  When every specifier of a batch is cached, [resolveModuleNames]
    returns the cached values, leaves the loader as it was and does not
    depend on the host: any two hosts give the same answer. *)
Theorem cached_batch_is_read_only
    (E E' : Env) (moduleNames : list string) (containingFile : string) (st : State) :
  allCached moduleNames containingFile st →
  Loader.resolveModuleNames E moduleNames containingFile st
  = ((λ moduleName, Cache.get moduleName containingFile (moduleCache st))
       <$> moduleNames, st)
  ∧ Loader.resolveModuleNames E' moduleNames containingFile st
    = Loader.resolveModuleNames E moduleNames containingFile st.
Proof.
  intros Hall. unfold Loader.resolveModuleNames.
  by rewrite !resolveModuleNames_from_all_cached.
Qed.

(** X3.  Two specifiers of one batch that are stored under the same key
    (the same specifier twice, or two spellings that normalize to one) get
    the same outcome, whatever the host answers at their two positions. *)
Theorem same_key_same_outcome
    (E : Env) (moduleNames : list string) (containingFile : string) (st : State)
    (i j : nat) (moduleName moduleName' : string) :
  moduleNames !! i = Some moduleName →
  moduleNames !! j = Some moduleName' →
  storedKey moduleName containingFile = storedKey moduleName' containingFile →
  (Loader.resolveModuleNames E moduleNames containingFile st).1 !! i
  = (Loader.resolveModuleNames E moduleNames containingFile st).1 !! j.
Proof.
  intros Hi Hj Hkey.
  destruct (resolveModuleNames_lookup E moduleNames containingFile st i _ Hi)
    as (_&Hgi&_).
  destruct (resolveModuleNames_lookup E moduleNames containingFile st j _ Hj)
    as (_&Hgj&_).
  by rewrite Hgi, Hgj, !get_lookup, Hkey.
Qed.

(** X4.  Resolving never signals an invalidation: after any batch,
    [mightHaveInvalidatedResolutions] answers as before for every path, and
    the set of paths pending a failed-location check is unchanged. *)
Theorem resolution_never_invalidates
    (E : Env) (moduleNames : list string) (containingFile : string) (st : State)
    (path : string) :
  Loader.mightHaveInvalidatedResolutions path
    (Loader.resolveModuleNames E moduleNames containingFile st).2
  = Loader.mightHaveInvalidatedResolutions path st
  ∧ pendingFailedLocationCheck
      (Loader.resolveModuleNames E moduleNames containingFile st).2
    = pendingFailedLocationCheck st.
Proof.
  unfold Loader.resolveModuleNames.
  destruct (resolveModuleNames_from_invalidations E 0 moduleNames containingFile st)
    as (Hp&Hf&Hc).
  split; [|done].
  unfold Loader.mightHaveInvalidatedResolutions, Cache.oneOfResolvedModuleChanged.
  by rewrite Hp, Hf.
Qed.

Lemma removeWhen_fold_none test pathOf
    (l : list (string * option ResolvedModule)) c :
  (∀ k v, (k, v) ∈ l → test k v = false) →
  foldl (λ c kv, Cache.removeWhen test pathOf kv.2 kv.1 c) c l = c.
Proof.
  induction l as [|[k v] l IH]; intros Hl; [done|].
  simpl. unfold Cache.removeWhen at 2. simpl.
  rewrite (Hl k v) by left. apply IH. intros ???. apply Hl. by right.
Qed.

Lemma withModuleCache_id st : Loader.withModuleCache (moduleCache st) st = st.
Proof. by destruct st. Qed.

Lemma delete_nothing path c :
  (∀ key m, cache c !! key = Some (Some m) →
     canon (resolvedFileName m) ≠ canon path) →
  Cache.delete path c = c.
Proof.
  intros Hnone. rewrite delete_forEach. unfold FileMap.forEach.
  apply removeWhen_fold_none. intros k [m|] Hin%elem_of_map_to_list; [|done].
  simpl. apply bool_decide_eq_false. by apply (Hnone k).
Qed.

Lemma deleteFromModuleCache_unknown_path (st : State) (path : string) :
  (∀ key m, cache (moduleCache st) !! key = Some (Some m) →
     canon (resolvedFileName m) ≠ canon path) →
  Loader.deleteFromModuleCache path st = st.
Proof.
  intros Hnone. unfold Loader.deleteFromModuleCache.
  rewrite delete_nothing by done. apply withModuleCache_id.
Qed.

(** X5.  [deleteFromModuleCache] for a path that no cached record is
    resolved to leaves the resolution cache and the failed-lookup records
    of the loader as they are: the map of the cache and its pending
    invalidations are unchanged, so that no entry is removed, no file is
    marked as invalidated, and every cached pair is still answered from
    the cache.  (The hook also calls [svelteSys.deleteFromCache(path)],
    which acts on the file-existence cache kept by [svelteSys]; that cache
    is no part of the loader and is not spoken of here.) *)
Theorem delete_unknown_path_keeps_cache (st : State) (path : string) :
  (∀ key m, cache (moduleCache st) !! key = Some (Some m) →
     canon (resolvedFileName m) ≠ canon path) →
  cache (moduleCache (Loader.deleteFromModuleCache path st)) = cache (moduleCache st)
  ∧ pendingInvalidations (moduleCache (Loader.deleteFromModuleCache path st))
    = pendingInvalidations (moduleCache st)
  ∧ resolutionWithFailedLookup (Loader.deleteFromModuleCache path st)
    = resolutionWithFailedLookup st
  ∧ (∀ o, owningFiles o (Loader.deleteFromModuleCache path st) = owningFiles o st)
  ∧ (∀ p, Loader.mightHaveInvalidatedResolutions p
            (Loader.deleteFromModuleCache path st)
          = Loader.mightHaveInvalidatedResolutions p st)
  ∧ (∀ moduleName containingFile,
       Cache.has moduleName containingFile
         (moduleCache (Loader.deleteFromModuleCache path st))
       = Cache.has moduleName containingFile (moduleCache st))
  ∧ (∀ moduleName containingFile,
       Cache.get moduleName containingFile
         (moduleCache (Loader.deleteFromModuleCache path st))
       = Cache.get moduleName containingFile (moduleCache st)).
Proof.
  intros Hnone.
  pose proof (deleteFromModuleCache_unknown_path st path Hnone) as Heq.
  split_and!; intros; by rewrite Heq.
Qed.

(** X6.  In a reachable state [deleteFromModuleCache] is idempotent: a
    second notification for the same path finds nothing left to remove. *)
Theorem delete_twice_is_delete_once (st : State) (path : string) :
  reachable st →
  Loader.deleteFromModuleCache path (Loader.deleteFromModuleCache path st)
  = Loader.deleteFromModuleCache path st.
Proof.
  intros Hreach. destruct (reachable_wellFormed st Hreach) as [Hc _].
  apply deleteFromModuleCache_unknown_path.
  intros key m. simpl. rewrite delete_lookup by done.
  destruct (cache (moduleCache st) !! key) as [[m'|]|]; simpl; [|done..].
  case_bool_decide; [done|]. congruence.
Qed.

End CacheRoundTrip.

(** ** Further properties of the failed-lookup sweep *)

Section SweepEdge.
Context `{PathUtils}.

Lemma someLocationPending_empty locations st :
  pendingFailedLocationCheck st = ∅ →
  Loader.someLocationPending locations st = false.
Proof.
  intros Hempty. unfold Loader.someLocationPending. rewrite Hempty.
  induction locations as [|l ls IH]; [done|]. simpl. rewrite IH.
  unfold FileSet.has. by rewrite bool_decide_false by apply not_elem_of_empty.
Qed.

Lemma invalidate_visit_empty st o :
  pendingFailedLocationCheck st = ∅ → Loader.invalidate_visit st o = st.
Proof.
  intros Hempty. unfold Loader.invalidate_visit.
  destruct (objects st !! o) as [[[m|] [locations|] [sid|]]|]; try done.
  by rewrite someLocationPending_empty.
Qed.

Lemma sweep_empty st :
  pendingFailedLocationCheck st = ∅ →
  Loader.invalidateFailedLocationResolution st = st.
Proof.
  intros Hempty. unfold Loader.invalidateFailedLocationResolution.
  assert (foldl Loader.invalidate_visit st (resolutionWithFailedLookup st) = st)
    as ->.
  { induction (resolutionWithFailedLookup st) as [|o l IH]; [done|].
    simpl. by rewrite invalidate_visit_empty. }
  destruct st. simpl in *. by subst.
Qed.

(** X7.  With no path pending a failed-location check the sweep changes
    nothing.  So the sweep is idempotent, and a
    [clearPendingInvalidations] between the marking of a path and the sweep
    cancels the retroactive invalidation: the sweep then leaves the cleared
    state as it is. *)
Theorem sweep_without_pending_paths (st : State) :
  (pendingFailedLocationCheck st = ∅ →
     Loader.invalidateFailedLocationResolution st = st)
  ∧ Loader.invalidateFailedLocationResolution
      (Loader.invalidateFailedLocationResolution st)
    = Loader.invalidateFailedLocationResolution st
  ∧ (∀ path,
       Loader.invalidateFailedLocationResolution
         (Loader.clearPendingInvalidations
            (Loader.deleteUnresolvedResolutionsFromCache path st))
       = Loader.clearPendingInvalidations
           (Loader.deleteUnresolvedResolutionsFromCache path st)).
Proof.
  split_and!.
  - apply sweep_empty.
  - by apply sweep_empty.
  - intros path. by apply sweep_empty.
Qed.

(** X8.  After an entry was evicted by [deleteFromModuleCache], the next
    resolution of its pair asks the host again and returns (and caches) the
    host's new answer, not the evicted record. *)
Theorem evicted_pair_is_resolved_anew
    (E : Env) (st : State) (moduleName containingFile path : string)
    (m : ResolvedModule) :
  reachable st →
  Cache.get moduleName containingFile (moduleCache st) = Some m →
  canon (resolvedFileName m) = canon path →
  (Loader.resolveModuleNames E [moduleName] containingFile
     (Loader.deleteFromModuleCache path st)).1
  = [freshOutcome E moduleName containingFile 0]
  ∧ Cache.get moduleName containingFile
      (moduleCache
         (Loader.resolveModuleNames E [moduleName] containingFile
            (Loader.deleteFromModuleCache path st)).2)
    = freshOutcome E moduleName containingFile 0.
Proof.
  intros Hreach Hget Hpath. destruct (reachable_wellFormed st Hreach) as [Hc _].
  rewrite get_lookup in Hget.
  destruct (cache (moduleCache st) !! storedKey moduleName containingFile)
    as [[m'|]|] eqn:Hk; simplify_eq/=.
  assert (Cache.has moduleName containingFile
            (moduleCache (Loader.deleteFromModuleCache path st)) = false) as Hmiss.
  { apply has_lookup_false. simpl. rewrite delete_lookup, Hk by done. simpl.
    by rewrite bool_decide_true. }
  rewrite resolveModuleNames_singleton. simpl.
  pose proof (resolveOne_cached E containingFile moduleName 0
                (Loader.deleteFromModuleCache path st)) as Hcached.
  destruct (resolveOne_miss E containingFile moduleName 0 _ Hmiss) as [Hone _].
  rewrite resolveModuleName_resolved in Hone.
  split; [by rewrite Hone|]. by rewrite get_lookup, Hcached, Hone.
Qed.

End SweepEdge.

(** ** Shared failed-lookup records *)

Section SharingFacts.
Context `{PathUtils}.

Lemma setsOwned_init : setsOwned Loader.init.
Proof. split; intros *; simpl; by rewrite lookup_empty. Qed.

(** The shape of what [resolveModuleName] hands to
    [cacheResolutionWithFailedLookup]: a host object with the [files] it
    already carries, or a new object carrying the [files] of a host
    object. *)
Lemma resolveModuleName_shape E moduleName containingFile index st :
  (∃ h r, Loader.resolveModuleName E moduleName containingFile index st
          = (HostObject h, r, nextObject st)
          ∧ files r = Loader.filesOf (HostObject h) st)
  ∨ (∃ h r, Loader.resolveModuleName E moduleName containingFile index st
            = (SpreadObject (nextObject st), r, S (nextObject st))
            ∧ files r = Loader.filesOf (HostObject h) st).
Proof.
  unfold Loader.resolveModuleName.
  destruct (hostResolvedModule _) as [m|]; [|left; by eauto].
  destruct (isVirtualSvelteFilePath _); simpl; [|left; by eauto].
  destruct (isSvelteFilePath _); simpl; [right|left]; by eauto.
Qed.

(** Tracking an object keeps the sets of the tracked objects, provided the
    object does not take over a set that others refer to. *)
Lemma cacheResolution_sharing o' r' containingFile st :
  trackedComplete st →
  (∀ o r sid, objects st !! o = Some r → files r = Some sid →
     ∃ r0, objects st !! sid = Some r0 ∧ files r0 = Some sid) →
  (files r' = None → ∀ o r, objects st !! o = Some r → files r ≠ Some o') →
  (∀ sid, files r' = Some sid →
     ∃ r0, objects st !! sid = Some r0 ∧ files r0 = Some sid) →
  (∀ r0 sid, objects st !! o' = Some r0 → files r0 = Some sid →
     files r' = Some sid) →
  (∀ o r sid,
     objects (Loader.cacheResolutionWithFailedLookup o' r' containingFile st) !! o
     = Some r → files r = Some sid →
     ∃ r0, objects (Loader.cacheResolutionWithFailedLookup o' r' containingFile st)
             !! sid = Some r0 ∧ files r0 = Some sid)
  ∧ (∀ o f, o ∈ resolutionWithFailedLookup st → f ∈ owningFiles o st →
       o ∈ resolutionWithFailedLookup
             (Loader.cacheResolutionWithFailedLookup o' r' containingFile st)
       ∧ f ∈ owningFiles o
               (Loader.cacheResolutionWithFailedLookup o' r' containingFile st)).
Proof.
  intros Ht Howned Hnew Hfiles Hsame.
  unfold Loader.cacheResolutionWithFailedLookup.
  destruct (failedLookupLocations r') as [[|l ls]|] eqn:Hlocs; [by auto| |by auto].
  split.
  - (* every [files] field still names a set that owns itself *)
    intros o r sid. simpl.
    destruct (decide (o = o')) as [->|Hne].
    + rewrite lookup_insert_eq. intros [= <-]. simpl. intros [= <-].
      destruct (files r') as [x|] eqn:Hx; simpl.
      * destruct (decide (x = o')) as [->|Hx'].
        -- rewrite lookup_insert_eq. by eauto.
        -- rewrite lookup_insert_ne by done. by apply Hfiles.
      * rewrite lookup_insert_eq. by eauto.
    + rewrite lookup_insert_ne by done. intros Ho Hsid.
      destruct (Howned o r sid Ho Hsid) as (r0&Hr0&Hs0).
      destruct (decide (sid = o')) as [->|Hs'].
      * rewrite lookup_insert_eq. eexists. split; [done|]. simpl.
        by rewrite (Hsame r0 o' Hr0 Hs0).
      * rewrite lookup_insert_ne by done. by eauto.
  - (* tracked objects keep their owning files *)
    intros o f Hin Hf. simpl. split; [apply elem_of_trackedAdd; by right|].
    destruct (Ht o Hin) as (r&sid&l0&ls0&Ho&Hsid&_).
    unfold owningFiles in *. rewrite Ho in Hf. simpl.
    destruct r as [rm rl rf]. simpl in Hsid. subst rf.
    assert (∃ r1, <[o':={| resolvedModule := resolvedModule r';
                            failedLookupLocations := Some (l :: ls);
                            files := Some (default o' (files r')) |}]> (objects st) !! o
                  = Some r1 ∧ files r1 = Some sid) as (r1&->&Hr1).
    { destruct (decide (o = o')) as [->|Hne].
      - rewrite lookup_insert_eq. eexists. split; [done|]. simpl.
        by rewrite (Hsame _ sid Ho eq_refl).
      - rewrite lookup_insert_ne by done. by eauto. }
    destruct r1 as [rm1 rl1 rf1]. simpl in Hr1. subst rf1.
    destruct (files r') as [x|] eqn:Hx; simpl.
    + destruct (decide (sid = x)) as [->|Hsx].
      * rewrite lookup_insert_eq. simpl. set_solver.
      * by rewrite lookup_insert_ne.
    + destruct (decide (sid = o')) as [->|Hso].
      * exfalso. by apply (Hnew eq_refl o _ Ho).
      * by rewrite !lookup_insert_ne.
Qed.

Lemma cacheResolution_objects_dom o' r' containingFile st o r :
  objects (Loader.cacheResolutionWithFailedLookup o' r' containingFile st) !! o
  = Some r →
  o = o' ∨ objects st !! o = Some r.
Proof.
  unfold Loader.cacheResolutionWithFailedLookup.
  destruct (failedLookupLocations r') as [[|l ls]|]; [by auto| |by auto].
  simpl. destruct (decide (o = o')) as [->|Hne]; [by left|].
  rewrite lookup_insert_ne by done. by right.
Qed.

Lemma cacheResolution_nextObject o' r' containingFile st :
  nextObject (Loader.cacheResolutionWithFailedLookup o' r' containingFile st)
  = nextObject st.
Proof.
  unfold Loader.cacheResolutionWithFailedLookup.
  by destruct (failedLookupLocations r') as [[|l ls]|].
Qed.

Lemma resolveOne_sharing E containingFile moduleName index st :
  wellFormed st → setsOwned st →
  setsOwned (Loader.resolveOne E containingFile moduleName index st).2
  ∧ (∀ o f, o ∈ resolutionWithFailedLookup st → f ∈ owningFiles o st →
       o ∈ resolutionWithFailedLookup
             (Loader.resolveOne E containingFile moduleName index st).2
       ∧ f ∈ owningFiles o (Loader.resolveOne E containingFile moduleName index st).2).
Proof.
  intros [Hc Ht] [Howned Hbelow]. unfold Loader.resolveOne.
  destruct (Cache.has _ _ _); [by split|].
  set (mk next := {| moduleCache := moduleCache st;
                     resolutionWithFailedLookup := resolutionWithFailedLookup st;
                     objects := objects st;
                     fileSets := fileSets st;
                     failedLocationInvalidated := failedLocationInvalidated st;
                     pendingFailedLocationCheck := pendingFailedLocationCheck st;
                     nextObject := next |}).
  destruct (resolveModuleName_shape E moduleName containingFile index st)
    as [(h&r&->&Hfiles)|(h&r&->&Hfiles)]; simpl; fold (mk (nextObject st));
    fold (mk (S (nextObject st))).
  - (* the host's object *)
    destruct (cacheResolution_sharing (HostObject h) r containingFile
                (mk (nextObject st))) as [Howned' Hkeep]; try done.
    + intros Hnone o r0 Ho Hr0. destruct (Howned o r0 _ Ho Hr0) as (r1&Hr1&Hs1).
      unfold Loader.filesOf in Hfiles. rewrite Hr1 in Hfiles. simpl in Hfiles.
      congruence.
    + intros sid Hsid. unfold Loader.filesOf in Hfiles.
      destruct (objects st !! HostObject h) as [r0|] eqn:Hr0; simpl in Hfiles;
        [|congruence].
      apply (Howned (HostObject h) r0); congruence.
    + intros r0 sid Hr0 Hs0. unfold Loader.filesOf in Hfiles. simpl in Hr0.
      rewrite Hr0 in Hfiles. simpl in Hfiles. congruence.
    + split; [split|]; [exact Howned'| |exact Hkeep].
      intros n r0 Hn. unfold Loader.withModuleCache in *.
      cbn [nextObject objects] in *. rewrite cacheResolution_nextObject.
      apply cacheResolution_objects_dom in Hn as [?|Hn]; [done|].
      subst mk. cbn [nextObject objects] in *. by apply (Hbelow n r0).
  - (* a new object *)
    assert (objects st !! SpreadObject (nextObject st) = None) as Hfresh.
    { destruct (objects st !! SpreadObject (nextObject st)) as [r0|] eqn:Hr0;
        [|done].
      apply Hbelow in Hr0. lia. }
    destruct (cacheResolution_sharing (SpreadObject (nextObject st)) r
                containingFile (mk (S (nextObject st)))) as [Howned' Hkeep];
      try done.
    + intros Hnone o r0 Ho Hr0. destruct (Howned o r0 _ Ho Hr0) as (r1&Hr1&_).
      simpl in Hr1. congruence.
    + intros sid Hsid. unfold Loader.filesOf in Hfiles.
      destruct (objects st !! HostObject h) as [r0|] eqn:Hr0; simpl in Hfiles;
        [|congruence].
      apply (Howned (HostObject h) r0); congruence.
    + intros r0 sid Hr0. simpl in Hr0. congruence.
    + split; [split|]; [exact Howned'| |exact Hkeep].
      intros n r0 Hn. unfold Loader.withModuleCache in *.
      cbn [nextObject objects] in *. rewrite cacheResolution_nextObject.
      apply cacheResolution_objects_dom in Hn as [[= ->]|Hn];
        subst mk; cbn [nextObject objects] in *; [lia|].
      apply (Hbelow n r0) in Hn. lia.
Qed.

Lemma resolveModuleNames_from_sharing E index moduleNames containingFile st :
  wellFormed st → setsOwned st →
  setsOwned (Loader.resolveModuleNames_from E index moduleNames containingFile st).2
  ∧ (∀ o f, o ∈ resolutionWithFailedLookup st → f ∈ owningFiles o st →
       o ∈ resolutionWithFailedLookup
             (Loader.resolveModuleNames_from E index moduleNames containingFile st).2
       ∧ f ∈ owningFiles o
               (Loader.resolveModuleNames_from E index moduleNames containingFile st).2).
Proof.
  revert index st. induction moduleNames as [|moduleName rest IH];
    intros index st Hwf Hown; [by split|].
  simpl.
  pose proof (wellFormed_resolveOne E containingFile moduleName index st Hwf) as Hwf1.
  destruct (resolveOne_sharing E containingFile moduleName index st Hwf Hown)
    as [Hown1 Hkeep1].
  destruct (Loader.resolveOne _ _ _ _ _) as [r st1]. simpl in *.
  destruct (IH (S index) st1 Hwf1 Hown1) as [Hown2 Hkeep2].
  destruct (Loader.resolveModuleNames_from _ _ _ _ _) as [rs st2]. simpl in *.
  split; [done|]. intros o f Hin Hf.
  destruct (Hkeep1 o f Hin Hf) as [Hin1 Hf1]. by apply Hkeep2.
Qed.

Lemma sweep_nextObject l st :
  nextObject (foldl Loader.invalidate_visit st l) = nextObject st.
Proof.
  revert st. induction l as [|o l IH]; intros st; [done|].
  simpl. rewrite IH. unfold Loader.invalidate_visit.
  destruct (objects st !! o) as [[[m|] [locations|] [sid|]]|]; try done.
  by destruct (Loader.someLocationPending _ _).
Qed.

Lemma step_sharing st c :
  wellFormed st → setsOwned st →
  setsOwned (step st c)
  ∧ (∀ o f, o ∈ resolutionWithFailedLookup st → f ∈ owningFiles o st →
       o ∈ resolutionWithFailedLookup (step st c) ∧ f ∈ owningFiles o (step st c)).
Proof.
  intros Hwf Hown. destruct c as [E names cf|path|path| |].
  - by apply resolveModuleNames_from_sharing.
  - by split.
  - by split.
  - by split.
  - destruct Hwf as [Hc _].
    pose proof (sweep_frame (resolutionWithFailedLookup st) st Hc) as Hf.
    pose proof (sweep_nextObject (resolutionWithFailedLookup st) st) as Hn.
    destruct Hown as [Howned Hbelow]. split; [split|].
    + intros o r sid. simpl. rewrite (sweep_objects _ _ Hf). apply Howned.
    + intros n r. simpl. rewrite (sweep_objects _ _ Hf), Hn. apply Hbelow.
    + intros o f. unfold owningFiles. simpl.
      by rewrite (sweep_tracked _ _ Hf), (sweep_objects _ _ Hf),
        (sweep_fileSets _ _ Hf).
Qed.

Lemma run_sharing calls st :
  wellFormed st → setsOwned st →
  setsOwned (run calls st)
  ∧ (∀ o f, o ∈ resolutionWithFailedLookup st → f ∈ owningFiles o st →
       o ∈ resolutionWithFailedLookup (run calls st) ∧ f ∈ owningFiles o (run calls st)).
Proof.
  revert st. induction calls as [|c calls IH]; intros st Hwf Hown; [by split|].
  simpl. destruct (step_sharing st c Hwf Hown) as [Hown1 Hkeep1].
  destruct (IH _ (wellFormed_step st c Hwf) Hown1) as [Hown2 Hkeep2].
  split; [done|]. intros o f Hin Hf.
  destruct (Hkeep1 o f Hin Hf). by apply Hkeep2.
Qed.

Lemma reachable_setsOwned st : reachable st → setsOwned st.
Proof.
  intros [calls ->]. by apply run_sharing; [apply wellFormed_init|apply setsOwned_init].
Qed.

(** X9.  A tracked failed-lookup record is never forgotten and never loses
    an owning file: whatever calls follow (further resolutions through
    the same or other host objects, evictions, sweeps,
    [clearPendingInvalidations]), the record stays tracked with that file
    among its owners. *)
Theorem tracked_records_only_grow
    (st : State) (calls : list Call) (o : ObjId) (file : string) :
  reachable st →
  o ∈ resolutionWithFailedLookup st →
  file ∈ owningFiles o st →
  o ∈ resolutionWithFailedLookup (run calls st)
  ∧ file ∈ owningFiles o (run calls st).
Proof.
  intros Hreach Hin Hfile.
  by apply (run_sharing calls st (reachable_wellFormed st Hreach)
              (reachable_setsOwned st Hreach)).
Qed.

End SharingFacts.

Section SharedRecord.
Context `{PathUtils}.

(** A fresh resolution that walked failed locations tracks one object:
    the host's own, with the host's record, or a new one built by the
    spread.  The fields of every other object are left alone. *)
Lemma resolveOne_tracks_object E containingFile moduleName index st l ls :
  Cache.has moduleName containingFile (moduleCache st) = false →
  hostFailedLookupLocations (tsResolveModuleName E moduleName containingFile index)
  = Some (l :: ls) →
  ∃ o sid,
    o ∈ resolutionWithFailedLookup
          (Loader.resolveOne E containingFile moduleName index st).2
    ∧ objects (Loader.resolveOne E containingFile moduleName index st).2 !! o
      = Some {| resolvedModule :=
                  (Loader.resolveOne E containingFile moduleName index st).1;
                failedLookupLocations := Some (l :: ls);
                files := Some sid |}
    ∧ containingFile
      ∈ default ∅
          (fileSets (Loader.resolveOne E containingFile moduleName index st).2 !! sid)
    ∧ (∀ o', o' ≠ o →
         objects (Loader.resolveOne E containingFile moduleName index st).2 !! o'
         = objects st !! o')
    ∧ ((∃ h, o = HostObject h)
       ∧ (Loader.resolveOne E containingFile moduleName index st).1
         = hostResolvedModule (tsResolveModuleName E moduleName containingFile index)
       ∨ o = SpreadObject (nextObject st)).
Proof.
  intros Hmiss Hlocs. unfold Loader.resolveOne. rewrite Hmiss.
  unfold Loader.resolveModuleName.
  destruct (hostResolvedModule _) as [m|] eqn:Hm;
    [destruct (isVirtualSvelteFilePath _); simpl;
       [destruct (isSvelteFilePath _); simpl|]|];
    unfold Loader.cacheResolutionWithFailedLookup; simpl; rewrite Hlocs; simpl;
    eexists _, _;
    (split_and!;
       [apply elem_of_trackedAdd; by left
       |by rewrite lookup_insert_eq
       |rewrite lookup_insert_eq; simpl; set_solver
       |intros o' Hne; by rewrite lookup_insert_ne
       |]);
    first [by right | left; split; [by eexists|done]].
Qed.

(** X10.  One failed-lookup record shared by two containing files
    invalidates both.  When two resolutions, from two containing files, are
    answered by the host with the same result object (a resolved module
    found after probing [location] in vain), then marking [location] as
    pending and running the sweep evicts both cache entries and reports
    both containing files.  This holds whether the loader returns the
    host's record as it is or remaps a virtual path, in either
    resolution. *)
Theorem shared_record_invalidates_every_owner
    (E1 E2 : Env) (st : State) (name1 file1 name2 file2 location : string)
    (answer : HostResolution) (m : ResolvedModule) (locations : list string) :
  reachable st →
  Cache.has name1 file1 (moduleCache st) = false →
  Cache.has name2 file2
    (moduleCache (run [ResolveModuleNames E1 [name1] file1] st)) = false →
  tsResolveModuleName E1 name1 file1 0 = answer →
  tsResolveModuleName E2 name2 file2 0 = answer →
  hostResolvedModule answer = Some m →
  hostFailedLookupLocations answer = Some locations →
  location ∈ locations →
  Cache.has name1 file1
    (moduleCache
       (run [ResolveModuleNames E1 [name1] file1;
             ResolveModuleNames E2 [name2] file2;
             DeleteUnresolvedResolutionsFromCache location;
             InvalidateFailedLocationResolution] st)) = false
  ∧ Cache.has name2 file2
      (moduleCache
         (run [ResolveModuleNames E1 [name1] file1;
               ResolveModuleNames E2 [name2] file2;
               DeleteUnresolvedResolutionsFromCache location;
               InvalidateFailedLocationResolution] st)) = false
  ∧ Loader.mightHaveInvalidatedResolutions file1
      (run [ResolveModuleNames E1 [name1] file1;
            ResolveModuleNames E2 [name2] file2;
            DeleteUnresolvedResolutionsFromCache location;
            InvalidateFailedLocationResolution] st) = true
  ∧ Loader.mightHaveInvalidatedResolutions file2
      (run [ResolveModuleNames E1 [name1] file1;
            ResolveModuleNames E2 [name2] file2;
            DeleteUnresolvedResolutionsFromCache location;
            InvalidateFailedLocationResolution] st) = true.
Proof.
  intros Hreach Hmiss1 Hmiss2 Ha1 Ha2 Hm Hlocs Hloc.
  pose proof (reachable_wellFormed st Hreach) as Hwf.
  pose proof (reachable_setsOwned st Hreach) as Hown.
  set (c1 := ResolveModuleNames E1 [name1] file1) in *.
  set (c2 := ResolveModuleNames E2 [name2] file2).
  set (c3 := DeleteUnresolvedResolutionsFromCache location).
  set (c4 := InvalidateFailedLocationResolution).
  change (run [c1] st) with (step st c1) in Hmiss2.
  change (run [c1; c2; c3; c4] st) with (step (step (step (step st c1) c2) c3) c4).
  destruct locations as [|l ls]; [by apply elem_of_nil in Hloc|].
  (* the first resolution *)
  pose proof (wellFormed_step st c1 Hwf) as Hwf1.
  destruct (step_sharing st c1 Hwf Hown) as [Hown1 _].
  assert (step st c1 = (Loader.resolveOne E1 file1 name1 0 st).2) as Hs1.
  { unfold c1, step. by rewrite resolveModuleNames_singleton. }
  pose proof (resolveOne_cached E1 file1 name1 0 st) as Hcached1.
  assert (hostFailedLookupLocations (tsResolveModuleName E1 name1 file1 0)
          = Some (l :: ls)) as Hl1 by (by rewrite Ha1).
  destruct (resolveOne_tracks_object E1 file1 name1 0 st l ls Hmiss1 Hl1)
    as (o1&sid1&Hin1&Ho1&Hfile1&_&Horigin1).
  assert (∃ m1, (Loader.resolveOne E1 file1 name1 0 st).1 = Some m1) as [m1 Hout1].
  { destruct (resolveOne_miss E1 file1 name1 0 st Hmiss1) as [-> _].
    rewrite resolveModuleName_resolved. unfold freshOutcome. rewrite Ha1, Hm.
    destruct (_ && _); by eexists. }
  rewrite Ha1, Hm in Horigin1. clear Hl1.
  rewrite Hout1, <- Hs1 in *. clear Hout1 Hs1.
  remember (step st c1) as st1 eqn:Hst1. clear Hst1.
  assert (file1 ∈ owningFiles o1 st1) as Howner1.
  { unfold owningFiles. by rewrite Ho1. }
  (* the second resolution, answered with the same object *)
  pose proof (wellFormed_step st1 c2 Hwf1) as Hwf2.
  assert (step st1 c2 = (Loader.resolveOne E2 file2 name2 0 st1).2) as Hs2.
  { unfold c2, step. by rewrite resolveModuleNames_singleton. }
  pose proof (resolveOne_cached E2 file2 name2 0 st1) as Hcached2.
  pose proof (resolveOne_keeps E2 file2 name2 0 st1 _ _ Hcached1) as Hkept1.
  destruct (resolveOne_sharing E2 file2 name2 0 st1 Hwf1 Hown1) as [_ Hkeep].
  destruct (Hkeep _ _ Hin1 Howner1) as [Hin1' Hfile1'].
  assert (hostFailedLookupLocations (tsResolveModuleName E2 name2 file2 0)
          = Some (l :: ls)) as Hl2 by (by rewrite Ha2).
  destruct (resolveOne_tracks_object E2 file2 name2 0 st1 l ls Hmiss2 Hl2)
    as (o2&sid2&Hin2&Ho2&Hfile2&Hframe2&Horigin2).
  assert (∃ m2, (Loader.resolveOne E2 file2 name2 0 st1).1 = Some m2) as [m2 Hout2].
  { destruct (resolveOne_miss E2 file2 name2 0 st1 Hmiss2) as [-> _].
    rewrite resolveModuleName_resolved. unfold freshOutcome. rewrite Ha2, Hm.
    destruct (_ && _); by eexists. }
  rewrite Ha2, Hm in Horigin2. clear Hl2.
  rewrite Hout2, <- Hs2 in *. clear Hout2 Hs2 Hkeep.
  remember (step st1 c2) as st2 eqn:Hst2. clear Hst2.
  (* the record of the first resolution is still in place: either the two
     resolutions tracked different objects, or both tracked the host's
     object, with the host's record *)
  assert (∃ sid, objects st2 !! o1
                 = Some {| resolvedModule := Some m1;
                           failedLookupLocations := Some (l :: ls);
                           files := Some sid |}) as [sid1' Ho1'].
  { destruct (decide (o1 = o2)) as [->|Hne].
    - destruct Horigin2 as [[[h2 ->] [= ->]]| ->].
      + destruct Horigin1 as [[_ [= ->]]|?]; [by eexists|done].
      + destruct Hown1 as [_ Hbelow]. apply Hbelow in Ho1. lia.
    - rewrite (Hframe2 o1 Hne). by eexists. }
  unfold owningFiles in Hfile1'. rewrite Ho1' in Hfile1'. simpl in Hfile1'.
  (* marking the location and sweeping *)
  pose proof (wellFormed_step st2 c3 Hwf2) as [Hc3 _].
  destruct Hwf2 as [Hc2 _].
  pose proof (sweep_frame (resolutionWithFailedLookup (step st2 c3)) _ Hc3)
    as Hsweep.
  assert (∀ key m', cache (moduleCache st2) !! key = Some (Some m') →
                    cache (moduleCache (step st2 c3)) !! key = Some (Some m'))
    as Hmark.
  { intros key m' Hkey. simpl. by rewrite deleteUnresolved_lookup, Hkey. }
  assert (Loader.someLocationPending (l :: ls) (step st2 c3) = true) as Hpending.
  { apply someLocationPending_true. exists location. split; [done|].
    simpl. unfold FileSet.has, FileSet.add. apply bool_decide_eq_true.
    apply elem_of_union. left. by apply elem_of_singleton. }
  destruct (sweep_invalidates (resolutionWithFailedLookup (step st2 c3))
              (step st2 c3) o1 _ m1 sid1' (l :: ls) Hc3 Hin1' Ho1' eq_refl eq_refl
              eq_refl Hpending) as [Hgone1 Hfiles1].
  destruct (sweep_invalidates (resolutionWithFailedLookup (step st2 c3))
              (step st2 c3) o2 _ m2 sid2 (l :: ls) Hc3 Hin2 Ho2 eq_refl eq_refl
              eq_refl Hpending) as [Hgone2 Hfiles2].
  assert (∀ key m',
            cache (moduleCache st2) !! key = Some (Some m') →
            (∀ k m'', cache (moduleCache (step (step st2 c3) c4)) !! k
                      = Some (Some m'') →
                      canon (resolvedFileName m'') ≠ canon (resolvedFileName m')) →
            cache (moduleCache (step (step st2 c3) c4)) !! key = None)
    as Hevicted.
  { intros key m' Hkey Hgone. apply eq_None_not_Some. intros [v Hv].
    pose proof Hv as Hv'. apply Hsweep in Hv'.
    rewrite (Hmark _ _ Hkey) in Hv'. injection Hv' as <-.
    by apply (Hgone _ _ Hv). }
  split_and!.
  - apply has_lookup_false. by apply (Hevicted _ m1).
  - apply has_lookup_false. by apply (Hevicted _ m2).
  - apply mightHave_elem. right. by apply Hfiles1.
  - apply mightHave_elem. right. by apply Hfiles2.
Qed.

End SharedRecord.

(** ** Resolution modes *)

Section ModeFacts.
Context `{PathUtils} {CompilerOptions : Type}.

(** A batch depends on its collaborators only through their answers for
    the specifiers of the batch. *)
Lemma resolveOne_ext E1 E2 containingFile moduleName index st :
  tsResolveModuleName E1 moduleName containingFile index
  = tsResolveModuleName E2 moduleName containingFile index →
  (∀ p, getRealSveltePathIfExists E1 p = getRealSveltePathIfExists E2 p) →
  (∀ p, snapshotExtension E1 p = snapshotExtension E2 p) →
  Loader.resolveOne E1 containingFile moduleName index st
  = Loader.resolveOne E2 containingFile moduleName index st.
Proof.
  intros Hhost Hreal Hext. unfold Loader.resolveOne, Loader.resolveModuleName.
  rewrite Hhost.
  destruct (hostResolvedModule _) as [m|]; [|done].
  by rewrite Hreal, Hext.
Qed.

Lemma resolveModuleNames_from_ext E1 E2 index moduleNames containingFile st :
  (∀ moduleName i, moduleName ∈ moduleNames →
     tsResolveModuleName E1 moduleName containingFile i
     = tsResolveModuleName E2 moduleName containingFile i) →
  (∀ p, getRealSveltePathIfExists E1 p = getRealSveltePathIfExists E2 p) →
  (∀ p, snapshotExtension E1 p = snapshotExtension E2 p) →
  Loader.resolveModuleNames_from E1 index moduleNames containingFile st
  = Loader.resolveModuleNames_from E2 index moduleNames containingFile st.
Proof.
  intros Hhost Hreal Hext. revert index st.
  induction moduleNames as [|moduleName rest IH]; intros index st; [done|].
  simpl. rewrite (resolveOne_ext E1 E2) by (try done; apply Hhost; left).
  destruct (Loader.resolveOne _ _ _ _ _) as [r st1].
  rewrite IH; [done|]. intros name i Hin. apply Hhost. by right.
Qed.

(** X11.  Svelte imports are resolved without a resolution mode.  For a
    batch of Svelte file paths the outcome and the state afterwards are the
    same whatever source file, options, project reference and mode
    function the batch is given; and a batch given no source file is
    resolved with the mode undefined for every specifier, Svelte or not. *)
Theorem svelte_imports_ignore_the_mode
    (h1 h2 : ModuleHost CompilerOptions) (moduleNames : list string)
    (containingFile : string) (st : State) :
  (∀ name file mode,
     hostResolveWithMode h1 name file mode = hostResolveWithMode h2 name file mode) →
  (∀ p, hostRealSveltePathIfExists h1 p = hostRealSveltePathIfExists h2 p) →
  (∀ p, hostSnapshotExtension h1 p = hostSnapshotExtension h2 p) →
  ((∀ name, name ∈ moduleNames → isSvelteFilePath name = true) →
     Loader.resolveModuleNames (moduleEnv h1) moduleNames containingFile st
     = Loader.resolveModuleNames (moduleEnv h2) moduleNames containingFile st)
  ∧ (containingSourceFile h1 = None →
     Loader.resolveModuleNames (moduleEnv h1) moduleNames containingFile st
     = Loader.resolveModuleNames
         {| tsResolveModuleName := λ name file _, hostResolveWithMode h2 name file None;
            getRealSveltePathIfExists := hostRealSveltePathIfExists h2;
            snapshotExtension := hostSnapshotExtension h2 |}
         moduleNames containingFile st).
Proof.
  intros Hhost Hreal Hext. split.
  - intros Hsvelte. apply resolveModuleNames_from_ext; [|done..].
    intros name i Hin. simpl. unfold ImpliedNodeFormatResolver.resolve.
    by rewrite (Hsvelte name Hin).
  - intros Hnone. apply resolveModuleNames_from_ext; [|done..].
    intros name i Hin. simpl. unfold ImpliedNodeFormatResolver.resolve.
    rewrite Hnone. by destruct (isSvelteFilePath name).
Qed.

End ModeFacts.

(** ** Type-reference directives *)

Section TypeReferenceFacts.
Context `{PathUtils}.

Lemma includes_middle (sub s t : string) : includes sub (s +:+ sub +:+ t) = true.
Proof.
  induction s as [|c s IH].
  - change ("" +:+ sub +:+ t) with (sub +:+ t).
    assert (startsWith sub (sub +:+ t) = true) as Hst.
    { clear. induction sub as [|a sub IH]; [done|]. rewrite append_cons. simpl.
      by rewrite decide_True. }
    destruct (sub +:+ t); simpl in *; by rewrite Hst.
  - rewrite append_cons. cbn [includes]. rewrite IH. apply orb_true_r.
Qed.

Lemma modeText_no_bar (mode : option ResolutionMode) (s t : string) :
  modeText mode ≠ s +:+ "|" +:+ t.
Proof.
  intros Heq. pose proof (includes_middle "|" s t) as Hinc.
  rewrite <- Heq in Hinc. by destruct mode as [[]|].
Qed.

Lemma modeText_inj (m1 m2 : option ResolutionMode) :
  modeText m1 = modeText m2 → m1 = m2.
Proof. by destruct m1 as [[]|], m2 as [[]|]. Qed.

(** X12.  The key of the type-reference cache is injective: two directives
    share a cache slot only if they have the same resolution name and the
    same mode, also when a name contains the separator [|]. *)
Theorem typeReferenceKey_injective
    (entry1 entry2 : string) (mode1 mode2 : option ResolutionMode) :
  typeReferenceKey entry1 mode1 = typeReferenceKey entry2 mode2 →
  entry1 = entry2 ∧ mode1 = mode2.
Proof.
  unfold typeReferenceKey. revert entry2.
  induction entry1 as [|c entry1 IH]; intros [|d entry2] Heq.
  - injection Heq as Heq. by apply modeText_inj in Heq.
  - rewrite append_cons in Heq. injection Heq as _ Heq.
    by apply modeText_no_bar in Heq.
  - rewrite append_cons in Heq. injection Heq as _ Heq. symmetry in Heq.
    by apply modeText_no_bar in Heq.
  - rewrite !append_cons in Heq. injection Heq as -> Heq.
    destruct (IH _ Heq) as [-> ->]. done.
Qed.

Lemma typeResolveOne_cached TE containingFile sourceFile d c :
  (TypeReferences.resolveOne TE containingFile sourceFile d c).2
    !! TypeReferences.keyOf TE sourceFile d
  = Some (TypeReferences.resolveOne TE containingFile sourceFile d c).1.
Proof.
  unfold TypeReferences.resolveOne, TypeReferences.keyOf.
  destruct (c !! _) as [r|] eqn:Hk; simpl; [done|]. apply lookup_insert_eq.
Qed.

Lemma typeResolveOne_keeps TE containingFile sourceFile d c k v :
  c !! k = Some v →
  (TypeReferences.resolveOne TE containingFile sourceFile d c).2 !! k = Some v.
Proof.
  intros Hk. unfold TypeReferences.resolveOne.
  destruct (c !! typeReferenceKey _ _) as [r|] eqn:Hd; simpl; [done|].
  rewrite lookup_insert_ne; [done|congruence].
Qed.

Lemma typeResolveAll_keeps TE ds containingFile sourceFile c k v :
  c !! k = Some v →
  (TypeReferences.resolveAll TE ds containingFile sourceFile c).2 !! k = Some v.
Proof.
  revert c. induction ds as [|d ds IH]; intros c Hk; [done|].
  simpl.
  pose proof (typeResolveOne_keeps TE containingFile sourceFile d c k v Hk) as H1.
  destruct (TypeReferences.resolveOne _ _ _ _ _) as [r c1].
  specialize (IH c1 H1).
  by destruct (TypeReferences.resolveAll _ _ _ _ _) as [rs c2].
Qed.

Lemma typeResolveAll_length TE ds containingFile sourceFile c :
  length (TypeReferences.resolveAll TE ds containingFile sourceFile c).1 = length ds.
Proof.
  revert c. induction ds as [|d ds IH]; intros c; [done|].
  simpl. destruct (TypeReferences.resolveOne _ _ _ _ _) as [r c1].
  specialize (IH c1).
  destruct (TypeReferences.resolveAll _ _ _ _ _) as [rs c2]. simpl in *.
  by rewrite IH.
Qed.

(** The [i]-th result is the value cached for the [i]-th directive after
    the batch. *)
Lemma typeResolveAll_lookup TE ds containingFile sourceFile c i d :
  ds !! i = Some d →
  ∃ r, (TypeReferences.resolveAll TE ds containingFile sourceFile c).1 !! i = Some r
     ∧ (TypeReferences.resolveAll TE ds containingFile sourceFile c).2
         !! TypeReferences.keyOf TE sourceFile d = Some r.
Proof.
  revert c i. induction ds as [|d0 ds IH]; intros c i Hi; [done|].
  simpl.
  pose proof (typeResolveOne_cached TE containingFile sourceFile d0 c) as H1.
  destruct (TypeReferences.resolveOne _ _ _ _ _) as [r c1]. simpl in H1.
  destruct i as [|i]; simpl in Hi.
  - injection Hi as ->.
    pose proof (typeResolveAll_keeps TE ds containingFile sourceFile c1 _ _ H1) as H2.
    destruct (TypeReferences.resolveAll _ _ _ _ _) as [rs c2]. by exists r.
  - destruct (IH c1 i Hi) as (r'&Hr'&Hc').
    destruct (TypeReferences.resolveAll _ _ _ _ _) as [rs c2]. by exists r'.
Qed.

Lemma typeResolveAll_all_cached TE ds containingFile sourceFile c rs :
  Forall2 (λ d r, c !! TypeReferences.keyOf TE sourceFile d = Some r) ds rs →
  TypeReferences.resolveAll TE ds containingFile sourceFile c = (rs, c).
Proof.
  induction 1 as [|d r ds rs Hd _ IH]; [done|].
  simpl. unfold TypeReferences.resolveOne. unfold TypeReferences.keyOf in Hd.
  rewrite Hd. by rewrite IH.
Qed.

(** X13.  [resolveTypeReferenceDirectiveReferences] returns one result per
    directive, in the order of the input; the [i]-th result is the one
    cached for the [i]-th directive after the batch; a directive cached
    before the batch gets the value cached then; and two directives with
    the same resolution name (a name and a file reference to it, or two
    references that differ in case or in their own resolution mode) get
    the same result. *)
Theorem type_references_positional
    (TE : TypeEnv) (ds : list TypeDirective) (containingFile : string)
    (sourceFile : option SourceFile) (c : gmap string TypeReferenceResolution) :
  length (TypeReferences.resolveAll TE ds containingFile sourceFile c).1 = length ds
  ∧ (∀ i d, ds !! i = Some d →
       (TypeReferences.resolveAll TE ds containingFile sourceFile c).2
         !! TypeReferences.keyOf TE sourceFile d
       = (TypeReferences.resolveAll TE ds containingFile sourceFile c).1 !! i
       ∧ is_Some ((TypeReferences.resolveAll TE ds containingFile sourceFile c).1 !! i)
       ∧ (∀ r, c !! TypeReferences.keyOf TE sourceFile d = Some r →
            (TypeReferences.resolveAll TE ds containingFile sourceFile c).1 !! i
            = Some r))
  ∧ (∀ i j d d', ds !! i = Some d → ds !! j = Some d' →
       getTypeReferenceResolutionName d = getTypeReferenceResolutionName d' →
       (TypeReferences.resolveAll TE ds containingFile sourceFile c).1 !! i
       = (TypeReferences.resolveAll TE ds containingFile sourceFile c).1 !! j).
Proof.
  split_and!.
  - apply typeResolveAll_length.
  - intros i d Hi.
    destruct (typeResolveAll_lookup TE ds containingFile sourceFile c i d Hi)
      as (r&Hr&Hc).
    split_and!; [congruence|by eexists|].
    intros r0 Hr0.
    pose proof (typeResolveAll_keeps TE ds containingFile sourceFile c _ _ Hr0).
    congruence.
  - intros i j d d' Hi Hj Hname.
    destruct (typeResolveAll_lookup TE ds containingFile sourceFile c i d Hi)
      as (r&Hr&Hc).
    destruct (typeResolveAll_lookup TE ds containingFile sourceFile c j d' Hj)
      as (r'&Hr'&Hc').
    unfold TypeReferences.keyOf in Hc, Hc'. rewrite Hname in Hc. congruence.
Qed.

(** X14.  A type-reference result is cached per name and mode only.
    Resolving the same directives again, from any containing file and with
    any host resolver that computes the same modes, returns the results of
    the first batch and leaves the cache as it is. *)
Theorem type_references_repeat
    (TE TE' : TypeEnv) (ds : list TypeDirective) (containingFile containingFile' : string)
    (sourceFile : option SourceFile) (c : gmap string TypeReferenceResolution) :
  (∀ entry format,
     tsGetModeForFileReference TE' entry format
     = tsGetModeForFileReference TE entry format) →
  TypeReferences.resolveAll TE' ds containingFile' sourceFile
    (TypeReferences.resolveAll TE ds containingFile sourceFile c).2
  = TypeReferences.resolveAll TE ds containingFile sourceFile c.
Proof.
  intros Hmode.
  rewrite (typeResolveAll_all_cached TE' ds containingFile' sourceFile _
             (TypeReferences.resolveAll TE ds containingFile sourceFile c).1).
  { by destruct (TypeReferences.resolveAll TE ds containingFile sourceFile c). }
  apply Forall2_same_length_lookup_2.
  { by rewrite typeResolveAll_length. }
  intros i d r Hi Hr.
  destruct (typeResolveAll_lookup TE ds containingFile sourceFile c i d Hi)
    as (r'&Hr'&Hc).
  assert (TypeReferences.keyOf TE' sourceFile d = TypeReferences.keyOf TE sourceFile d)
    as ->.
  { unfold TypeReferences.keyOf, ImpliedNodeFormatResolver.resolveForTypeReference.
    destruct sourceFile; [|done]. by rewrite Hmode. }
  congruence.
Qed.

(** X15.  Type-reference results are not invalidated by path.  After a
    directive was resolved, [deleteFromModuleCache],
    [clearPendingInvalidations] and [invalidateFailedLocationResolution]
    leave its result in the cache: the next request returns it even if the
    host would now answer otherwise.  Only
    [deleteUnresolvedResolutionsFromCache] empties the cache, and the next
    request then returns the host's answer. *)
Theorem type_references_cleared_in_bulk_only
    (TE TE' : TypeEnv) (d : TypeDirective) (containingFile containingFile' : string)
    (sourceFile : option SourceFile) (ml : ModuleLoader) (path : string) :
  (∀ entry format,
     tsGetModeForFileReference TE' entry format
     = tsGetModeForFileReference TE entry format) →
  (TypeReferences.resolveTypeReferenceDirectiveReferences TE' [d] containingFile'
     sourceFile
     (TypeReferences.deleteFromModuleCache path
        (TypeReferences.resolveTypeReferenceDirectiveReferences TE [d]
           containingFile sourceFile ml).2)).1
  = (TypeReferences.resolveTypeReferenceDirectiveReferences TE [d] containingFile
       sourceFile ml).1
  ∧ (TypeReferences.resolveTypeReferenceDirectiveReferences TE' [d] containingFile'
       sourceFile
       (TypeReferences.invalidateFailedLocationResolution
          (TypeReferences.clearPendingInvalidations
             (TypeReferences.resolveTypeReferenceDirectiveReferences TE [d]
                containingFile sourceFile ml).2))).1
    = (TypeReferences.resolveTypeReferenceDirectiveReferences TE [d] containingFile
         sourceFile ml).1
  ∧ (TypeReferences.resolveTypeReferenceDirectiveReferences TE' [d] containingFile'
       sourceFile
       (TypeReferences.deleteUnresolvedResolutionsFromCache path
          (TypeReferences.resolveTypeReferenceDirectiveReferences TE [d]
             containingFile sourceFile ml).2)).1
    = [tsResolveTypeReferenceDirective TE' (getTypeReferenceResolutionName d)
         containingFile'
         (ImpliedNodeFormatResolver.resolveForTypeReference
            (tsGetModeForFileReference TE')
            (getTypeReferenceResolutionName d) sourceFile)].
Proof.
  intros Hmode.
  unfold TypeReferences.resolveTypeReferenceDirectiveReferences.
  cbn [TypeReferences.resolveAll].
  pose proof (typeResolveOne_cached TE containingFile sourceFile d
                (typeReferenceCache ml)) as Hcached.
  destruct (TypeReferences.resolveOne TE containingFile sourceFile d
              (typeReferenceCache ml)) as [r c1].
  cbn [fst snd] in *.
  assert (TypeReferences.resolveOne TE' containingFile' sourceFile d c1 = (r, c1))
    as Hhit.
  { unfold TypeReferences.resolveOne.
    assert (typeReferenceKey (getTypeReferenceResolutionName d)
              (ImpliedNodeFormatResolver.resolveForTypeReference
                 (tsGetModeForFileReference TE')
                 (getTypeReferenceResolutionName d) sourceFile)
            = TypeReferences.keyOf TE sourceFile d) as ->.
    { unfold TypeReferences.keyOf, ImpliedNodeFormatResolver.resolveForTypeReference.
      destruct sourceFile; [|done]. by rewrite Hmode. }
    by rewrite Hcached. }
  split_and!.
  - cbn [TypeReferences.deleteFromModuleCache typeReferenceCache].
    by rewrite Hhit.
  - cbn [TypeReferences.invalidateFailedLocationResolution
         TypeReferences.clearPendingInvalidations typeReferenceCache].
    by rewrite Hhit.
  - cbn [TypeReferences.deleteUnresolvedResolutionsFromCache typeReferenceCache].
    unfold TypeReferences.resolveOne. by rewrite lookup_empty.
Qed.

End TypeReferenceFacts.

(** ** The further properties at work on concrete runs *)

Section MoreExamples.
#[local] Existing Instance Svelte.caseSensitive.
Import Scenario ModeScenario.

(** Two cached packages, asked for again in another order and with a host
    that finds nothing. *)
Lemma cached_batch_is_read_only_witness :
  allCached ["b"; "a"] "/proj/a.ts"
    (run [ResolveModuleNames packageHost ["a"; "b"] "/proj/a.ts"] Loader.init)
  ∧ Loader.resolveModuleNames unresolvedHost ["b"; "a"] "/proj/a.ts"
      (run [ResolveModuleNames packageHost ["a"; "b"] "/proj/a.ts"] Loader.init)
    = Loader.resolveModuleNames packageHost ["b"; "a"] "/proj/a.ts"
        (run [ResolveModuleNames packageHost ["a"; "b"] "/proj/a.ts"] Loader.init).
Proof.
  assert (allCached ["b"; "a"] "/proj/a.ts"
    (run [ResolveModuleNames packageHost ["a"; "b"] "/proj/a.ts"] Loader.init))
    as Hall.
  { intros name Hin. apply elem_of_cons in Hin as [->|Hin]; [reflexivity|].
    apply list_elem_of_singleton in Hin as ->. reflexivity. }
  split; [exact Hall|].
  exact (proj2 (cached_batch_is_read_only packageHost unresolvedHost _ _ _ Hall)).
Defined.

(** [./Foo.svelte] and its virtual spelling in one batch. *)
Lemma same_key_same_outcome_witness :
  ["./Foo.svelte"; "./Foo.d.svelte.ts"] !! 0%nat = Some "./Foo.svelte"
  ∧ ["./Foo.svelte"; "./Foo.d.svelte.ts"] !! 1%nat = Some "./Foo.d.svelte.ts"
  ∧ storedKey "./Foo.svelte" "/proj/a.ts" = storedKey "./Foo.d.svelte.ts" "/proj/a.ts"
  ∧ (Loader.resolveModuleNames packageHost ["./Foo.svelte"; "./Foo.d.svelte.ts"]
       "/proj/a.ts" Loader.init).1 !! 0%nat
    = (Loader.resolveModuleNames packageHost ["./Foo.svelte"; "./Foo.d.svelte.ts"]
         "/proj/a.ts" Loader.init).1 !! 1%nat.
Proof.
  assert (storedKey "./Foo.svelte" "/proj/a.ts"
          = storedKey "./Foo.d.svelte.ts" "/proj/a.ts") as Hkey
    by (vm_compute; reflexivity).
  split_and!; [reflexivity|reflexivity|exact Hkey|].
  exact (same_key_same_outcome packageHost ["./Foo.svelte"; "./Foo.d.svelte.ts"]
           "/proj/a.ts" Loader.init 0 1 "./Foo.svelte" "./Foo.d.svelte.ts"
           eq_refl eq_refl Hkey).
Defined.

(** Deleting a file nothing was resolved to. *)
Lemma delete_unknown_path_keeps_cache_witness :
  (∀ key m,
     cache (moduleCache
              (run [ResolveModuleNames packageHost ["Widget"] "/proj/a.ts"] Loader.init))
       !! key = Some (Some m) →
     canon (resolvedFileName m) ≠ canon "/proj/other.ts")
  ∧ Cache.get "Widget" "/proj/a.ts"
      (moduleCache
         (Loader.deleteFromModuleCache "/proj/other.ts"
            (run [ResolveModuleNames packageHost ["Widget"] "/proj/a.ts"] Loader.init)))
    = Cache.get "Widget" "/proj/a.ts"
        (moduleCache
           (run [ResolveModuleNames packageHost ["Widget"] "/proj/a.ts"] Loader.init))
  ∧ Loader.mightHaveInvalidatedResolutions "/proj/a.ts"
      (Loader.deleteFromModuleCache "/proj/other.ts"
         (run [ResolveModuleNames packageHost ["Widget"] "/proj/a.ts"] Loader.init))
    = Loader.mightHaveInvalidatedResolutions "/proj/a.ts"
        (run [ResolveModuleNames packageHost ["Widget"] "/proj/a.ts"] Loader.init).
Proof.
  assert (∀ key m,
     cache (moduleCache
              (run [ResolveModuleNames packageHost ["Widget"] "/proj/a.ts"] Loader.init))
       !! key = Some (Some m) →
     canon (resolvedFileName m) ≠ canon "/proj/other.ts") as Hnone.
  { assert (cache (moduleCache
              (run [ResolveModuleNames packageHost ["Widget"] "/proj/a.ts"] Loader.init))
            = <["/proj/a.ts:::Widget" :=
                  Some (moduleAt "/proj/node_modules/Widget/index.d.ts")]> ∅)
      as -> by (vm_compute; reflexivity).
    intros key m Hk. apply lookup_insert_Some in Hk as [[_ [= <-]]|[_ Hk]].
    - vm_compute. discriminate.
    - by rewrite lookup_empty in Hk. }
  destruct (delete_unknown_path_keeps_cache _ "/proj/other.ts" Hnone)
    as (_&_&_&_&Hmight&_&Hget).
  split_and!; [exact Hnone|exact (Hget "Widget" "/proj/a.ts")
              |exact (Hmight "/proj/a.ts")].
Defined.

(** Two notifications for the file a package resolved to. *)
Lemma delete_twice_is_delete_once_witness :
  reachable (run [ResolveModuleNames packageHost ["Widget"] "/proj/a.ts"] Loader.init)
  ∧ Loader.deleteFromModuleCache "/proj/node_modules/Widget/index.d.ts"
      (Loader.deleteFromModuleCache "/proj/node_modules/Widget/index.d.ts"
         (run [ResolveModuleNames packageHost ["Widget"] "/proj/a.ts"] Loader.init))
    = Loader.deleteFromModuleCache "/proj/node_modules/Widget/index.d.ts"
        (run [ResolveModuleNames packageHost ["Widget"] "/proj/a.ts"] Loader.init).
Proof.
  assert (reachable
    (run [ResolveModuleNames packageHost ["Widget"] "/proj/a.ts"] Loader.init))
    as Hreach by (by eexists).
  split; [exact Hreach|].
  exact (delete_twice_is_delete_once _ "/proj/node_modules/Widget/index.d.ts" Hreach).
Defined.

(** The package is deleted and can no longer be found. *)
Lemma evicted_pair_is_resolved_anew_witness :
  reachable (run [ResolveModuleNames packageHost ["Widget"] "/proj/a.ts"] Loader.init)
  ∧ Cache.get "Widget" "/proj/a.ts"
      (moduleCache
         (run [ResolveModuleNames packageHost ["Widget"] "/proj/a.ts"] Loader.init))
    = Some (moduleAt "/proj/node_modules/Widget/index.d.ts")
  ∧ canon (resolvedFileName (moduleAt "/proj/node_modules/Widget/index.d.ts"))
    = canon "/proj/node_modules/Widget/index.d.ts"
  ∧ (Loader.resolveModuleNames unresolvedHost ["Widget"] "/proj/a.ts"
       (Loader.deleteFromModuleCache "/proj/node_modules/Widget/index.d.ts"
          (run [ResolveModuleNames packageHost ["Widget"] "/proj/a.ts"] Loader.init))).1
    = [freshOutcome unresolvedHost "Widget" "/proj/a.ts" 0].
Proof.
  assert (reachable
    (run [ResolveModuleNames packageHost ["Widget"] "/proj/a.ts"] Loader.init))
    as Hreach by (by eexists).
  split_and!; [exact Hreach|reflexivity|reflexivity|].
  exact (proj1 (evicted_pair_is_resolved_anew unresolvedHost _ "Widget" "/proj/a.ts"
                  "/proj/node_modules/Widget/index.d.ts"
                  (moduleAt "/proj/node_modules/Widget/index.d.ts")
                  Hreach eq_refl eq_refl)).
Defined.

(** The record tracked for [/proj/a.ts] survives a resolution from
    another file through the same host object, an eviction and a reset. *)
Lemma tracked_records_only_grow_witness :
  reachable (run [ResolveModuleNames packageHost ["Widget"] "/proj/a.ts"] Loader.init)
  ∧ HostObject 0
    ∈ resolutionWithFailedLookup
        (run [ResolveModuleNames packageHost ["Widget"] "/proj/a.ts"] Loader.init)
  ∧ "/proj/a.ts"
    ∈ owningFiles (HostObject 0)
        (run [ResolveModuleNames packageHost ["Widget"] "/proj/a.ts"] Loader.init)
  ∧ "/proj/a.ts"
    ∈ owningFiles (HostObject 0)
        (run [ResolveModuleNames packageHost ["Widget"] "/proj/b.ts";
              DeleteFromModuleCache "/proj/node_modules/Widget/index.d.ts";
              ClearPendingInvalidations]
           (run [ResolveModuleNames packageHost ["Widget"] "/proj/a.ts"] Loader.init)).
Proof.
  assert (reachable
    (run [ResolveModuleNames packageHost ["Widget"] "/proj/a.ts"] Loader.init))
    as Hreach by (by eexists).
  assert (HostObject 0
    ∈ resolutionWithFailedLookup
        (run [ResolveModuleNames packageHost ["Widget"] "/proj/a.ts"] Loader.init))
    as Hin by (vm_compute; left).
  assert ("/proj/a.ts"
    ∈ owningFiles (HostObject 0)
        (run [ResolveModuleNames packageHost ["Widget"] "/proj/a.ts"] Loader.init))
    as Hfile by (vm_compute; reflexivity).
  split_and!; [exact Hreach|exact Hin|exact Hfile|].
  exact (proj2 (tracked_records_only_grow _
                  [ResolveModuleNames packageHost ["Widget"] "/proj/b.ts";
                   DeleteFromModuleCache "/proj/node_modules/Widget/index.d.ts";
                   ClearPendingInvalidations]
                  (HostObject 0) "/proj/a.ts" Hreach Hin Hfile)).
Defined.

(** Two files import [./Foo.svelte]; the host answers both with its one
    result object, which names a virtual path, and the loader remaps it. *)
Lemma shared_record_invalidates_every_owner_witness :
  reachable Loader.init
  ∧ Cache.has "./Foo.svelte" "/proj/a.ts" (moduleCache Loader.init) = false
  ∧ Cache.has "./Foo.svelte" "/proj/b.ts"
      (moduleCache
         (run [ResolveModuleNames svelteHost ["./Foo.svelte"] "/proj/a.ts"]
            Loader.init))
    = false
  ∧ tsResolveModuleName svelteHost "./Foo.svelte" "/proj/b.ts" 0
    = tsResolveModuleName svelteHost "./Foo.svelte" "/proj/a.ts" 0
  ∧ hostResolvedModule (tsResolveModuleName svelteHost "./Foo.svelte" "/proj/a.ts" 0)
    = Some (moduleAt "/proj/Foo.d.svelte.ts")
  ∧ "/proj/Foo.svelte.ts" ∈ ["/proj/Foo.svelte.ts"]
  ∧ Cache.has "./Foo.svelte" "/proj/a.ts"
      (moduleCache
         (run [ResolveModuleNames svelteHost ["./Foo.svelte"] "/proj/a.ts";
               ResolveModuleNames svelteHost ["./Foo.svelte"] "/proj/b.ts";
               DeleteUnresolvedResolutionsFromCache "/proj/Foo.svelte.ts";
               InvalidateFailedLocationResolution] Loader.init)) = false
  ∧ Cache.has "./Foo.svelte" "/proj/b.ts"
      (moduleCache
         (run [ResolveModuleNames svelteHost ["./Foo.svelte"] "/proj/a.ts";
               ResolveModuleNames svelteHost ["./Foo.svelte"] "/proj/b.ts";
               DeleteUnresolvedResolutionsFromCache "/proj/Foo.svelte.ts";
               InvalidateFailedLocationResolution] Loader.init)) = false
  ∧ Loader.mightHaveInvalidatedResolutions "/proj/a.ts"
      (run [ResolveModuleNames svelteHost ["./Foo.svelte"] "/proj/a.ts";
            ResolveModuleNames svelteHost ["./Foo.svelte"] "/proj/b.ts";
            DeleteUnresolvedResolutionsFromCache "/proj/Foo.svelte.ts";
            InvalidateFailedLocationResolution] Loader.init) = true
  ∧ Loader.mightHaveInvalidatedResolutions "/proj/b.ts"
      (run [ResolveModuleNames svelteHost ["./Foo.svelte"] "/proj/a.ts";
            ResolveModuleNames svelteHost ["./Foo.svelte"] "/proj/b.ts";
            DeleteUnresolvedResolutionsFromCache "/proj/Foo.svelte.ts";
            InvalidateFailedLocationResolution] Loader.init) = true.
Proof.
  assert (reachable Loader.init) as Hreach by (by exists []).
  assert ("/proj/Foo.svelte.ts" ∈ ["/proj/Foo.svelte.ts"]) as Hloc by left.
  assert (Cache.has "./Foo.svelte" "/proj/b.ts"
      (moduleCache
         (run [ResolveModuleNames svelteHost ["./Foo.svelte"] "/proj/a.ts"]
            Loader.init))
    = false) as Hmiss by (vm_compute; reflexivity).
  destruct (shared_record_invalidates_every_owner svelteHost svelteHost
              Loader.init "./Foo.svelte" "/proj/a.ts" "./Foo.svelte" "/proj/b.ts"
              "/proj/Foo.svelte.ts"
              (tsResolveModuleName svelteHost "./Foo.svelte" "/proj/a.ts" 0)
              (moduleAt "/proj/Foo.d.svelte.ts")
              ["/proj/Foo.svelte.ts"]
              Hreach eq_refl Hmiss eq_refl eq_refl eq_refl eq_refl Hloc)
    as (Hgonea&Hgoneb&Ha&Hb).
  split_and!; [exact Hreach|reflexivity|exact Hmiss|reflexivity|reflexivity
              |exact Hloc|exact Hgonea|exact Hgoneb|exact Ha|exact Hb].
Defined.

(** A Svelte import in an ES module and without any source file. *)
Lemma svelte_imports_ignore_the_mode_witness :
  (∀ name file mode,
     hostResolveWithMode (modeHost (Some {| impliedNodeFormat := Some ESNext |}))
       name file mode
     = hostResolveWithMode (modeHost None) name file mode)
  ∧ (∀ p, hostRealSveltePathIfExists
            (modeHost (Some {| impliedNodeFormat := Some ESNext |})) p
          = hostRealSveltePathIfExists (modeHost None) p)
  ∧ (∀ p, hostSnapshotExtension
            (modeHost (Some {| impliedNodeFormat := Some ESNext |})) p
          = hostSnapshotExtension (modeHost None) p)
  ∧ (∀ name, name ∈ ["./A.svelte"] → isSvelteFilePath name = true)
  ∧ Loader.resolveModuleNames
      (moduleEnv (modeHost (Some {| impliedNodeFormat := Some ESNext |})))
      ["./A.svelte"] "/proj/a.ts" Loader.init
    = Loader.resolveModuleNames (moduleEnv (modeHost None))
        ["./A.svelte"] "/proj/a.ts" Loader.init.
Proof.
  assert (∀ name, name ∈ ["./A.svelte"] → isSvelteFilePath name = true) as Hsvelte.
  { intros name Hin. apply list_elem_of_singleton in Hin as ->.
    vm_compute. reflexivity. }
  split; [intros; reflexivity|]. split; [intros; reflexivity|].
  split; [intros; reflexivity|]. split; [exact Hsvelte|].
  exact (proj1 (svelte_imports_ignore_the_mode
                  (modeHost (Some {| impliedNodeFormat := Some ESNext |}))
                  (modeHost None) ["./A.svelte"] "/proj/a.ts" Loader.init
                  (λ _ _ _, eq_refl) (λ _, eq_refl) (λ _, eq_refl)) Hsvelte).
Defined.

(** The key of [node] in an ES module. *)
Lemma typeReferenceKey_injective_witness :
  typeReferenceKey "node" (Some ESNext) = "node|99"
  ∧ typeReferenceKey "node" (Some ESNext) = typeReferenceKey "node" (Some ESNext)
  ∧ ("node" = "node" ∧ Some ESNext = Some ESNext).
Proof.
  split; [reflexivity|]. split; [reflexivity|].
  exact (typeReferenceKey_injective "node" "node" (Some ESNext) (Some ESNext) eq_refl).
Defined.

(** [node], by name and by a file reference in other case, resolved from
    one project and asked for again from another. *)
Lemma type_references_repeat_witness :
  (∀ entry format,
     tsGetModeForFileReference (typesHost "/other") entry format
     = tsGetModeForFileReference (typesHost "/proj") entry format)
  ∧ (TypeReferences.resolveAll (typesHost "/other")
       [DirectiveName "node";
        DirectiveReference {| fileName := "Node"; resolutionMode := Some ESNext |}]
       "/other/b.ts" None
       (TypeReferences.resolveAll (typesHost "/proj")
          [DirectiveName "node";
           DirectiveReference {| fileName := "Node"; resolutionMode := Some ESNext |}]
          "/proj/a.ts" None ∅).2).1
    = (TypeReferences.resolveAll (typesHost "/proj")
         [DirectiveName "node";
          DirectiveReference {| fileName := "Node"; resolutionMode := Some ESNext |}]
         "/proj/a.ts" None ∅).1.
Proof.
  split; [intros; reflexivity|].
  exact (f_equal fst
           (type_references_repeat (typesHost "/proj") (typesHost "/other")
              [DirectiveName "node";
               DirectiveReference {| fileName := "Node"; resolutionMode := Some ESNext |}]
              "/proj/a.ts" "/other/b.ts" None ∅ (λ _ _, eq_refl))).
Defined.

(** [node] stays cached through a deletion and is resolved anew after
    [deleteUnresolvedResolutionsFromCache]. *)
Lemma type_references_cleared_in_bulk_only_witness :
  (∀ entry format,
     tsGetModeForFileReference (typesHost "/other") entry format
     = tsGetModeForFileReference (typesHost "/proj") entry format)
  ∧ (TypeReferences.resolveTypeReferenceDirectiveReferences (typesHost "/other")
       [DirectiveName "node"] "/proj/a.ts" None
       (TypeReferences.deleteFromModuleCache "/proj/node_modules/@types/node/index.d.ts"
          (TypeReferences.resolveTypeReferenceDirectiveReferences (typesHost "/proj")
             [DirectiveName "node"] "/proj/a.ts" None emptyLoader).2)).1
    = (TypeReferences.resolveTypeReferenceDirectiveReferences (typesHost "/proj")
         [DirectiveName "node"] "/proj/a.ts" None emptyLoader).1.
Proof.
  split; [intros; reflexivity|].
  exact (proj1 (type_references_cleared_in_bulk_only (typesHost "/proj")
                  (typesHost "/other") (DirectiveName "node") "/proj/a.ts" "/proj/a.ts"
                  None emptyLoader "/proj/node_modules/@types/node/index.d.ts"
                  (λ _ _, eq_refl))).
Defined.

End MoreExamples.

(** ** Order and repetition of notifications *)

Section NotificationFacts.
Context `{PathUtils}.

Lemma moduleResolutionCache_eq (c1 c2 : ModuleResolutionCache) :
  (∀ k, cache c1 !! k = cache c2 !! k) →
  (∀ x, x ∈ pendingInvalidations c1 ↔ x ∈ pendingInvalidations c2) →
  c1 = c2.
Proof.
  destruct c1 as [m1 p1], c2 as [m2 p2]. simpl. intros Hm Hp.
  f_equal; [by apply map_eq|by apply set_eq].
Qed.

Lemma delete_delete_lookup path1 path2 c k :
  keysCanonical c →
  cache (Cache.delete path2 (Cache.delete path1 c)) !! k
  = match cache c !! k with
    | Some v =>
        if Cache.resolvesTo (canon path1) k v || Cache.resolvesTo (canon path2) k v
        then None else Some v
    | None => None
    end.
Proof.
  intros Hc.
  rewrite delete_lookup
    by (eapply shrinks_keysCanonical; [by apply delete_shrinks|done]).
  rewrite delete_lookup by done.
  destruct (cache c !! k) as [v|]; [|done].
  by destruct (Cache.resolvesTo (canon path1) k v).
Qed.

Lemma delete_delete_pending path1 path2 c x :
  keysCanonical c →
  x ∈ pendingInvalidations (Cache.delete path2 (Cache.delete path1 c))
  ↔ x ∈ pendingInvalidations c
    ∨ ∃ k m, cache c !! k = Some (Some m)
           ∧ (canon (resolvedFileName m) = canon path1
              ∨ canon (resolvedFileName m) = canon path2)
           ∧ x = canon (Cache.keyContainingFile k).
Proof.
  intros Hc. rewrite !delete_pending. split.
  - intros [[?|(k&m&Hk&Hm&->)]|(k&m&Hk&Hm&->)]; [by left|right..].
    + exists k, m. by auto.
    + rewrite delete_lookup in Hk by done.
      destruct (cache c !! k) as [[m'|]|] eqn:Hk'; simpl in Hk; [|done..].
      case_bool_decide; simplify_eq. exists k, m. by auto.
  - intros [?|(k&m&Hk&Hm&->)]; [by left; left|].
    destruct (decide (canon (resolvedFileName m) = canon path1)) as [H1|H1].
    + left. right. by exists k, m.
    + destruct Hm as [?|H2]; [done|]. right. exists k, m.
      split_and!; [|done..]. rewrite delete_lookup, Hk by done. simpl.
      by rewrite bool_decide_false.
Qed.

(** X16.  Deletion notifications can be delivered in any order: in a
    reachable state, [deleteFromModuleCache] for two paths leaves the same
    loader whichever comes first. *)
Theorem deletions_commute (st : State) (path1 path2 : string) :
  reachable st →
  Loader.deleteFromModuleCache path2 (Loader.deleteFromModuleCache path1 st)
  = Loader.deleteFromModuleCache path1 (Loader.deleteFromModuleCache path2 st).
Proof.
  intros Hreach. destruct (reachable_wellFormed st Hreach) as [Hc _].
  unfold Loader.deleteFromModuleCache, Loader.withModuleCache. simpl.
  f_equal. apply moduleResolutionCache_eq.
  - intros k. rewrite !delete_delete_lookup by done.
    destruct (cache (moduleCache st) !! k) as [v|]; [|done].
    by rewrite orb_comm.
  - intros x. rewrite !delete_delete_pending by done.
    split; (intros [?|(k&m&Hk&[?|?]&->)]; [by left|right; exists k, m; by auto..]).
Qed.

Lemma deleteUnresolved_nothing path c :
  (∀ key, cache c !! key = Some None →
     includes (Cache.fileNameWithoutEnding path) (Cache.keyModuleName key) = false) →
  Cache.deleteUnresolvedResolutionsFromCache path c = c.
Proof.
  intros Hnone. rewrite deleteUnresolved_forEach. unfold FileMap.forEach.
  apply removeWhen_fold_none. intros k [m|] Hin%elem_of_map_to_list; [done|].
  simpl. by apply Hnone.
Qed.

(** X17.  In a reachable state [deleteUnresolvedResolutionsFromCache] is
    idempotent: a second notification for the same path removes nothing
    more and leaves the pending sets as they are. *)
Theorem deleteUnresolved_twice_is_once (st : State) (path : string) :
  reachable st →
  Loader.deleteUnresolvedResolutionsFromCache path
    (Loader.deleteUnresolvedResolutionsFromCache path st)
  = Loader.deleteUnresolvedResolutionsFromCache path st.
Proof.
  intros Hreach. destruct (reachable_wellFormed st Hreach) as [Hc _].
  unfold Loader.deleteUnresolvedResolutionsFromCache at 1. simpl.
  rewrite deleteUnresolved_nothing.
  - unfold Loader.deleteUnresolvedResolutionsFromCache. f_equal.
    unfold FileSet.add. apply set_eq. intros x. rewrite !elem_of_union. tauto.
  - intros key. rewrite deleteUnresolved_lookup by done.
    destruct (cache (moduleCache st) !! key) as [[m|]|]; simpl; [done| |done].
    by destruct (includes _ _).
Qed.

End NotificationFacts.

(** ** Completeness of the tracked records *)

Section TrackedFacts.
Context `{PathUtils}.

Lemma cacheResolution_tracked_new o' r' containingFile st o :
  o ∈ resolutionWithFailedLookup
        (Loader.cacheResolutionWithFailedLookup o' r' containingFile st) →
  o ∈ resolutionWithFailedLookup st
  ∨ (o = o' ∧ containingFile
              ∈ owningFiles o'
                  (Loader.cacheResolutionWithFailedLookup o' r' containingFile st)).
Proof.
  destruct (failedLookupLocations r') as [[|l ls]|] eqn:Hlocs.
  - unfold Loader.cacheResolutionWithFailedLookup. rewrite Hlocs. by left.
  - destruct (cacheResolution_tracks o' r' containingFile st l ls Hlocs)
      as (_&sid&Ho&Hcf).
    intros Hin. unfold Loader.cacheResolutionWithFailedLookup in Hin.
    rewrite Hlocs in Hin. simpl in Hin.
    apply elem_of_trackedAdd in Hin as [->|Hin]; [right|by left].
    split; [done|]. unfold owningFiles. by rewrite Ho.
  - unfold Loader.cacheResolutionWithFailedLookup. rewrite Hlocs. by left.
Qed.

Lemma resolveOne_owned E containingFile moduleName index st :
  wellFormed st → setsOwned st →
  (∀ o, o ∈ resolutionWithFailedLookup st → ∃ f, f ∈ owningFiles o st) →
  ∀ o, o ∈ resolutionWithFailedLookup
             (Loader.resolveOne E containingFile moduleName index st).2 →
       ∃ f, f ∈ owningFiles o (Loader.resolveOne E containingFile moduleName index st).2.
Proof.
  intros Hwf Hown Hall o.
  destruct (resolveOne_sharing E containingFile moduleName index st Hwf Hown)
    as [_ Hkeep].
  revert Hkeep. unfold Loader.resolveOne.
  destruct (Cache.has _ _ _); [intros _; apply Hall|].
  destruct (Loader.resolveModuleName _ _ _ _ _) as [[o' r'] next].
  intros Hkeep Hin.
  change (o ∈ resolutionWithFailedLookup
                (Loader.cacheResolutionWithFailedLookup o' r' containingFile
                   {| moduleCache := moduleCache st;
                      resolutionWithFailedLookup := resolutionWithFailedLookup st;
                      objects := objects st;
                      fileSets := fileSets st;
                      failedLocationInvalidated := failedLocationInvalidated st;
                      pendingFailedLocationCheck := pendingFailedLocationCheck st;
                      nextObject := next |})) in Hin.
  apply cacheResolution_tracked_new in Hin as [Hin|[-> Hcf]].
  - destruct (Hall o Hin) as [f Hf]. exists f. by apply Hkeep.
  - by exists containingFile.
Qed.

Lemma resolveModuleNames_from_owned E index moduleNames containingFile st :
  wellFormed st → setsOwned st →
  (∀ o, o ∈ resolutionWithFailedLookup st → ∃ f, f ∈ owningFiles o st) →
  ∀ o, o ∈ resolutionWithFailedLookup
             (Loader.resolveModuleNames_from E index moduleNames containingFile st).2 →
       ∃ f, f ∈ owningFiles o
                  (Loader.resolveModuleNames_from E index moduleNames containingFile st).2.
Proof.
  revert index st. induction moduleNames as [|moduleName rest IH];
    intros index st Hwf Hown Hall; [done|].
  simpl.
  pose proof (wellFormed_resolveOne E containingFile moduleName index st Hwf) as Hwf1.
  destruct (resolveOne_sharing E containingFile moduleName index st Hwf Hown)
    as [Hown1 _].
  pose proof (resolveOne_owned E containingFile moduleName index st Hwf Hown Hall)
    as Hall1.
  destruct (Loader.resolveOne _ _ _ _ _) as [r st1]. simpl in *.
  specialize (IH (S index) st1 Hwf1 Hown1 Hall1).
  by destruct (Loader.resolveModuleNames_from _ _ _ _ _) as [rs st2].
Qed.

Lemma run_owned calls st :
  wellFormed st → setsOwned st →
  (∀ o, o ∈ resolutionWithFailedLookup st → ∃ f, f ∈ owningFiles o st) →
  ∀ o, o ∈ resolutionWithFailedLookup (run calls st) →
       ∃ f, f ∈ owningFiles o (run calls st).
Proof.
  revert st. induction calls as [|c calls IH]; intros st Hwf Hown Hall; [done|].
  simpl. destruct (step_sharing st c Hwf Hown) as [Hown1 Hkeep].
  apply IH; [by apply wellFormed_step|done|].
  destruct c as [E names cf|path|path| |]; try done.
  - by apply resolveModuleNames_from_owned.
  - destruct Hwf as [Hc _].
    pose proof (sweep_frame (resolutionWithFailedLookup st) st Hc) as Hf.
    intros o. unfold owningFiles. simpl.
    rewrite (sweep_tracked _ _ Hf), (sweep_objects _ _ Hf), (sweep_fileSets _ _ Hf).
    apply Hall.
Qed.

(** X18.  In every reachable state each tracked record is complete: it
    carries a non-empty list of failed lookup locations and a [files] set
    with at least one containing file.  So the sweep never skips a tracked
    record for want of [files] or of [failedLookupLocations]; the only
    guard that can skip one is the missing resolved module. *)
Theorem tracked_records_are_complete (st : State) (o : ObjId) :
  reachable st →
  o ∈ resolutionWithFailedLookup st →
  ∃ r sid location locations file,
    objects st !! o = Some r
    ∧ files r = Some sid
    ∧ failedLookupLocations r = Some (location :: locations)
    ∧ file ∈ owningFiles o st
    ∧ (resolvedModule r = None → Loader.invalidate_visit st o = st).
Proof.
  intros Hreach Hin.
  destruct (reachable_wellFormed st Hreach) as [_ Ht].
  destruct (Ht o Hin) as (r&sid&l&ls&Ho&Hsid&Hlocs).
  destruct Hreach as [calls ->].
  destruct (run_owned calls Loader.init wellFormed_init setsOwned_init) with (o := o)
    as [f Hf]; [|done|].
  { intros o' Ho'. by apply elem_of_nil in Ho'. }
  exists r, sid, l, ls, f. split_and!; [done..|].
  intros Hnone. unfold Loader.invalidate_visit. rewrite Ho.
  destruct r as [rm rl rf]. simpl in *. by subst.
Qed.

End TrackedFacts.

Section NotificationExamples.
#[local] Existing Instance Svelte.caseSensitive.
Import Scenario.

(** Two packages are deleted. *)
Lemma deletions_commute_witness :
  reachable (run [ResolveModuleNames packageHost ["a"; "b"] "/proj/a.ts"] Loader.init)
  ∧ Loader.deleteFromModuleCache "/proj/node_modules/b/index.d.ts"
      (Loader.deleteFromModuleCache "/proj/node_modules/a/index.d.ts"
         (run [ResolveModuleNames packageHost ["a"; "b"] "/proj/a.ts"] Loader.init))
    = Loader.deleteFromModuleCache "/proj/node_modules/a/index.d.ts"
        (Loader.deleteFromModuleCache "/proj/node_modules/b/index.d.ts"
           (run [ResolveModuleNames packageHost ["a"; "b"] "/proj/a.ts"] Loader.init)).
Proof.
  assert (reachable
    (run [ResolveModuleNames packageHost ["a"; "b"] "/proj/a.ts"] Loader.init))
    as Hreach by (by eexists).
  split; [exact Hreach|].
  exact (deletions_commute _ "/proj/node_modules/a/index.d.ts"
           "/proj/node_modules/b/index.d.ts" Hreach).
Defined.

(** [/proj/Foo.svelte] is reported twice. *)
Lemma deleteUnresolved_twice_is_once_witness :
  reachable
    (run [ResolveModuleNames unresolvedHost ["./Foo"; "./Bar"] "/proj/a.ts"] Loader.init)
  ∧ Loader.deleteUnresolvedResolutionsFromCache "/proj/Foo.svelte"
      (Loader.deleteUnresolvedResolutionsFromCache "/proj/Foo.svelte"
         (run [ResolveModuleNames unresolvedHost ["./Foo"; "./Bar"] "/proj/a.ts"]
            Loader.init))
    = Loader.deleteUnresolvedResolutionsFromCache "/proj/Foo.svelte"
        (run [ResolveModuleNames unresolvedHost ["./Foo"; "./Bar"] "/proj/a.ts"]
           Loader.init).
Proof.
  assert (reachable
    (run [ResolveModuleNames unresolvedHost ["./Foo"; "./Bar"] "/proj/a.ts"] Loader.init))
    as Hreach by (by eexists).
  split; [exact Hreach|].
  exact (deleteUnresolved_twice_is_once _ "/proj/Foo.svelte" Hreach).
Defined.

(** The record tracked for a package found after a failed probe. *)
Lemma tracked_records_are_complete_witness :
  reachable (run [ResolveModuleNames packageHost ["Widget"] "/proj/a.ts"] Loader.init)
  ∧ HostObject 0
    ∈ resolutionWithFailedLookup
        (run [ResolveModuleNames packageHost ["Widget"] "/proj/a.ts"] Loader.init)
  ∧ ∃ r sid location locations file,
      objects (run [ResolveModuleNames packageHost ["Widget"] "/proj/a.ts"] Loader.init)
        !! HostObject 0 = Some r
      ∧ files r = Some sid
      ∧ failedLookupLocations r = Some (location :: locations)
      ∧ file ∈ owningFiles (HostObject 0)
                 (run [ResolveModuleNames packageHost ["Widget"] "/proj/a.ts"] Loader.init)
      ∧ (resolvedModule r = None →
         Loader.invalidate_visit
           (run [ResolveModuleNames packageHost ["Widget"] "/proj/a.ts"] Loader.init)
           (HostObject 0)
         = run [ResolveModuleNames packageHost ["Widget"] "/proj/a.ts"] Loader.init).
Proof.
  assert (reachable
    (run [ResolveModuleNames packageHost ["Widget"] "/proj/a.ts"] Loader.init))
    as Hreach by (by eexists).
  assert (HostObject 0
    ∈ resolutionWithFailedLookup
        (run [ResolveModuleNames packageHost ["Widget"] "/proj/a.ts"] Loader.init))
    as Hin by (vm_compute; left).
  split; [exact Hreach|]. split; [exact Hin|].
  exact (tracked_records_are_complete _ (HostObject 0) Hreach Hin).
Defined.

End NotificationExamples.
